(** * Frame reduction pipeline of [internal/video_processing.py]

    A shallow embedding of [VideoProcessing]: the frame index
    ([sorted(glob.glob(.../ms_*.png))]), the windowed sampler
    ([sample_frames]), the adaptive capper ([cap_frame_count]), the
    duplicate eliminator and the dimension normalizer (both inlined in
    [process]), the transcoder thread ([convert_to_jpeg]) and the fork/join
    of [process].

    Conventions of the model.
    - Python integers are [Z]; [len] is [Z.of_nat (length _)].
    - The video directory is a finite map from full paths to images; every
      external effect of the code (a scan, an [os.remove], a subprocess, a
      thread operation) is appended to a trace.
    - An exception leaves the effects performed so far in place: a command
      is a function from worlds to a result and a world.
    - The external programs ([compare], [convert]) are parameters of the
      development.
    - [a / b] on Python 2 integers is the floor division; [math.floor]
      turns the quotient into a double, which [double_of_int] models by
      rounding to 53 significant bits (the quotient of a time stamp in a
      file name, of at most 255 digits, is within the range of a double);
      [int(maxframes * 0.2)] is the quotient of [2 * maxframes] by 10
      truncated towards zero (exact for frame counts below 2^50).
    - A stored file that PIL cannot open as an image is a record with a
      width or a height that is not positive ([decodable]). *)

From Stdlib Require Import ZArith String Ascii List Lia Bool.
From stdpp Require Import base option list gmap sets strings sorting.

Local Open Scope string_scope.
Local Open Scope list_scope.
Local Open Scope Z_scope.

(** ** Exceptions and commands *)

Inductive exn := OSError | IOError | ZeroDivisionError.

Inductive result (A : Type) :=
| Ok (a : A)
| Raise (e : exn).
Arguments Ok {A} a.
Arguments Raise {A} e.

(** A stored image: its pixel dimensions and its payload. *)
Record image := Image { im_width : Z; im_height : Z; im_data : list Z }.

#[global] Instance image_eq_dec : EqDecision image.
Proof. solve_decision. Defined.

(** Whether PIL can open the stored file as an image. An image has a width
    and a height that are positive; a record with another width or height
    stands for a file that is no image, such as a truncated or empty
    [.png]. *)
Definition decodable (img : image) : bool :=
  (0 <? im_width img) && (0 <? im_height img).

(** What an observer of one pipeline run can see. *)
Inductive event :=
| EGlob (found : list string)
    (* sorted(glob.glob(os.path.join(dir, 'ms_*.png'))) returned [found] *)
| EResize (path : string) (w h : Z)
    (* convert path -resize WxH path *)
| ESample (interval start_ms skip_frames : Z) (frames : list string)
    (* sample_frames entered with these arguments *)
| ERemove (path : string)
    (* os.remove(path) succeeded *)
| ECompare (fuzz : option Z) (image1 image2 : string)
    (* compare -metric AE [-fuzz N%] image1 image2 null: *)
| EThreadStart
    (* jpeg_thread.start() *)
| EJpeg (src dst : string)
    (* convert src -resize 400x400 -quality iq dst *)
| EThreadExit
    (* convert_to_jpeg returned *)
| EMetricsCall
    (* subprocess.call(['python', visualmetrics, ...]) entered *)
| EMetricsReturn
    (* ... and returned *)
| EJoin.
    (* jpeg_thread.join() returned *)

#[global] Instance event_eq_dec : EqDecision event.
Proof. solve_decision. Defined.

Record world := World { files : gmap string image; trace : list event }.

Definition M (A : Type) : Type := world → result A * world.

Definition ret {A} (a : A) : M A := λ w, (Ok a, w).

Definition bind {A B} (m : M A) (k : A → M B) : M B :=
  λ w, match m w with
       | (Ok a, w') => k a w'
       | (Raise e, w') => (Raise e, w')
       end.

Definition raise {A} (e : exn) : M A := λ w, (Raise e, w).

Definition emit (ev : event) : M unit :=
  λ w, (Ok tt, World (files w) (trace w ++ [ev])).

Notation "x <- c1 ;; c2" := (bind c1 (λ x, c2))
  (at level 100, c1 at next level, right associativity).
Notation "c1 ;;; c2" := (bind c1 (λ _, c2))
  (at level 100, right associativity).

(** ** Strings: the two regular expressions and the glob pattern *)

Definition is_digit (c : ascii) : bool :=
  (48 <=? Z.of_nat (nat_of_ascii c)) && (Z.of_nat (nat_of_ascii c) <=? 57).

Definition digit_value (c : ascii) : Z := Z.of_nat (nat_of_ascii c) - 48.

(** The longest prefix of digits, and what follows it. *)
Fixpoint span_digits (s : string) : string * string :=
  match s with
  | EmptyString => (EmptyString, EmptyString)
  | String c s' =>
      if is_digit c
      then let '(ds, r) := span_digits s' in (String c ds, r)
      else (EmptyString, s)
  end.

Fixpoint int_of_digits_from (acc : Z) (ds : string) : Z :=
  match ds with
  | EmptyString => acc
  | String c ds' => int_of_digits_from (10 * acc + digit_value c) ds'
  end.

(** [int(ds)] for a string of decimal digits. *)
Definition int_of_digits (ds : string) : Z := int_of_digits_from 0 ds.

(** [ms_(?P<ms>[0-9]+)\.] anchored at the head of [s]: after [ms_] the
    digits are taken greedily; giving one back leaves a digit where the dot
    must be, so only the longest run can match. *)
Definition match_ms_here (s : string) : option Z :=
  match s with
  | String "m" (String "s" (String "_" r)) =>
      match span_digits r with
      | (String d ds, String "." _) => Some (int_of_digits (String d ds))
      | _ => None
      end
  | _ => None
  end.

(** [re.search(match, frame)] followed by [int(matches.groupdict().get('ms'))]:
    the leftmost match anywhere in the path. *)
Fixpoint re_search_ms (s : string) : option Z :=
  match match_ms_here s with
  | Some t => Some t
  | None =>
      match s with
      | EmptyString => None
      | String _ s' => re_search_ms s'
      end
  end.

(** [re.match('^[0-9]+$', err)] followed by [int(err)]: one or more digits up
    to the end of the string, or up to a final newline. *)
Definition parse_count (err : string) : option Z :=
  match span_digits err with
  | (String d ds, EmptyString) => Some (int_of_digits (String d ds))
  | (String d ds, String "010" EmptyString) => Some (int_of_digits (String d ds))
  | _ => None
  end.

Fixpoint strip_prefix (p s : string) : option string :=
  match p, s with
  | EmptyString, _ => Some s
  | String a p', String b s' => if decide (a = b) then strip_prefix p' s' else None
  | String _ _, EmptyString => None
  end.

Fixpoint has_slash (s : string) : bool :=
  match s with
  | EmptyString => false
  | String c s' => if decide (c = "/"%char) then true else has_slash s'
  end.

Fixpoint ends_with_png (s : string) : bool :=
  match s with
  | EmptyString => false
  | String c s' => if decide (s = ".png") then true else ends_with_png s'
  end.

(** [fnmatch(name, 'ms_*.png')]. *)
Definition fnmatch_ms_png (name : string) : bool :=
  match strip_prefix "ms_" name with
  | Some rest => ends_with_png rest
  | None => false
  end.

(** [path] is [os.path.join(video_path, name)], for a [video_path] without
    a trailing slash, and [name] is a directory entry that the pattern
    accepts. *)
Definition is_frame_path (video_path path : string) : bool :=
  match strip_prefix (video_path +:+ "/") path with
  | Some name => negb (has_slash name) && fnmatch_ms_png name
  | None => false
  end.

(** ** The frame index *)

(** [sorted(glob.glob(os.path.join(video_path, 'ms_*.png')))] on a directory
    content: the matching paths in byte-lexicographic order. *)
Definition sorted_frames (video_path : string) (fs : gmap string image) : list string :=
  merge_sort String.le
    (filter (λ p, is_frame_path video_path p = true) (map_to_list fs).*1).

Definition glob_frames (video_path : string) : M (list string) :=
  λ w, let found := sorted_frames video_path (files w) in
       (Ok found, World (files w) (trace w ++ [EGlob found])).

(** [os.remove(path)]: raises when there is no such file. *)
Definition os_remove (path : string) : M unit :=
  λ w, match files w !! path with
       | Some _ => (Ok tt, World (delete path (files w)) (trace w ++ [ERemove path]))
       | None => (Raise OSError, w)
       end.

(** Whether [Image.open(files[1])] of line 32 succeeds on the directory
    [fs]: the scan has fewer than two frames, so that nothing is opened, or
    its second frame is an image. *)
Definition second_frame_opens (video_path : string) (fs : gmap string image) : bool :=
  match sorted_frames video_path fs with
  | _ :: second :: _ => default false (decodable <$> fs !! second)
  | _ => true
  end.

(** ** Windowed sampler: [sample_frames] *)

(** [float(q)] for an integer [q], read back as an integer: CPython 2.7
    converts an int or a long to the nearest double, a number with a
    significand of 53 bits, a tie going to the even significand. Integers
    of absolute value up to 2^53 are kept; from there on [ulp], the distance
    between neighbouring doubles, is 2 or more and [q] moves to a multiple
    of it. *)
Definition double_of_int (q : Z) : Z :=
  let a := Z.abs q in
  if a <? 2 ^ 53 then q
  else
    let ulp := 2 ^ (Z.log2 a - 52) in
    let m := a / ulp in
    let r := a mod ulp in
    Z.sgn q * (if (2 * r <? ulp) || ((2 * r =? ulp) && Z.even m)
               then m * ulp else (m + 1) * ulp).

(** [int(math.floor(frame_time / interval))]: the floor division of two
    integers, then the round trip of the quotient through a double that
    [math.floor] makes. *)
Definition frame_bucket_of (frame_time interval : Z) : Z :=
  double_of_int (frame_time / interval).

(** The condition of the [if] that guards [os.remove(frame)]. *)
Definition should_remove (first_frame first_change last_frame : string)
    (first_change_time start_ms skip_frames : Z)
    (frame : string) (frame_time frame_bucket frame_count : Z)
    (last_bucket : option Z) : bool :=
  bool_decide (frame_time > first_change_time + start_ms) &&
  bool_decide (Some frame_bucket = last_bucket) &&
  bool_decide (frame ≠ first_frame) &&
  bool_decide (frame ≠ first_change) &&
  bool_decide (frame ≠ last_frame) &&
  bool_decide (frame_count > skip_frames).

(** The [for frame in frames] loop, from the loop variables [frame_count] and
    [last_bucket]; it returns their final values. *)
Fixpoint sample_loop (first_frame first_change last_frame : string)
    (first_change_time interval start_ms skip_frames : Z)
    (frames : list string) (frame_count : Z) (last_bucket : option Z)
    : M (Z * option Z) :=
  match frames with
  | [] => ret (frame_count, last_bucket)
  | frame :: rest =>
      match re_search_ms frame with
      | Some frame_time =>
          let frame_count := frame_count + 1 in
          if decide (interval = 0) then raise ZeroDivisionError
          else
            let frame_bucket := frame_bucket_of frame_time interval in
            (if should_remove first_frame first_change last_frame
                  first_change_time start_ms skip_frames
                  frame frame_time frame_bucket frame_count last_bucket
             then os_remove frame else ret tt) ;;;
            sample_loop first_frame first_change last_frame
              first_change_time interval start_ms skip_frames
              rest frame_count (Some frame_bucket)
      | None =>
          sample_loop first_frame first_change last_frame
            first_change_time interval start_ms skip_frames
            rest frame_count last_bucket
      end
  end.

(** [first_change_time]: the time stamp of the second frame, 0 when its name
    has none. *)
Definition first_change_time_of (first_change : string) : Z :=
  match re_search_ms first_change with
  | Some t => t
  | None => 0
  end.

Definition sample_frames (frames : list string) (interval start_ms skip_frames : Z)
    : M unit :=
  emit (ESample interval start_ms skip_frames frames) ;;;
  if decide (Z.of_nat (length frames) > 3) then
    match frames, last frames with
    | first_frame :: first_change :: _, Some last_frame =>
        sample_loop first_frame first_change last_frame
          (first_change_time_of first_change) interval start_ms skip_frames
          frames 0 None ;;;
        ret tt
    | _, _ => ret tt
    end
  else ret tt.

(** ** Adaptive capper: [cap_frame_count] *)

(** [int(maxframes * 0.2)], [int(maxframes * 0.4)], [int(maxframes * 0.6)]
    for [tenths] = 2, 4, 6. *)
Definition quota (tenths maxframes : Z) : Z := Z.quot (tenths * maxframes) 10.

Definition cap_frame_count (directory : string) (maxframes : Z) : M unit :=
  frames <- glob_frames directory ;;
  if decide (Z.of_nat (length frames) > maxframes) then
    sample_frames frames 100 0 (quota 2 maxframes) ;;;
    frames <- glob_frames directory ;;
    if decide (Z.of_nat (length frames) > maxframes) then
      sample_frames frames 500 5000 (quota 4 maxframes) ;;;
      frames <- glob_frames directory ;;
      if decide (Z.of_nat (length frames) > maxframes) then
        sample_frames frames 1000 10000 (quota 6 maxframes)
      else ret tt
    else ret tt
  else ret tt.

(** ** The stages of [process] *)

Definition VIDEO_SIZE : Z := 400.

(** [os.path.splitext(src)[0] + '.jpg'] for a path that ends in a
    four-character extension, as every frame path does. *)
Definition jpg_path (src : string) : string :=
  substring 0 (String.length src - 4) src +:+ ".jpg".

Section Pipeline.

(** The external programs. [compare_tool fuzz a b] is what [compare -metric
    AE] writes to its standard error for the two files ([None]: no such
    file); [resize_tool img w h] is the image [convert -resize WxH] writes,
    [None] when it fails; [jpeg_tool img size quality] likewise for the
    jpeg conversion. *)
Variable compare_tool : option Z → option image → option image → string.
Variable resize_tool : image → Z → Z → option image.
Variable jpeg_tool : image → Z → Z → option image.

(** [self.video_path] and [self.job['iq']]. *)
Variable video_path : string.
Variable iq : Z.

(** [Image.open(path).size]: raises [IOError] when there is no such file
    and when the file is not an image. *)
Definition image_size (path : string) : M (Z * Z) :=
  λ w, match files w !! path with
       | Some img =>
           if decodable img then (Ok (im_width img, im_height img), w)
           else (Raise IOError, w)
       | None => (Raise IOError, w)
       end.

(** [subprocess.call(['convert', path, '-resize', 'WxH', path])]: the exit
    status is discarded; a failed conversion leaves the file as it was. *)
Definition run_resize (path : string) (width height : Z) : M unit :=
  λ w, let fs :=
         match files w !! path with
         | Some img =>
             match resize_tool img width height with
             | Some img' => <[path := img']> (files w)
             | None => files w
             end
         | None => files w
         end in
       (Ok tt, World fs (trace w ++ [EResize path width height])).

(** Lines 26-36: make the initial screen shot the same size as the video. *)
Definition resize_initial_frame : M unit :=
  files <- glob_frames video_path ;;
  if decide (Z.of_nat (length files) > 1) then
    match files with
    | first :: second :: _ =>
        size <- image_size second ;;
        run_resize first size.1 size.2
    | _ => ret tt
    end
  else ret tt.

(** [compare.communicate()]: the standard error of the comparison. *)
Definition run_compare (fuzz : option Z) (image1 image2 : string) : M string :=
  λ w, (Ok (compare_tool fuzz (files w !! image1) (files w !! image2)),
        World (files w) (trace w ++ [ECompare fuzz image1 image2])).

Definition frames_match (image1 image2 : string) (fuzz_percent max_differences : Z)
    : M bool :=
  let fuzz := if decide (fuzz_percent > 0) then Some fuzz_percent else None in
  err <- run_compare fuzz image1 image2 ;;
  ret (match parse_count err with
       | Some different_pixels => bool_decide (different_pixels <= max_differences)
       | None => false
       end).

(** Lines 44-49: the [for index in xrange(1, count)] loop, from the loop
    variable [baseline]; it returns the final baseline. *)
Fixpoint dedup_loop (baseline : string) (rest : list string) : M string :=
  match rest with
  | [] => ret baseline
  | frame :: rest' =>
      same <- frames_match baseline frame 1 0 ;;
      if same then os_remove frame ;;; dedup_loop baseline rest'
      else dedup_loop frame rest'
  end.

(** Lines 40-49: eliminate duplicate frames. *)
Definition eliminate_duplicate_frames : M unit :=
  files <- glob_frames video_path ;;
  if decide (Z.of_nat (length files) > 1) then
    match files with
    | baseline :: rest => dedup_loop baseline rest ;;; ret tt
    | [] => ret tt
    end
  else ret tt.

(** Lines 26-49: everything [process] does before it starts the thread. *)
Definition process_frames : M unit :=
  resize_initial_frame ;;;
  cap_frame_count video_path 50 ;;;
  eliminate_duplicate_frames.

(** One iteration of the loop of [convert_to_jpeg]. *)
Definition convert_one (src : string) : M unit :=
  λ w, let dst := jpg_path src in
       let fs :=
         match files w !! src with
         | Some img =>
             match jpeg_tool img VIDEO_SIZE iq with
             | Some img' => <[dst := img']> (files w)
             | None => files w
             end
         | None => files w
         end in
       (Ok tt, World fs (trace w ++ [EJpeg src dst])).

Fixpoint remove_all (paths : list string) : M unit :=
  match paths with
  | [] => ret tt
  | filepath :: rest => os_remove filepath ;;; remove_all rest
  end.

(** Lines 65-66: delete the png's. *)
Definition delete_pngs : M unit :=
  files <- glob_frames video_path ;;
  remove_all files.

(** *** The two threads of [process] *)

(** Where the calling thread stands. *)
Inductive main_pc :=
| MStart          (* line 25, the directory exists *)
| MMetrics        (* line 60, before the call *)
| MMetricsWait    (* line 60, inside the call *)
| MJoin           (* line 64 *)
| MCleanup        (* line 65 *)
| MDone
| MRaised (e : exn).

(** Where the jpeg thread stands. *)
Inductive worker_pc :=
| WNotStarted
| WScan                        (* line 70, before the glob *)
| WConvert (todo : list string) (* line 70, the remaining iterations *)
| WExited.

Record machine := Machine { pc : main_pc; wk : worker_pc; wd : world }.

Inductive thread := Main | Worker.

Definition main_step (m : machine) : option machine :=
  match pc m with
  | MStart =>
      match process_frames (wd m) with
      | (Ok _, w) => Some (Machine MMetrics WScan (snd (emit EThreadStart w)))
      | (Raise e, w) => Some (Machine (MRaised e) (wk m) w)
      end
  | MMetrics => Some (Machine MMetricsWait (wk m) (snd (emit EMetricsCall (wd m))))
  | MMetricsWait => Some (Machine MJoin (wk m) (snd (emit EMetricsReturn (wd m))))
  | MJoin =>
      match wk m with
      | WExited => Some (Machine MCleanup (wk m) (snd (emit EJoin (wd m))))
      | _ => None
      end
  | MCleanup =>
      match delete_pngs (wd m) with
      | (Ok _, w) => Some (Machine MDone (wk m) w)
      | (Raise e, w) => Some (Machine (MRaised e) (wk m) w)
      end
  | MDone | MRaised _ => None
  end.

Definition worker_step (m : machine) : option machine :=
  match wk m with
  | WScan =>
      let '(r, w) := glob_frames video_path (wd m) in
      match r with
      | Ok found => Some (Machine (pc m) (WConvert found) w)
      | Raise _ => Some (Machine (pc m) WExited w)
      end
  | WConvert (src :: rest) =>
      Some (Machine (pc m) (WConvert rest) (snd (convert_one src (wd m))))
  | WConvert [] =>
      Some (Machine (pc m) WExited (snd (emit EThreadExit (wd m))))
  | WNotStarted | WExited => None
  end.

(** One scheduling decision; a thread that cannot move leaves the machine
    as it is. *)
Definition step (t : thread) (m : machine) : machine :=
  default m (match t with Main => main_step m | Worker => worker_step m end).

Definition run (schedule : list thread) (m : machine) : machine :=
  foldl (λ m t, step t m) m schedule.

(** [process()] is entered with an empty trace; when [video_path] is not a
    directory it returns at once. *)
Definition process_start (isdir : bool) (fs : gmap string image) : machine :=
  Machine (if isdir then MStart else MDone) WNotStarted (World fs []).

(** [process()] under a schedule. *)
Definition process (isdir : bool) (fs : gmap string image) (schedule : list thread)
    : machine :=
  run schedule (process_start isdir fs).

End Pipeline.


(** ** Order of events in a trace *)

Inductive event_kind :=
| KGlob | KResize | KSample | KRemove | KCompare
| KThreadStart | KJpeg | KThreadExit | KMetricsCall | KMetricsReturn | KJoin.

#[global] Instance event_kind_eq_dec : EqDecision event_kind.
Proof. solve_decision. Defined.

Definition kind_of (e : event) : event_kind :=
  match e with
  | EGlob _ => KGlob
  | EResize _ _ _ => KResize
  | ESample _ _ _ _ => KSample
  | ERemove _ => KRemove
  | ECompare _ _ _ => KCompare
  | EThreadStart => KThreadStart
  | EJpeg _ _ => KJpeg
  | EThreadExit => KThreadExit
  | EMetricsCall => KMetricsCall
  | EMetricsReturn => KMetricsReturn
  | EJoin => KJoin
  end.

(** Every event of kind [k1] in the trace comes before every event of kind
    [k2]. *)
Definition all_before (k1 k2 : event_kind) (t : list event) : Prop :=
  ∀ i j a b, t !! i = Some a → t !! j = Some b →
             kind_of a = k1 → kind_of b = k2 → (i < j)%nat.

(** The trace has events of the kinds [ks] only. *)
Definition only (ks : list event_kind) (t : list event) : Prop :=
  Forall (λ e, kind_of e ∈ ks) t.

(** Whether, in a trace cut into segments of the given kinds, an event of
    kind [k1] can never follow or share a segment with one of kind [k2]. *)
Fixpoint segments_before (k1 k2 : event_kind) (kss : list (list event_kind)) : bool :=
  match kss with
  | [] => true
  | ks :: rest =>
      (if bool_decide (k2 ∈ ks)
       then forallb (λ ks', bool_decide (k1 ∉ ks')) (ks :: rest)
       else true) && segments_before k1 k2 rest
  end.

(** ** The invariant of the two threads *)

(** What the jpeg thread has left in the concurrent part [c] of the trace. *)
Definition worker_ok (w : worker_pc) (c : list event) : Prop :=
  match w with
  | WNotStarted => False
  | WScan | WConvert _ => EThreadExit ∉ c
  | WExited => EThreadExit ∈ c
  end.

(** The trace of lines 26-49: the normalizer, then the capper, then the
    duplicate eliminator. *)
Definition prepared (pre : list event) : Prop :=
  ∃ t1 t2 t3, pre = t1 ++ t2 ++ t3 ∧
    only [KGlob; KResize] t1 ∧
    only [KGlob; KSample; KRemove] t2 ∧
    only [KGlob; KCompare; KRemove] t3.

(** Where the threads stand against what the trace shows: the trace of the
    stages before the thread was started, [pre]; what the two threads did
    side by side, [c]; and the removals after the join, [cl]. *)
Definition machine_inv (m : machine) : Prop :=
  ∃ pre c cl,
    prepared pre ∧
    only [KGlob; KJpeg; KThreadExit; KMetricsCall; KMetricsReturn] c ∧
    only [KGlob; KRemove] cl ∧
    all_before KJpeg KThreadExit c ∧
    match pc m with
    | MStart => trace (wd m) = [] ∧ wk m = WNotStarted
    | MMetrics | MMetricsWait =>
        trace (wd m) = pre ++ EThreadStart :: c ∧ worker_ok (wk m) c
    | MJoin =>
        trace (wd m) = pre ++ EThreadStart :: c ∧ worker_ok (wk m) c ∧
        EMetricsReturn ∈ c
    | MCleanup =>
        trace (wd m) = pre ++ EThreadStart :: c ++ [EJoin] ∧
        wk m = WExited ∧ EThreadExit ∈ c ∧ EMetricsReturn ∈ c
    | MDone =>
        (trace (wd m) = [] ∧ wk m = WNotStarted) ∨
        (trace (wd m) = pre ++ EThreadStart :: c ++ EJoin :: cl ∧
         wk m = WExited ∧ EThreadExit ∈ c ∧ EMetricsReturn ∈ c)
    | MRaised _ => trace (wd m) = pre ∧ wk m = WNotStarted
    end.

(** ** Descriptions of the sampler used in the statements *)

(** The directory after the files [paths] were removed, one by one. *)
Definition remove_paths (paths : list string) (fs : gmap string image)
    : gmap string image :=
  foldl (λ fs p, delete p fs) fs paths.

(** The time stamps of the frames whose name carries one, in order. *)
Definition parsed_times (frames : list string) : list Z := omap re_search_ms frames.

(** The loop variables of [sample_loop] once it has gone through [pre]. *)
Definition count_after (frame_count : Z) (pre : list string) : Z :=
  frame_count + Z.of_nat (length (parsed_times pre)).

Definition bucket_after (interval : Z) (last_bucket : option Z) (pre : list string)
    : option Z :=
  match last (parsed_times pre) with
  | Some t => Some (frame_bucket_of t interval)
  | None => last_bucket
  end.

(** The frames on which the loop reaches [os.remove], in order. *)
Fixpoint sample_drop (first_frame first_change last_frame : string)
    (first_change_time interval start_ms skip_frames : Z)
    (frames : list string) (frame_count : Z) (last_bucket : option Z)
    : list string :=
  match frames with
  | [] => []
  | frame :: rest =>
      match re_search_ms frame with
      | Some frame_time =>
          let frame_count := frame_count + 1 in
          let frame_bucket := frame_bucket_of frame_time interval in
          (if should_remove first_frame first_change last_frame
                first_change_time start_ms skip_frames
                frame frame_time frame_bucket frame_count last_bucket
           then [frame] else []) ++
          sample_drop first_frame first_change last_frame
            first_change_time interval start_ms skip_frames
            rest frame_count (Some frame_bucket)
      | None =>
          sample_drop first_frame first_change last_frame
            first_change_time interval start_ms skip_frames
            rest frame_count last_bucket
      end
  end.

(** The frames the loop of the sampler leaves in place, in order. *)
Fixpoint sample_keep (first_frame first_change last_frame : string)
    (first_change_time interval start_ms skip_frames : Z)
    (frames : list string) (frame_count : Z) (last_bucket : option Z)
    : list string :=
  match frames with
  | [] => []
  | frame :: rest =>
      match re_search_ms frame with
      | Some frame_time =>
          let frame_count := frame_count + 1 in
          let frame_bucket := frame_bucket_of frame_time interval in
          (if should_remove first_frame first_change last_frame
                first_change_time start_ms skip_frames
                frame frame_time frame_bucket frame_count last_bucket
           then [] else [frame]) ++
          sample_keep first_frame first_change last_frame
            first_change_time interval start_ms skip_frames
            rest frame_count (Some frame_bucket)
      | None =>
          frame ::
          sample_keep first_frame first_change last_frame
            first_change_time interval start_ms skip_frames
            rest frame_count last_bucket
      end
  end.

(** The frames [sample_frames] reaches [os.remove] on. *)
Definition sampled_out (frames : list string) (interval start_ms skip_frames : Z)
    : list string :=
  if decide (Z.of_nat (length frames) > 3) then
    match frames, last frames with
    | first_frame :: first_change :: _, Some last_frame =>
        sample_drop first_frame first_change last_frame
          (first_change_time_of first_change) interval start_ms skip_frames
          frames 0 None
    | _, _ => []
    end
  else [].

(** When the sampler removes the frame at position [i] of [frames]: the
    condition of the loop with the loop variables written out. The bucket
    compared with is that of the nearest earlier frame whose name carries a
    time stamp, and only such frames are counted. *)
Definition sampler_deletes (frames : list string) (interval start_ms skip_frames : Z)
    (i : nat) : bool :=
  match frames !! i, frames !! 0%nat, frames !! 1%nat, last frames with
  | Some frame, Some first_frame, Some first_change, Some last_frame =>
      match re_search_ms frame with
      | Some frame_time =>
          bool_decide (frame_time > first_change_time_of first_change + start_ms) &&
          bool_decide (Some (frame_bucket_of frame_time interval) =
                       (λ t, frame_bucket_of t interval) <$>
                         last (parsed_times (take i frames))) &&
          bool_decide (frame ≠ first_frame) &&
          bool_decide (frame ≠ first_change) &&
          bool_decide (frame ≠ last_frame) &&
          bool_decide (Z.of_nat (length (parsed_times (take (S i) frames))) > skip_frames)
      | None => false
      end
  | _, _, _, _ => false
  end.

(** *** The sampler as the specification words it *)

(** The time stamp of a frame in the data model of the specification: the
    number in its name, 0 when the name has none. *)
Definition timestamp (frame : string) : Z := default 0 (re_search_ms frame).

(** The deletion rule of the specification at position [i]: the time stamp
    exceeds that of the second frame plus the window start; the bucket is
    that of the frame just before in the sequence; the frame is not the
    first, second or last; and the number of frames visited, this one
    included, exceeds the quota. *)
Definition spec_deletes (frames : list string)
    (bucket_width_ms window_start_ms min_keep_count : Z) (i : nat) : bool :=
  match frames !! i, frames !! 1%nat with
  | Some frame, Some second =>
      bool_decide (timestamp frame > timestamp second + window_start_ms) &&
      match i with
      | O => false
      | S j =>
          match frames !! j with
          | Some prev =>
              bool_decide (timestamp frame / bucket_width_ms =
                           timestamp prev / bucket_width_ms)
          | None => false
          end
      end &&
      bool_decide (frames !! 0%nat ≠ Some frame) &&
      bool_decide (frames !! 1%nat ≠ Some frame) &&
      bool_decide (last frames ≠ Some frame) &&
      bool_decide (Z.of_nat (S i) > min_keep_count)
  | _, _ => false
  end.

(** The walk of the specification, in which every frame takes part with its
    [timestamp]. *)
Fixpoint spec_sample_loop (first_frame first_change last_frame : string)
    (threshold_ms bucket_width_ms min_keep_count : Z)
    (frames : list string) (visited_count : Z) (last_bucket : option Z)
    : M unit :=
  match frames with
  | [] => ret tt
  | frame :: rest =>
      let visited_count := visited_count + 1 in
      let bucket := timestamp frame / bucket_width_ms in
      (if bool_decide (timestamp frame > threshold_ms) &&
          bool_decide (Some bucket = last_bucket) &&
          bool_decide (frame ≠ first_frame) &&
          bool_decide (frame ≠ first_change) &&
          bool_decide (frame ≠ last_frame) &&
          bool_decide (visited_count > min_keep_count)
       then os_remove frame else ret tt) ;;;
      spec_sample_loop first_frame first_change last_frame
        threshold_ms bucket_width_ms min_keep_count
        rest visited_count (Some bucket)
  end.

Definition spec_sample_frames (frames : list string)
    (bucket_width_ms window_start_ms min_keep_count : Z) : M unit :=
  emit (ESample bucket_width_ms window_start_ms min_keep_count frames) ;;;
  match frames, last frames with
  | first_frame :: first_change :: _ :: _ :: _, Some last_frame =>
      spec_sample_loop first_frame first_change last_frame
        (timestamp first_change + window_start_ms) bucket_width_ms min_keep_count
        frames 0 None
  | _, _ => ret tt
  end.

(** ** Descriptions of the duplicate eliminator used in the statements *)

Section Duplicates.

Variable compare_tool : option Z → option image → option image → string.

(** The count of differing pixels the comparison reports for two files of
    the directory at the fuzz of 1%; [None] when the invocation fails, that
    is, when what it writes is not a count. *)
Definition differing_pixels (fs : gmap string image) (image1 image2 : string)
    : option Z :=
  parse_count (compare_tool (Some 1) (fs !! image1) (fs !! image2)).

(** The rolling baseline when the scan reaches position [i] of [rest], the
    frames after the first: it starts as the first frame; a frame whose
    count against it is at most 0 leaves it as it is, any other frame
    replaces it. *)
Fixpoint baseline_at (fs : gmap string image) (baseline : string)
    (rest : list string) (i : nat) : string :=
  match i, rest with
  | S j, frame :: rest' =>
      match differing_pixels fs baseline frame with
      | Some n => if bool_decide (n ≤ 0)
                  then baseline_at fs baseline rest' j
                  else baseline_at fs frame rest' j
      | None => baseline_at fs frame rest' j
      end
  | _, _ => baseline
  end.

(** What the loop of the eliminator does, as a trace. *)
Fixpoint dedup_events (fs : gmap string image) (baseline : string)
    (rest : list string) : list event :=
  match rest with
  | [] => []
  | frame :: rest' =>
      ECompare (Some 1) baseline frame ::
      match differing_pixels fs baseline frame with
      | Some n => if bool_decide (n ≤ 0)
                  then ERemove frame :: dedup_events fs baseline rest'
                  else dedup_events fs frame rest'
      | None => dedup_events fs frame rest'
      end
  end.

End Duplicates.

(** *** The capper as the specification words it *)

Inductive capper_state := NeedsPass1 | NeedsPass2 | NeedsPass3 | Done.

(** The table of passes: bucket width, window start, quota, and the state
    that follows. *)
Definition pass_of (maxframes : Z) (s : capper_state)
    : option (Z * Z * Z * capper_state) :=
  match s with
  | NeedsPass1 => Some (100, 0, quota 2 maxframes, NeedsPass2)
  | NeedsPass2 => Some (500, 5000, quota 4 maxframes, NeedsPass3)
  | NeedsPass3 => Some (1000, 10000, quota 6 maxframes, Done)
  | Done => None
  end.

(** The transition rule: scan again; when not over budget, stop; otherwise
    run the sampler with the parameters of the pass and advance. *)
Definition capper_transition (directory : string) (maxframes : Z) (s : capper_state)
    : M capper_state :=
  match pass_of maxframes s with
  | None => ret Done
  | Some (bucket_width_ms, window_start_ms, min_keep_count, next) =>
      frames <- glob_frames directory ;;
      if decide (Z.of_nat (length frames) > maxframes)
      then sample_frames frames bucket_width_ms window_start_ms min_keep_count ;;;
           ret next
      else ret Done
  end.

Fixpoint capper_run (fuel : nat) (directory : string) (maxframes : Z)
    (s : capper_state) : M unit :=
  match s, fuel with
  | Done, _ => ret tt
  | _, O => ret tt
  | _, S fuel' =>
      s' <- capper_transition directory maxframes s ;;
      capper_run fuel' directory maxframes s'
  end.

(** The passes still to come in state [s]. *)
Definition passes_from (maxframes : Z) (s : capper_state) : list (Z * Z * Z) :=
  match s with
  | NeedsPass1 =>
      [(100, 0, quota 2 maxframes); (500, 5000, quota 4 maxframes);
       (1000, 10000, quota 6 maxframes)]
  | NeedsPass2 => [(500, 5000, quota 4 maxframes); (1000, 10000, quota 6 maxframes)]
  | NeedsPass3 => [(1000, 10000, quota 6 maxframes)]
  | Done => []
  end.

(** The parameters of the sampler passes recorded in a trace. *)
Fixpoint sample_passes (t : list event) : list (Z * Z * Z) :=
  match t with
  | [] => []
  | ESample interval start_ms skip_frames _ :: t' =>
      (interval, start_ms, skip_frames) :: sample_passes t'
  | _ :: t' => sample_passes t'
  end.

(** The files removed in a trace. *)
Fixpoint removals (t : list event) : list string :=
  match t with
  | [] => []
  | ERemove p :: t' => p :: removals t'
  | _ :: t' => removals t'
  end.

(** The pairs of files compared in a trace, in order. *)
Fixpoint comparisons (t : list event) : list (string * string) :=
  match t with
  | [] => []
  | ECompare _ image1 image2 :: t' => (image1, image2) :: comparisons t'
  | _ :: t' => comparisons t'
  end.

(** The shape of a trace of the capper from a directory [fs]: rounds of a
    scan, which returns the sorted listing of the directory as the removals
    so far left it and finds it over budget, followed at once by a pass on
    that very listing and by its removals; and, unless the third pass was
    the end, a last scan that finds the directory within budget. *)
Fixpoint capper_trace (directory : string) (maxframes : Z)
    (fs : gmap string image) (t : list event) : Prop :=
  match t with
  | [] => True
  | EGlob found :: ESample _ _ _ frames :: t' =>
      found = sorted_frames directory fs ∧ frames = found ∧
      Z.of_nat (length found) > maxframes ∧
      capper_trace directory maxframes fs t'
  | EGlob found :: t' =>
      found = sorted_frames directory fs ∧
      Z.of_nat (length found) ≤ maxframes ∧ t' = []
  | ERemove p :: t' => capper_trace directory maxframes (delete p fs) t'
  | _ :: _ => False
  end.

(** The three frames the sampler never removes. *)
Definition pinned (frames : list string) : option string * option string * option string :=
  (frames !! 0%nat, frames !! 1%nat, last frames).

(** The time stamps do not decrease along the frame list: what zero-padded
    names give to a sorted scan. *)
Definition time_ordered (frames : list string) : Prop :=
  StronglySorted Z.le (parsed_times frames).

(** Six frames whose names are not padded alike, so that the order of the
    names is not the order of the time stamps. *)
Definition uneven_frames : list string :=
  ["/v/ms_000000.png"; "/v/ms_000030.png"; "/v/ms_005010.png";
   "/v/ms_05100.png"; "/v/ms_5020.png"; "/v/ms_9000.png"].

(** *** Example directories *)

Definition blank : image := Image 4 3 [].

Definition directory_of (paths : list string) : gmap string image :=
  list_to_map ((λ p, (p, blank)) <$> paths).

(** Six frames, the fourth with a name that carries no time stamp. *)
Definition odd_name_frames : list string :=
  ["/v/ms_000000.png"; "/v/ms_000001.png"; "/v/ms_000150.png";
   "/v/ms_000155x.png"; "/v/ms_000160.png"; "/v/ms_000900.png"].

(** Eight frames in time order, several to a bucket of 100 ms. *)
Definition dense_frames : list string :=
  ["/v/ms_000000.png"; "/v/ms_000010.png"; "/v/ms_000020.png";
   "/v/ms_000030.png"; "/v/ms_000040.png"; "/v/ms_000150.png";
   "/v/ms_000160.png"; "/v/ms_000900.png"].

(** Four frames of which the second repeats the first and the fourth the
    third; the first is larger than the others. *)
Definition shots : gmap string image :=
  list_to_map
    [("/v/ms_000000.png", Image 8 6 [1; 1]); ("/v/ms_000100.png", Image 4 3 [1; 1]);
     ("/v/ms_000200.png", Image 4 3 [1; 2]); ("/v/ms_000300.png", Image 4 3 [1; 2])].

(** A comparison that counts 0 for equal pixel data, 17 otherwise, and
    reports an error for a missing file. *)
Definition pixel_diff (fuzz : option Z) (a b : option image) : string :=
  match a, b with
  | Some x, Some y => if decide (im_data x = im_data y) then "0" else "17"
  | _, _ => "compare: unable to open image"
  end.

(** A resize that always succeeds with the dimensions asked for. *)
Definition exact_resize (img : image) (width height : Z) : option image :=
  Some (Image width height (im_data img)).

(** A resize that always fails, as when the program is not installed. *)
Definition failing_resize (img : image) (width height : Z) : option image :=
  None.

(** Sixty frames, one per millisecond from 0 to 59, all with the same
    image. *)
Definition sixty_frames : list string :=
  flat_map (λ tens, (λ units, "/v/ms_0000" +:+ tens +:+ units +:+ ".png") <$>
                      ["0"; "1"; "2"; "3"; "4"; "5"; "6"; "7"; "8"; "9"])
           ["0"; "1"; "2"; "3"; "4"; "5"].

(** The calling thread first, then the jpeg thread to its end, then the
    calling thread to its end. *)
Definition sixty_schedule : list thread :=
  Main :: replicate 14 Worker ++ replicate 4 Main.

(** ** Descriptions used in the further properties *)

(** *** Digit strings *)

(** Every character of [s] is a decimal digit, as [[0-9]] requires. *)
Fixpoint all_digits (s : string) : bool :=
  match s with
  | EmptyString => true
  | String c s' => is_digit c && all_digits s'
  end.

(** What follows the longest prefix of digits does not start with a digit. *)
Definition no_digit_ahead (r : string) : Prop :=
  match r with
  | EmptyString => True
  | String c _ => is_digit c = false
  end.

(** *** Names padded to a fixed width *)

(** [p] is [video_path/ms_<digits>.png] with exactly [width] digits: a name
    padded with zeros to a fixed width. *)
Definition padded_name (video_path : string) (width : nat) (p : string) : bool :=
  match strip_prefix (video_path +:+ "/ms_") p with
  | Some r =>
      bool_decide (String.length (span_digits r).1 = width ∧
                   (span_digits r).2 = ".png")
  | None => false
  end.

(** A directory whose own path matches [ms_<digits>.], so that the search
    never reaches the name of a frame. *)
Definition shadowing_directory : string := "/data/ms_12.run".

(** *** More example directories *)

(** Four frames whose names carry no time stamp. *)
Definition untimed_frames : list string :=
  ["/v/ms_a.png"; "/v/ms_b.png"; "/v/ms_c.png"; "/v/ms_d.png"].

(** Six frames, each alone in its bucket of 100 ms. *)
Definition spread_frames : list string :=
  ["/v/ms_000000.png"; "/v/ms_000100.png"; "/v/ms_000250.png";
   "/v/ms_000300.png"; "/v/ms_000470.png"; "/v/ms_000900.png"].

(** *** What the duplicate eliminator leaves *)

Section Survivors.

Variable compare_tool : option Z → option image → option image → string.

(** The frames after the first that the loop of the eliminator leaves in
    place, in order. *)
Fixpoint dedup_keep (fs : gmap string image) (baseline : string)
    (rest : list string) : list string :=
  match rest with
  | [] => []
  | frame :: rest' =>
      match differing_pixels compare_tool fs baseline frame with
      | Some n => if bool_decide (n ≤ 0)
                  then dedup_keep fs baseline rest'
                  else frame :: dedup_keep fs frame rest'
      | None => frame :: dedup_keep fs frame rest'
      end
  end.

End Survivors.

(** *** The transcoder *)

Section Transcoder.

Variable jpeg_tool : image → Z → Z → option image.
Variable video_path : string.
Variable iq : Z.

(** The [for src in ...] loop of [convert_to_jpeg]. *)
Fixpoint convert_all (srcs : list string) : M unit :=
  match srcs with
  | [] => ret tt
  | src :: rest => convert_one jpeg_tool iq src ;;; convert_all rest
  end.

(** Lines 68-74: [convert_to_jpeg], when nothing else runs in between. *)
Definition convert_to_jpeg : M unit :=
  srcs <- glob_frames video_path ;;
  convert_all srcs.

(** The directory once the paths [srcs] have been converted in turn: each
    conversion that succeeds writes the jpeg next to its source. *)
Definition converted (srcs : list string) (fs : gmap string image)
    : gmap string image :=
  foldl (λ fs src,
           match fs !! src with
           | Some img =>
               match jpeg_tool img VIDEO_SIZE iq with
               | Some img' => <[jpg_path src := img']> fs
               | None => fs
               end
           | None => fs
           end) fs srcs.

End Transcoder.

(** *** The directory along a run of [process] *)

Section Outcome.

Variable compare_tool : option Z → option image → option image → string.
Variable resize_tool : image → Z → Z → option image.
Variable jpeg_tool : image → Z → Z → option image.
Variable video_path : string.
Variable iq : Z.

(** The directory as lines 26-49 leave it, from the directory [fs] that
    [process] found, and what they record. *)
Definition prepared_files (fs : gmap string image) : gmap string image :=
  files (process_frames compare_tool resize_tool video_path (World fs [])).2.

Definition prepared_trace (fs : gmap string image) : list event :=
  trace (process_frames compare_tool resize_tool video_path (World fs [])).2.

(** What one iteration of the loop of [convert_to_jpeg] records. *)
Definition jpeg_event (src : string) : event := EJpeg src (jpg_path src).

(** What the jpeg thread records over the scan [kept], from its scan to
    its return. *)
Definition thread_trace (kept : list string) : list event :=
  EGlob kept :: (jpeg_event <$> kept) ++ [EThreadExit].

(** The events of the jpeg thread, and those of the metrics call, among
    what the two threads record side by side. *)
Definition of_thread (c : list event) : list event :=
  filter (λ e, kind_of e ∈ [KGlob; KJpeg; KThreadExit]) c.

Definition of_caller (c : list event) : list event :=
  filter (λ e, kind_of e ∈ [KMetricsCall; KMetricsReturn]) c.

(** Where the jpeg thread stands at [k]: the directory [now] holds the
    prepared frames and the jpegs of the frames the thread has gone
    through, and [mine] is what the thread has recorded. *)
Definition worker_state (fs : gmap string image) (k : worker_pc)
    (now : gmap string image) (mine : list event) : Prop :=
  let kept := sorted_frames video_path (prepared_files fs) in
  match k with
  | WNotStarted => False
  | WScan => now = prepared_files fs ∧ mine = []
  | WConvert todo =>
      ∃ done, kept = done ++ todo ∧
              now = converted jpeg_tool iq done (prepared_files fs) ∧
              mine = EGlob kept :: (jpeg_event <$> done)
  | WExited =>
      now = converted jpeg_tool iq kept (prepared_files fs) ∧
      mine = thread_trace kept
  end.

(** What the calling thread has recorded of the metrics call, and of the
    join and the clean-up, when it stands at [p]. *)
Definition caller_so_far (p : main_pc) : list event :=
  match p with
  | MMetricsWait => [EMetricsCall]
  | MJoin | MCleanup | MDone => [EMetricsCall; EMetricsReturn]
  | _ => []
  end.

Definition cleanup_so_far (kept : list string) (p : main_pc) : list event :=
  match p with
  | MCleanup => [EJoin]
  | MDone => EJoin :: EGlob kept :: (ERemove <$> kept)
  | _ => []
  end.

(** The world at each point of a run of [process] on [fs]: before line 26
    nothing has happened; an exception of lines 26-49 leaves what they did;
    from the start of the thread on, the trace is that of lines 26-49, the
    start of the thread, what the two threads did side by side, and the
    join and clean-up, and the directory holds the prepared frames with
    the jpegs made so far, at the end without the frames. *)
Definition outcome_inv (fs : gmap string image) (m : machine) : Prop :=
  let kept := sorted_frames video_path (prepared_files fs) in
  match pc m with
  | MStart => wd m = World fs [] ∧ wk m = WNotStarted
  | MRaised e =>
      wk m = WNotStarted ∧
      process_frames compare_tool resize_tool video_path (World fs []) =
        (Raise e, wd m)
  | MMetrics | MMetricsWait | MJoin | MCleanup | MDone =>
      process_frames compare_tool resize_tool video_path (World fs []) =
        (Ok tt, World (prepared_files fs) (prepared_trace fs)) ∧
      match pc m with MCleanup | MDone => wk m = WExited | _ => True end ∧
      ∃ c now,
        trace (wd m) =
          prepared_trace fs ++ EThreadStart :: c ++ cleanup_so_far kept (pc m) ∧
        files (wd m) =
          match pc m with MDone => remove_paths kept now | _ => now end ∧
        only [KGlob; KJpeg; KThreadExit; KMetricsCall; KMetricsReturn] c ∧
        of_caller c = caller_so_far (pc m) ∧
        worker_state fs (wk m) now (of_thread c)
  end.

End Outcome.

(** ** Further descriptions of runs *)

(** Whether the calling thread at [p] has started the jpeg thread. *)
Definition started (p : main_pc) : bool :=
  match p with
  | MStart | MRaised _ => false
  | _ => true
  end.

(** Four frames of which the second is an empty file, not an image. *)
Definition torn_shots : gmap string image :=
  <["/v/ms_000100.png" := Image 0 0 []]> shots.

(** Five frames, 100 ms apart, with time stamps of eighteen digits: their
    quotients by 100 lie beyond 2^53. *)
Definition late_frames : list string :=
  ["/v/ms_900719925474099000.png"; "/v/ms_900719925474099100.png";
   "/v/ms_900719925474099200.png"; "/v/ms_900719925474099300.png";
   "/v/ms_900719925474099400.png"].

(** * Properties *)

(** Membership of a kind in an explicit list, or its negation. *)
Ltac kind_in := cbn [kind_of]; apply (bool_decide_unpack _); vm_compute; exact I.

(** ** Commands *)

Lemma bind_run {A B} (m : M A) (k : A → M B) w :
  bind m k w =
    match m w with
    | (Ok a, w') => k a w'
    | (Raise e, w') => (Raise e, w')
    end.
Proof. reflexivity. Qed.

Lemma remove_paths_nil fs : remove_paths [] fs = fs.
Proof. reflexivity. Qed.

Lemma remove_paths_cons p ps fs :
  remove_paths (p :: ps) fs = remove_paths ps (delete p fs).
Proof. reflexivity. Qed.

Lemma lookup_remove_paths ps fs q :
  remove_paths ps fs !! q = if decide (q ∈ ps) then None else fs !! q.
Proof.
  revert fs. induction ps as [|p ps IH]; intros fs.
  - rewrite decide_False by apply not_elem_of_nil. done.
  - rewrite remove_paths_cons, IH. destruct (decide (q = p)) as [->|Hne].
    + rewrite lookup_delete_eq. rewrite (decide_True (P := p ∈ p :: ps))
        by apply list_elem_of_here.
      by destruct (decide (p ∈ ps)).
    + rewrite lookup_delete_ne by done.
      destruct (decide (q ∈ ps)) as [Hq|Hq].
      * rewrite decide_True by (by apply list_elem_of_further). done.
      * rewrite decide_False; [done|]. intros [?|?]%elem_of_cons; done.
Qed.

Lemma remove_paths_app ps qs fs :
  remove_paths (ps ++ qs) fs = remove_paths qs (remove_paths ps fs).
Proof. apply foldl_app. Qed.

Lemma os_remove_present p img w :
  files w !! p = Some img →
  os_remove p w = (Ok tt, World (delete p (files w)) (trace w ++ [ERemove p])).
Proof. intros H. unfold os_remove. by rewrite H. Qed.

Lemma os_remove_absent p w :
  files w !! p = None → os_remove p w = (Raise OSError, w).
Proof. intros H. unfold os_remove. by rewrite H. Qed.

(** ** The bucket of a frame *)

Lemma double_of_int_small q : Z.abs q ≤ 2 ^ 53 → double_of_int q = q.
Proof.
  intros Hq. unfold double_of_int.
  destruct (Z.ltb_spec (Z.abs q) (2 ^ 53)) as [|Hge]; [done|].
  assert (Z.abs q = 2 ^ 53) as -> by lia.
  replace (Z.log2 (2 ^ 53) - 52) with 1 by (by vm_compute).
  replace ((2 ^ 53) mod 2 ^ 1) with 0 by (by vm_compute).
  replace ((2 ^ 53) / 2 ^ 1) with (2 ^ 52) by (by vm_compute).
  cbn [Z.ltb Z.mul Z.compare orb]. change (2 * 0 <? 2 ^ 1) with true. cbn [orb].
  change (2 ^ 52 * 2 ^ 1) with (2 ^ 53). lia.
Qed.

(** The rounding on a non-negative integer of at least 54 bits: the result
    lies in the binade of the argument, at most half a unit in the last
    place away. *)
Lemma double_of_int_large a :
  2 ^ 53 ≤ a →
  ∃ ulp m r,
    ulp = 2 ^ (Z.log2 a - 52) ∧ 0 < ulp ∧ a = m * ulp + r ∧ 0 ≤ r < ulp ∧
    2 ^ 52 ≤ m < 2 ^ 53 ∧
    double_of_int a =
      (if (2 * r <? ulp) || ((2 * r =? ulp) && Z.even m)
       then m * ulp else (m + 1) * ulp).
Proof.
  intros Ha. unfold double_of_int.
  assert (0 < a) as Hpos by lia.
  rewrite (Z.abs_eq a) by lia.
  destruct (Z.ltb_spec a (2 ^ 53)) as [|_]; [lia|].
  rewrite (Z.sgn_pos a) by lia.
  pose proof (Z.log2_spec a Hpos) as [Hlo Hhi].
  assert (53 ≤ Z.log2 a) as Hk.
  { apply Z.log2_le_pow2; lia. }
  set (k := Z.log2 a) in *.
  set (ulp := 2 ^ (k - 52)).
  assert (0 < ulp) as Hulp by (apply Z.pow_pos_nonneg; lia).
  assert (2 ^ k = 2 ^ 52 * ulp) as Hsplit.
  { unfold ulp. rewrite <- Z.pow_add_r by lia. f_equal. lia. }
  assert (2 ^ Z.succ k = 2 ^ 53 * ulp) as Hsplit'.
  { unfold ulp. rewrite <- Z.pow_add_r by lia. f_equal. lia. }
  exists ulp, (a / ulp), (a mod ulp).
  pose proof (Z.div_mod a ulp ltac:(lia)) as Hdm.
  pose proof (Z.mod_pos_bound a ulp Hulp) as Hr.
  split; [done|]. split; [done|]. split; [lia|]. split; [done|].
  split; [|by rewrite Z.mul_1_l].
  split.
  - apply Z.div_le_lower_bound; lia.
  - apply Z.div_lt_upper_bound; lia.
Qed.

Lemma double_of_int_binade a :
  2 ^ 53 ≤ a → 2 ^ Z.log2 a ≤ double_of_int a ≤ 2 ^ Z.succ (Z.log2 a).
Proof.
  intros Ha.
  destruct (double_of_int_large a Ha)
    as (ulp & m & r & Hulp & Hpos & Hsplit & Hr & Hm & ->).
  assert (53 ≤ Z.log2 a) as Hk by (apply Z.log2_le_pow2; lia).
  assert (2 ^ Z.log2 a = 2 ^ 52 * ulp) as ->.
  { rewrite Hulp, <- Z.pow_add_r by lia. f_equal. lia. }
  assert (2 ^ Z.succ (Z.log2 a) = 2 ^ 53 * ulp) as ->.
  { rewrite Hulp, <- Z.pow_add_r by lia. f_equal. lia. }
  destruct (_ || _); nia.
Qed.

Lemma double_of_int_mono_nonneg a b :
  0 ≤ a → a ≤ b → double_of_int a ≤ double_of_int b.
Proof.
  intros Ha Hab.
  destruct (Z.le_gt_cases (2 ^ 53) a) as [Hbig|Hsmall].
  - destruct (Z.eq_dec (Z.log2 a) (Z.log2 b)) as [Heq|Hne].
    + destruct (double_of_int_large a Hbig)
        as (ulp & m & r & Hulp & Hpos & Hsplit & Hr & Hm & ->).
      destruct (double_of_int_large b ltac:(lia))
        as (ulp' & m' & r' & Hulp' & _ & Hsplit' & Hr' & Hm' & ->).
      rewrite <- Heq, <- Hulp in Hulp'. subst ulp'.
      assert (m ≤ m') as Hmm by nia.
      destruct (Z.eq_dec m m') as [<-|Hlt].
      * assert (r ≤ r') by nia.
        destruct (Z.ltb_spec (2 * r) ulp), (Z.ltb_spec (2 * r') ulp),
          (Z.eqb_spec (2 * r) ulp), (Z.eqb_spec (2 * r') ulp),
          (Z.even m); cbn [orb andb]; nia.
      * assert (m + 1 ≤ m') by lia.
        destruct (_ || _), (_ || _); nia.
    + pose proof (Z.log2_le_mono a b Hab).
      pose proof (double_of_int_binade a Hbig) as [_ Hup].
      pose proof (double_of_int_binade b ltac:(lia)) as [Hlo _].
      assert (2 ^ Z.succ (Z.log2 a) ≤ 2 ^ Z.log2 b)
        by (apply Z.pow_le_mono_r; lia).
      lia.
  - rewrite (double_of_int_small a) by lia.
    destruct (Z.le_gt_cases (2 ^ 53) b) as [Hbig|Hsmall'].
    + pose proof (double_of_int_binade b Hbig) as [Hlo _].
      assert (2 ^ 53 ≤ 2 ^ Z.log2 b).
      { apply Z.pow_le_mono_r; [lia|]. apply Z.log2_le_pow2; lia. }
      lia.
    + rewrite (double_of_int_small b) by lia. done.
Qed.

Lemma double_of_int_opp q : double_of_int (- q) = - double_of_int q.
Proof.
  unfold double_of_int. rewrite Z.abs_opp, Z.sgn_opp.
  destruct (Z.abs q <? 2 ^ 53); [done|]. lia.
Qed.

Lemma double_of_int_nonneg a : 0 ≤ a → 0 ≤ double_of_int a.
Proof.
  intros Ha. rewrite <- (double_of_int_small 0) at 1 by (by vm_compute).
  by apply double_of_int_mono_nonneg.
Qed.

Lemma double_of_int_mono a b : a ≤ b → double_of_int a ≤ double_of_int b.
Proof.
  intros Hab.
  destruct (Z.le_gt_cases 0 a) as [Ha|Ha].
  - by apply double_of_int_mono_nonneg.
  - destruct (Z.le_gt_cases 0 b) as [Hb|Hb].
    + pose proof (double_of_int_nonneg b Hb).
      pose proof (double_of_int_nonneg (- a) ltac:(lia)) as Hna.
      rewrite double_of_int_opp in Hna. lia.
    + pose proof (double_of_int_mono_nonneg (- b) (- a) ltac:(lia) ltac:(lia)) as H.
      rewrite !double_of_int_opp in H. lia.
Qed.

Lemma frame_bucket_of_mono t u interval :
  interval > 0 → t ≤ u → frame_bucket_of t interval ≤ frame_bucket_of u interval.
Proof.
  intros Hi Htu. unfold frame_bucket_of.
  apply double_of_int_mono, Z.div_le_mono; lia.
Qed.

Lemma frame_bucket_of_exact t interval :
  Z.abs (t / interval) ≤ 2 ^ 53 → frame_bucket_of t interval = t / interval.
Proof. apply double_of_int_small. Qed.

Lemma frame_bucket_of_merges :
  frame_bucket_of 900719925474099200 100 = 9007199254740992 ∧
  frame_bucket_of 900719925474099300 100 = 9007199254740992 ∧
  frame_bucket_of 900719925474099500 100 = 9007199254740996.
Proof. by vm_compute. Qed.

(** ** The loop of the sampler *)

Lemma parsed_times_cons f pre :
  parsed_times (f :: pre) =
    match re_search_ms f with
    | Some t => t :: parsed_times pre
    | None => parsed_times pre
    end.
Proof. reflexivity. Qed.

Lemma parsed_times_app pre post :
  parsed_times (pre ++ post) = parsed_times pre ++ parsed_times post.
Proof.
  induction pre as [|f pre IH]; [done|].
  rewrite <- app_comm_cons, !parsed_times_cons, IH. by destruct (re_search_ms f).
Qed.

Lemma count_after_nil c : count_after c [] = c.
Proof.
  unfold count_after. change (parsed_times []) with (@nil Z).
  rewrite length_nil. lia.
Qed.

Lemma bucket_after_nil interval l : bucket_after interval l [] = l.
Proof. reflexivity. Qed.

Lemma count_after_cons_Some c f t pre :
  re_search_ms f = Some t → count_after c (f :: pre) = count_after (c + 1) pre.
Proof.
  intros H. unfold count_after. rewrite parsed_times_cons, H, length_cons. lia.
Qed.

Lemma count_after_cons_None c f pre :
  re_search_ms f = None → count_after c (f :: pre) = count_after c pre.
Proof. intros H. unfold count_after. by rewrite parsed_times_cons, H. Qed.

Lemma bucket_after_cons_Some interval l f t pre :
  re_search_ms f = Some t →
  bucket_after interval l (f :: pre) =
    bucket_after interval (Some (frame_bucket_of t interval)) pre.
Proof.
  intros H. unfold bucket_after. rewrite parsed_times_cons, H, last_cons.
  by destruct (last (parsed_times pre)).
Qed.

Lemma bucket_after_cons_None interval l f pre :
  re_search_ms f = None →
  bucket_after interval l (f :: pre) = bucket_after interval l pre.
Proof. intros H. unfold bucket_after. by rewrite parsed_times_cons, H. Qed.

Lemma count_after_take frames i :
  count_after 0 (take i frames) = Z.of_nat (length (parsed_times (take i frames))).
Proof. unfold count_after. lia. Qed.

Lemma bucket_after_take interval frames i :
  bucket_after interval None (take i frames) =
    (λ t, frame_bucket_of t interval) <$> last (parsed_times (take i frames)).
Proof. unfold bucket_after. by destruct (last _). Qed.

Section SamplerLoop.

Variables first_frame first_change last_frame : string.
Variables first_change_time interval start_ms skip_frames : Z.

Local Abbreviation loop :=
  (sample_loop first_frame first_change last_frame
     first_change_time interval start_ms skip_frames).
Local Abbreviation drop :=
  (sample_drop first_frame first_change last_frame
     first_change_time interval start_ms skip_frames).
Local Abbreviation removable :=
  (should_remove first_frame first_change last_frame
     first_change_time start_ms skip_frames).

Lemma world_eta w : World (files w) (trace w) = w.
Proof. by destruct w. Qed.

(** Whatever happens, the loop has removed a prefix of [drop], and nothing
    else has changed. *)
Lemma sample_loop_run frames c l w :
  ∃ ps, ps `prefix_of` drop frames c l ∧
    (loop frames c l w).2 =
      World (remove_paths ps (files w)) (trace w ++ (ERemove <$> ps)).
Proof.
  revert c l w. induction frames as [|f rest IH]; intros c l w; simpl.
  - exists []. split; [apply prefix_nil|]. simpl. by rewrite app_nil_r, world_eta.
  - destruct (re_search_ms f) as [t|]; [|apply IH].
    case_decide as Hi.
    + exists []. split; [apply prefix_nil|]. simpl. by rewrite app_nil_r, world_eta.
    + rewrite bind_run.
      destruct (removable f t (frame_bucket_of t interval) (c + 1) l).
      * unfold os_remove. destruct (files w !! f) as [img|] eqn:Hf.
        -- destruct (IH (c + 1) (Some (frame_bucket_of t interval))
                       (World (delete f (files w)) (trace w ++ [ERemove f])))
             as (ps & Hps & Hw).
           exists (f :: ps). split; [by apply prefix_cons|].
           rewrite Hw. simpl. by rewrite <- app_assoc.
        -- exists []. split; [apply prefix_nil|]. simpl.
           by rewrite app_nil_r, world_eta.
      * apply IH.
Qed.

(** On frames that are all there, and a non-zero interval, the loop removes
    exactly [drop] and raises nothing. *)
Lemma sample_loop_ok frames c l w :
  interval ≠ 0 → NoDup frames → (∀ f, f ∈ frames → is_Some (files w !! f)) →
  loop frames c l w =
    (Ok (count_after c frames, bucket_after interval l frames),
     World (remove_paths (drop frames c l) (files w))
           (trace w ++ (ERemove <$> drop frames c l))).
Proof.
  intros Hi. revert c l w.
  induction frames as [|f rest IH]; intros c l w Hnd Hin.
  - simpl. unfold ret. rewrite count_after_nil, bucket_after_nil.
    simpl. by rewrite app_nil_r, world_eta.
  - apply NoDup_cons in Hnd as [Hf Hnd]. simpl.
    destruct (re_search_ms f) as [t|] eqn:Ht.
    + rewrite (count_after_cons_Some _ _ _ _ Ht), (bucket_after_cons_Some _ _ _ _ _ Ht).
      rewrite decide_False by done. rewrite bind_run.
      destruct (removable f t (frame_bucket_of t interval) (c + 1) l).
      * destruct (Hin f) as [img Himg]; [apply list_elem_of_here|].
        rewrite (os_remove_present _ _ _ Himg).
        rewrite IH; [|done|].
        -- simpl. by rewrite <- app_assoc.
        -- intros g Hg. simpl. rewrite lookup_delete_ne by (intros ->; done).
           apply Hin. by apply list_elem_of_further.
      * unfold ret. rewrite IH; [done|done|].
        intros g Hg. apply Hin. by apply list_elem_of_further.
    + rewrite (count_after_cons_None _ _ _ Ht), (bucket_after_cons_None _ _ _ _ Ht).
      rewrite IH; [done|done|].
      intros g Hg. apply Hin. by apply list_elem_of_further.
Qed.

Lemma sample_drop_app pre post c l :
  drop (pre ++ post) c l =
    drop pre c l ++ drop post (count_after c pre) (bucket_after interval l pre).
Proof.
  revert c l. induction pre as [|f pre IH]; intros c l.
  - by rewrite count_after_nil, bucket_after_nil.
  - simpl. destruct (re_search_ms f) as [t|] eqn:Ht.
    + rewrite (count_after_cons_Some _ _ _ _ Ht), (bucket_after_cons_Some _ _ _ _ _ Ht).
      by rewrite IH, <- app_assoc.
    + rewrite (count_after_cons_None _ _ _ Ht), (bucket_after_cons_None _ _ _ _ Ht).
      by rewrite IH.
Qed.

Lemma sample_drop_sublist frames c l : drop frames c l `sublist_of` frames.
Proof.
  revert c l. induction frames as [|f rest IH]; intros c l; simpl; [done|].
  destruct (re_search_ms f) as [t|].
  - destruct (removable _ _ _ _ _); simpl.
    + by apply sublist_skip.
    + by apply sublist_cons.
  - by apply sublist_cons.
Qed.

Lemma sample_drop_Forall frames c l :
  Forall (λ f, f ≠ first_frame ∧ f ≠ first_change ∧ f ≠ last_frame ∧
               is_Some (re_search_ms f))
         (drop frames c l).
Proof.
  revert c l. induction frames as [|f rest IH]; intros c l; simpl; [done|].
  destruct (re_search_ms f) as [t|] eqn:Ht; [|apply IH].
  apply Forall_app. split; [|apply IH].
  destruct (removable _ _ _ _ _) eqn:Hr; [|done].
  apply Forall_singleton. unfold should_remove in Hr.
  rewrite !andb_true_iff, !bool_decide_eq_true in Hr.
  destruct Hr as (((((_ & _) & ? ) & ?) & ?) & _). rewrite Ht. eauto.
Qed.

Lemma sample_drop_elem pre f post c l :
  NoDup (pre ++ f :: post) →
  f ∈ drop (pre ++ f :: post) c l ↔
    ∃ t, re_search_ms f = Some t ∧
      removable f t (frame_bucket_of t interval)
        (count_after c pre + 1) (bucket_after interval l pre) = true.
Proof.
  intros Hnd. apply NoDup_app in Hnd as (_ & Hpre & Hnd).
  apply NoDup_cons in Hnd as [Hpost _].
  rewrite sample_drop_app, elem_of_app. simpl.
  assert (Hn1 : f ∉ drop pre c l).
  { intros Hin. eapply (Hpre f); [|apply list_elem_of_here].
    eapply elem_of_sublist; [done|apply sample_drop_sublist]. }
  assert (Hn2 : ∀ c' l', f ∉ drop post c' l').
  { intros c' l' Hin. apply Hpost.
    eapply elem_of_sublist; [done|apply sample_drop_sublist]. }
  destruct (re_search_ms f) as [t|].
  - rewrite elem_of_app. destruct (removable _ _ _ _ _) eqn:Hr.
    + split; [eauto|]. intros _. right. left. apply list_elem_of_here.
    + split.
      * intros [Ha|[Ha|Ha]]; [done|by apply elem_of_nil in Ha|by apply Hn2 in Ha].
      * intros (t' & Ht' & Hr'). congruence.
  - split.
    + intros [Ha|Ha]; [done|by apply Hn2 in Ha].
    + intros (t' & Ht' & _). done.
Qed.

(** A frame whose name carries no time stamp is invisible to the loop:
    with or without it the same files are removed and the loop variables
    end with the same values. *)
Lemma sample_loop_skip_unparsed pre f post c l w :
  re_search_ms f = None →
  loop (pre ++ f :: post) c l w = loop (pre ++ post) c l w.
Proof.
  intros Hf. revert c l w. induction pre as [|g pre IH]; intros c l w; simpl.
  - by rewrite Hf.
  - destruct (re_search_ms g) as [t|]; [|apply IH].
    case_decide; [done|]. rewrite !bind_run.
    destruct ((if removable g t _ _ _ then os_remove g else ret tt) w)
      as [[[]|e] w1]; [apply IH|done].
Qed.

End SamplerLoop.

(** ** The sampler *)

Lemma sample_frames_run frames interval start_ms skip_frames w :
  ∃ ps, ps `prefix_of` sampled_out frames interval start_ms skip_frames ∧
    (sample_frames frames interval start_ms skip_frames w).2 =
      World (remove_paths ps (files w))
            (trace w ++ ESample interval start_ms skip_frames frames :: (ERemove <$> ps)).
Proof.
  unfold sample_frames, sampled_out. rewrite bind_run. unfold emit.
  assert (Hnone : ∃ ps : list string, ps `prefix_of` [] ∧
    (@ret unit tt (World (files w)
       (trace w ++ [ESample interval start_ms skip_frames frames]))).2 =
    World (remove_paths ps (files w))
      (trace w ++ ESample interval start_ms skip_frames frames :: (ERemove <$> ps))).
  { exists []. split; [done|]. reflexivity. }
  case_decide as Hlen; [|exact Hnone].
  destruct frames as [|f0 [|f1 rest]]; [exact Hnone..|].
  destruct (last (f0 :: f1 :: rest)) as [lf|]; [|exact Hnone].
  rewrite bind_run.
  match goal with |- context [sample_loop ?a ?b ?c ?d ?e ?f ?g ?h ?i ?j ?w0] =>
    destruct (sample_loop_run a b c d e f g h i j w0) as (ps & Hps & Hw);
    destruct (sample_loop a b c d e f g h i j w0) as [[r|e0] w1] end;
  simpl in Hw; subst w1; exists ps; (split; [done|]); simpl;
  by rewrite <- app_assoc.
Qed.

Lemma sample_frames_ok frames interval start_ms skip_frames w :
  interval ≠ 0 → NoDup frames → (∀ f, f ∈ frames → is_Some (files w !! f)) →
  sample_frames frames interval start_ms skip_frames w =
    (Ok tt,
     World (remove_paths (sampled_out frames interval start_ms skip_frames) (files w))
           (trace w ++ ESample interval start_ms skip_frames frames ::
              (ERemove <$> sampled_out frames interval start_ms skip_frames))).
Proof.
  intros Hi Hnd Hin. unfold sample_frames, sampled_out. rewrite bind_run. unfold emit.
  case_decide as Hlen; [|reflexivity].
  destruct frames as [|f0 [|f1 rest]]; [reflexivity..|].
  destruct (last (f0 :: f1 :: rest)) as [lf|]; [|reflexivity].
  rewrite bind_run, sample_loop_ok by done. simpl. unfold ret.
  by rewrite <- app_assoc.
Qed.

Lemma sampled_out_long f0 f1 rest lf interval start_ms skip_frames :
  (length (f0 :: f1 :: rest) > 3)%nat → last (f0 :: f1 :: rest) = Some lf →
  sampled_out (f0 :: f1 :: rest) interval start_ms skip_frames =
    sample_drop f0 f1 lf (first_change_time_of f1) interval start_ms skip_frames
      (f0 :: f1 :: rest) 0 None.
Proof.
  intros Hlen Hl. unfold sampled_out. rewrite decide_True by lia. by rewrite Hl.
Qed.

Lemma sampled_out_sublist frames interval start_ms skip_frames :
  sampled_out frames interval start_ms skip_frames `sublist_of` frames.
Proof.
  unfold sampled_out. case_decide; [|apply sublist_nil_l].
  destruct frames as [|f0 [|f1 rest]]; [apply sublist_nil_l..|].
  destruct (last _); [apply sample_drop_sublist|apply sublist_nil_l].
Qed.

Lemma sampled_out_short frames interval start_ms skip_frames :
  (length frames ≤ 3)%nat → sampled_out frames interval start_ms skip_frames = [].
Proof. intros H. unfold sampled_out. rewrite decide_False by lia. done. Qed.

Lemma sampled_out_Forall frames interval start_ms skip_frames :
  Forall (λ f, frames !! 0%nat ≠ Some f ∧ frames !! 1%nat ≠ Some f ∧
               last frames ≠ Some f ∧ is_Some (re_search_ms f))
         (sampled_out frames interval start_ms skip_frames).
Proof.
  unfold sampled_out. case_decide; [|done].
  destruct frames as [|f0 [|f1 rest]]; [done..|].
  destruct (last (f0 :: f1 :: rest)) as [lf|] eqn:Hl; [|done].
  eapply Forall_impl; [apply sample_drop_Forall|].
  simpl. intros f (? & ? & ? & ?). repeat split; congruence || done.
Qed.

(** C5. Whatever the frame list, the pass parameters and the directory
    (and even when a removal raises), the windowed sampler removes a list of
    files [removed] and changes nothing else; the first, the second and the
    last frame of its input are never among them; and on a list of at most
    three frames nothing is removed. *)
Theorem sample_frames_keeps_pinned_frames
    (frames : list string) (interval start_ms skip_frames : Z) (w : world) :
  ∃ removed : list string,
    (sample_frames frames interval start_ms skip_frames w).2 =
      World (remove_paths removed (files w))
            (trace w ++ ESample interval start_ms skip_frames frames ::
               (ERemove <$> removed)) ∧
    (∀ f, frames !! 0%nat = Some f ∨ frames !! 1%nat = Some f ∨ last frames = Some f →
          (f ∉ removed) ∧
          files (sample_frames frames interval start_ms skip_frames w).2 !! f =
            files w !! f) ∧
    ((length frames ≤ 3)%nat →
       removed = [] ∧
       files (sample_frames frames interval start_ms skip_frames w).2 = files w).
Proof.
  destruct (sample_frames_run frames interval start_ms skip_frames w)
    as (ps & Hps & Hw).
  exists ps. split; [done|]. rewrite Hw. simpl.
  pose proof (sampled_out_Forall frames interval start_ms skip_frames) as HF.
  split.
  - intros f Hf.
    assert (Hn : f ∉ ps).
    { intros Hin. destruct Hps as [qs Hqs]. rewrite Hqs in HF.
      apply Forall_app in HF as [HF _].
      rewrite Forall_forall in HF. destruct (HF f Hin) as (? & ? & ? & _).
      destruct Hf as [?|[?|?]]; done. }
    split; [done|]. rewrite lookup_remove_paths. by rewrite decide_False.
  - intros Hlen. rewrite sampled_out_short in Hps by done.
    apply prefix_nil_inv in Hps. by subst ps.
Qed.

Lemma sampled_out_elem frames interval start_ms skip_frames i f :
  (length frames > 3)%nat → NoDup frames → frames !! i = Some f →
  f ∈ sampled_out frames interval start_ms skip_frames ↔
    sampler_deletes frames interval start_ms skip_frames i = true.
Proof.
  intros Hlen Hnd Hi. unfold sampled_out, sampler_deletes. rewrite Hi.
  rewrite decide_True by lia.
  destruct frames as [|f0 [|f1 rest]]; [simpl in Hlen; lia..|].
  destruct (last (f0 :: f1 :: rest)) as [lf|] eqn:Hl;
    [|by apply last_None in Hl].
  change ((f0 :: f1 :: rest) !! 0%nat) with (Some f0).
  change ((f0 :: f1 :: rest) !! 1%nat) with (Some f1).
  remember (f0 :: f1 :: rest) as frames eqn:Hfr. clear Hfr Hl Hlen.
  pose proof (take_drop_middle frames i f Hi) as Hsplit.
  rewrite <- Hsplit at 1. rewrite sample_drop_elem by (by rewrite Hsplit).
  rewrite count_after_take, bucket_after_take.
  destruct (re_search_ms f) as [t|] eqn:Ht.
  - rewrite (take_S_r _ _ _ Hi), parsed_times_app, length_app.
    rewrite parsed_times_cons, Ht. simpl length.
    unfold should_remove. rewrite Nat2Z.inj_add. simpl Z.of_nat.
    split; [intros (t' & Ht' & Hr); by simplify_eq | eauto].
  - split; [intros (t' & Ht' & _); done | done].
Qed.

(** ** The frame index *)

Lemma elem_of_sorted_frames video_path fs f :
  f ∈ sorted_frames video_path fs ↔
    is_frame_path video_path f = true ∧ is_Some (fs !! f).
Proof.
  unfold sorted_frames. rewrite merge_sort_Permutation, list_elem_of_filter.
  rewrite list_elem_of_fmap. split.
  - intros (Hp & [k img] & -> & Hin). split; [done|].
    apply elem_of_map_to_list in Hin. by exists img.
  - intros (Hp & img & Himg). split; [done|].
    exists (f, img). split; [done|]. by apply elem_of_map_to_list.
Qed.

Lemma NoDup_sorted_frames video_path fs : NoDup (sorted_frames video_path fs).
Proof.
  unfold sorted_frames. rewrite merge_sort_Permutation.
  apply NoDup_filter, NoDup_fst_map_to_list.
Qed.

Lemma StronglySorted_sorted_frames video_path fs :
  StronglySorted String.le (sorted_frames video_path fs).
Proof. apply StronglySorted_merge_sort; apply _. Qed.

Lemma StronglySorted_filter {A} (R : relation A) (P : A → Prop)
    `{∀ x, Decision (P x)} l :
  StronglySorted R l → StronglySorted R (filter P l).
Proof.
  induction 1 as [|x l Hl IH Hx]; [constructor|].
  rewrite filter_cons. case_decide; [|done].
  constructor; [done|]. apply Forall_forall.
  intros y [_ Hy]%list_elem_of_filter. rewrite Forall_forall in Hx. by apply Hx.
Qed.

(** Scanning after removals gives the earlier scan without the removed
    paths. *)
Lemma sorted_frames_remove_paths video_path fs ps :
  sorted_frames video_path (remove_paths ps fs) =
    filter (λ f, f ∉ ps) (sorted_frames video_path fs).
Proof.
  apply (StronglySorted_unique String.le).
  - apply StronglySorted_sorted_frames.
  - apply StronglySorted_filter, StronglySorted_sorted_frames.
  - apply NoDup_Permutation.
    + apply NoDup_sorted_frames.
    + apply NoDup_filter, NoDup_sorted_frames.
    + intros f. rewrite list_elem_of_filter, !elem_of_sorted_frames.
      rewrite lookup_remove_paths. case_decide as Hf.
      * split; [intros [_ [? ?]]; done | intros [? _]; done].
      * tauto.
Qed.

Lemma parsed_times_all frames :
  Forall (λ f, is_Some (re_search_ms f)) frames →
  parsed_times frames = timestamp <$> frames.
Proof.
  induction 1 as [|f frames [t Ht] _ IH]; [done|].
  rewrite parsed_times_cons, fmap_cons, IH, Ht. f_equal.
  unfold timestamp. by rewrite Ht.
Qed.

(** On frames that all carry a time stamp, with buckets that a double
    holds exactly, the rule of the code is the rule of the specification. *)
Lemma sampler_deletes_all_parsed frames interval start_ms skip_frames i :
  Forall (λ f, is_Some (re_search_ms f)) frames →
  Forall (λ t, Z.abs (t / interval) ≤ 2 ^ 53) (parsed_times frames) →
  sampler_deletes frames interval start_ms skip_frames i =
    spec_deletes frames interval start_ms skip_frames i.
Proof.
  intros Hall Hexact. unfold sampler_deletes, spec_deletes.
  assert (Hbucket : ∀ g u, g ∈ frames → re_search_ms g = Some u →
            frame_bucket_of u interval = u / interval).
  { intros g u Hg Hu. apply frame_bucket_of_exact.
    rewrite Forall_forall in Hexact. apply Hexact.
    unfold parsed_times. apply list_elem_of_omap. by exists g. }
  destruct (frames !! i) as [f|] eqn:Hi; [|done].
  assert (Hlt : (i < length frames)%nat) by (by eapply lookup_lt_Some).
  destruct (frames !! 0%nat) as [f0|] eqn:H0;
    [|apply lookup_ge_None in H0; lia].
  destruct (frames !! 1%nat) as [f1|] eqn:H1; [|done].
  destruct (last frames) as [lf|] eqn:Hl;
    [|apply last_None in Hl; subst; simpl in Hlt; lia].
  assert (Hf : is_Some (re_search_ms f)).
  { rewrite Forall_forall in Hall. apply Hall. by eapply list_elem_of_lookup_2. }
  destruct Hf as [t Ht]. rewrite Ht.
  assert (Hts : timestamp f = t) by (unfold timestamp; by rewrite Ht).
  assert (Hfc : first_change_time_of f1 = timestamp f1).
  { unfold first_change_time_of, timestamp. by destruct (re_search_ms f1). }
  rewrite Hts, Hfc.
  assert (Hcount : Z.of_nat (length (parsed_times (take (S i) frames))) =
                   Z.of_nat (S i)).
  { rewrite parsed_times_all by (by apply Forall_take).
    rewrite length_fmap, length_take. f_equal. lia. }
  rewrite Hcount.
  assert (Hprev :
    bool_decide (Some (frame_bucket_of t interval) =
                 (λ t0, frame_bucket_of t0 interval) <$>
                   last (parsed_times (take i frames))) =
    match i with
    | O => false
    | S j => match frames !! j with
             | Some prev => bool_decide (t / interval = timestamp prev / interval)
             | None => false
             end
    end).
  { destruct i as [|j]; [done|].
    destruct (frames !! j) as [prev|] eqn:Hj;
      [|apply lookup_ge_None in Hj; lia].
    rewrite (take_S_r _ _ _ Hj), parsed_times_app.
    rewrite (parsed_times_all [prev])
      by (constructor; [|constructor]; rewrite Forall_forall in Hall;
          apply Hall; by eapply list_elem_of_lookup_2).
    simpl fmap. rewrite last_snoc. simpl.
    assert (Hprev : is_Some (re_search_ms prev)).
    { rewrite Forall_forall in Hall. apply Hall. by eapply list_elem_of_lookup_2. }
    destruct Hprev as [u Hu].
    rewrite (Hbucket f t) by (by eapply list_elem_of_lookup_2 || done).
    rewrite (Hbucket prev (timestamp prev))
      by (by eapply list_elem_of_lookup_2 || (unfold timestamp; by rewrite Hu)).
    apply bool_decide_ext. split; [by intros [= ->]|by intros ->]. }
  rewrite Hprev.
  assert (Hne : ∀ g, bool_decide (Some g ≠ Some f) = bool_decide (f ≠ g)).
  { intros g. apply bool_decide_ext. split; intros H ?; apply H; congruence. }
  by rewrite !Hne.
Qed.

(** ** Claims on the sampler *)

(** C2, as amended. For a list of more than three distinct frames that are
    all in the directory, and a non-zero bucket width, the sampler raises
    nothing and removes the frame at position [i] exactly when
    [sampler_deletes] holds there: its name carries a time stamp, which
    exceeds that of the second frame (0 when it has none) plus the window
    start; its bucket is that of the nearest earlier frame that carries a
    time stamp; it is none of the first, second and last frame; and the
    number of frames carrying a time stamp up to and including it exceeds
    the quota. Files outside the list are untouched. The bucket is
    [int(math.floor(frame_time / interval))], the floor of the quotient
    taken through a double: it is the floor itself as long as that is at
    most 2^53 in absolute value. When every frame of the list carries a
    time stamp and every quotient is within that bound, this is the rule
    of the specification, [spec_deletes]. *)
Theorem sample_frames_deletes_iff
    (frames : list string) (interval start_ms skip_frames : Z) (w : world) :
  (length frames > 3)%nat → interval ≠ 0 → NoDup frames →
  Forall (λ f, is_Some (files w !! f)) frames →
  ∃ w', sample_frames frames interval start_ms skip_frames w = (Ok tt, w') ∧
    (∀ i f, frames !! i = Some f →
       files w' !! f = None ↔
       sampler_deletes frames interval start_ms skip_frames i = true) ∧
    (∀ p, p ∉ frames → files w' !! p = files w !! p) ∧
    (∀ t, Z.abs (t / interval) ≤ 2 ^ 53 →
          frame_bucket_of t interval = t / interval) ∧
    (Forall (λ f, is_Some (re_search_ms f)) frames →
     Forall (λ t, Z.abs (t / interval) ≤ 2 ^ 53) (parsed_times frames) →
     ∀ i, sampler_deletes frames interval start_ms skip_frames i =
          spec_deletes frames interval start_ms skip_frames i).
Proof.
  intros Hlen Hi Hnd Hin. rewrite Forall_forall in Hin.
  eexists. split; [by apply sample_frames_ok|]. simpl.
  split; [|split; [|split;
    [intros t; apply frame_bucket_of_exact
    |intros Hall Hexact i; by apply sampler_deletes_all_parsed]]].
  - intros i f Hf. rewrite lookup_remove_paths.
    rewrite <- (sampled_out_elem frames interval start_ms skip_frames i f) by done.
    case_decide as Hd; [done|].
    destruct (Hin f) as [img Himg]; [by eapply list_elem_of_lookup_2|].
    rewrite Himg. split; [done|]. intros ?; done.
  - intros p Hp. rewrite lookup_remove_paths. rewrite decide_False; [done|].
    intros Hd. apply Hp. eapply elem_of_sublist; [done|apply sampled_out_sublist].
Qed.

Lemma sample_frames_deletes_iff_witness :
  ∃ w', sample_frames odd_name_frames 100 0 0
          (World (directory_of odd_name_frames) []) = (Ok tt, w') ∧
    (∀ i f, odd_name_frames !! i = Some f →
       files w' !! f = None ↔ sampler_deletes odd_name_frames 100 0 0 i = true) ∧
    (∀ p, p ∉ odd_name_frames →
       files w' !! p = files (World (directory_of odd_name_frames) []) !! p) ∧
    (∀ t, Z.abs (t / 100) ≤ 2 ^ 53 → frame_bucket_of t 100 = t / 100) ∧
    (Forall (λ f, is_Some (re_search_ms f)) odd_name_frames →
     Forall (λ t, Z.abs (t / 100) ≤ 2 ^ 53) (parsed_times odd_name_frames) →
     ∀ i, sampler_deletes odd_name_frames 100 0 0 i =
          spec_deletes odd_name_frames 100 0 0 i).
Proof.
  apply (sample_frames_deletes_iff odd_name_frames 100 0 0
           (World (directory_of odd_name_frames) [])).
  - vm_compute. lia.
  - lia.
  - apply (bool_decide_unpack _). vm_compute. reflexivity.
  - apply (bool_decide_unpack _). vm_compute. reflexivity.
Defined.

(** C2 as stated fails: among [odd_name_frames], a sorted scan of six
    frames, the frame at position 4 (160 ms) follows a frame whose name
    carries no time stamp; the sampler removes it, because its bucket is
    that of the frame at 150 ms, while the rule of the claim compares with
    the frame just before it and keeps it. *)
Lemma spec_deletes_counterexample :
  sorted_frames "/v" (directory_of odd_name_frames) = odd_name_frames ∧
  ¬ (∀ i f, odd_name_frames !! i = Some f →
       files (sample_frames odd_name_frames 100 0 0
                (World (directory_of odd_name_frames) [])).2 !! f = None ↔
       spec_deletes odd_name_frames 100 0 0 i = true).
Proof.
  split; [by vm_compute|]. intros H.
  specialize (H 4%nat "/v/ms_000160.png" eq_refl).
  assert (Hs : spec_deletes odd_name_frames 100 0 0 4 = false) by (by vm_compute).
  rewrite Hs in H. apply proj1 in H. discriminate H. by vm_compute.
Qed.

(** Beyond 2^53 two frames that are a whole bucket width apart can fall
    into one bucket: of [late_frames], a sorted scan, the sampler removes
    the frame at position 3, whose quotient 9007199254740993 is rounded to
    the bucket 9007199254740992 of the frame before it. *)
Lemma sample_frames_rounds_late_buckets :
  sorted_frames "/v" (directory_of late_frames) = late_frames ∧
  sampler_deletes late_frames 100 0 0 3 = true ∧
  spec_deletes late_frames 100 0 0 3 = false ∧
  files (sample_frames late_frames 100 0 0
           (World (directory_of late_frames) [])).2
    !! "/v/ms_900719925474099300.png" = None.
Proof. repeat split; by vm_compute. Qed.

(** C10. A frame whose name has no [ms_<digits>.] is never removed by the
    sampler, whatever the list, the parameters and the directory; the
    loop leaves its variables [frame_count] and [last_bucket] as they were
    when it passes over such a frame; and so the loop behaves on a list
    with the frame as on the list without it. *)
Theorem unparsed_frame_is_skipped (f : string) :
  re_search_ms f = None →
  (∀ frames interval start_ms skip_frames w,
     ∃ removed,
       (sample_frames frames interval start_ms skip_frames w).2 =
         World (remove_paths removed (files w))
               (trace w ++ ESample interval start_ms skip_frames frames ::
                  (ERemove <$> removed)) ∧
       (f ∉ removed) ∧
       files (sample_frames frames interval start_ms skip_frames w).2 !! f =
         files w !! f) ∧
  (∀ first_frame first_change last_frame first_change_time
     interval start_ms skip_frames frame_count last_bucket w,
     sample_loop first_frame first_change last_frame first_change_time
       interval start_ms skip_frames [f] frame_count last_bucket w =
     (Ok (frame_count, last_bucket), w)) ∧
  (∀ first_frame first_change last_frame first_change_time
     interval start_ms skip_frames pre post frame_count last_bucket w,
     sample_loop first_frame first_change last_frame first_change_time
       interval start_ms skip_frames (pre ++ f :: post) frame_count last_bucket w =
     sample_loop first_frame first_change last_frame first_change_time
       interval start_ms skip_frames (pre ++ post) frame_count last_bucket w).
Proof.
  intros Hf. split; [|split].
  - intros frames interval start_ms skip_frames w.
    destruct (sample_frames_run frames interval start_ms skip_frames w)
      as (ps & Hps & Hw).
    exists ps. split; [done|]. rewrite Hw. simpl.
    assert (Hn : f ∉ ps).
    { intros Hin. destruct Hps as [qs Hqs].
      pose proof (sampled_out_Forall frames interval start_ms skip_frames) as HF.
      rewrite Hqs in HF. apply Forall_app in HF as [HF _].
      rewrite Forall_forall in HF. destruct (HF f Hin) as (_ & _ & _ & [t Ht]).
      congruence. }
    split; [done|]. rewrite lookup_remove_paths. by rewrite decide_False.
  - intros. simpl. by rewrite Hf.
  - intros. by apply sample_loop_skip_unparsed.
Qed.

Lemma unparsed_frame_is_skipped_witness :
  re_search_ms "/v/ms_000155x.png" = None ∧
  ∀ frames interval start_ms skip_frames w,
    files (sample_frames frames interval start_ms skip_frames w).2
      !! "/v/ms_000155x.png" = files w !! "/v/ms_000155x.png".
Proof.
  split; [reflexivity|]. intros frames interval start_ms skip_frames w.
  destruct (unparsed_frame_is_skipped "/v/ms_000155x.png" eq_refl) as [H _].
  destruct (H frames interval start_ms skip_frames w) as (removed & _ & _ & Hk).
  exact Hk.
Defined.

(** C6 as stated fails: on [odd_name_frames] the sampler and the walk of
    the specification, in which the frame without a time stamp takes part
    with time stamp 0, leave different directories: the code removes the
    frame at 160 ms, the walk of the specification keeps it. *)
Lemma unparsed_frame_counterexample :
  re_search_ms "/v/ms_000155x.png" = None ∧
  files (sample_frames odd_name_frames 100 0 0
           (World (directory_of odd_name_frames) [])).2 ≠
  files (spec_sample_frames odd_name_frames 100 0 0
           (World (directory_of odd_name_frames) [])).2.
Proof.
  split; [reflexivity|]. intros H.
  apply (f_equal (λ m : gmap string image, m !! "/v/ms_000160.png")) in H.
  vm_compute in H. discriminate H.
Qed.

(** C6, as amended. A frame whose name carries no time stamp still takes
    its place in the sorted scan; when it is the second frame, the
    threshold is computed with time stamp 0; but the walk of the sampler
    leaves it out: the loop over a list with the frame does what it does
    over the list without it. *)
Theorem unparsed_frame_is_listed_not_sampled (f : string) :
  re_search_ms f = None →
  (∀ video_path fs,
     is_frame_path video_path f = true → is_Some (fs !! f) →
     f ∈ sorted_frames video_path fs ∧
     StronglySorted String.le (sorted_frames video_path fs)) ∧
  first_change_time_of f = 0 ∧
  (∀ first_frame first_change last_frame first_change_time
     interval start_ms skip_frames pre post frame_count last_bucket w,
     sample_loop first_frame first_change last_frame first_change_time
       interval start_ms skip_frames (pre ++ f :: post) frame_count last_bucket w =
     sample_loop first_frame first_change last_frame first_change_time
       interval start_ms skip_frames (pre ++ post) frame_count last_bucket w).
Proof.
  intros Hf. split; [|split].
  - intros video_path fs Hp Hin. split.
    + by apply elem_of_sorted_frames.
    + apply StronglySorted_sorted_frames.
  - unfold first_change_time_of. by rewrite Hf.
  - intros. by apply sample_loop_skip_unparsed.
Qed.

Lemma unparsed_frame_is_listed_not_sampled_witness :
  "/v/ms_000155x.png" ∈ sorted_frames "/v" (directory_of odd_name_frames) ∧
  first_change_time_of "/v/ms_000155x.png" = 0.
Proof.
  destruct (unparsed_frame_is_listed_not_sampled "/v/ms_000155x.png" eq_refl)
    as (H1 & H2 & _).
  split; [|exact H2].
  apply (H1 "/v" (directory_of odd_name_frames)).
  - reflexivity.
  - apply (bool_decide_unpack _). vm_compute. reflexivity.
Defined.

(** ** The capper *)

Lemma bind_assoc {A B C} (m : M A) (f : A → M B) (g : B → M C) w :
  bind (bind m f) g w = bind m (λ x, bind (f x) g) w.
Proof. unfold bind. by destruct (m w) as [[a|e] w']. Qed.

Lemma removals_app t1 t2 : removals (t1 ++ t2) = removals t1 ++ removals t2.
Proof.
  induction t1 as [|e t1 IH]; [done|]. destruct e; simpl; by rewrite ?IH.
Qed.

Lemma removals_ERemove ps : removals (ERemove <$> ps) = ps.
Proof.
  induction ps as [|p ps IH]; [done|].
  rewrite fmap_cons. cbn [removals]. by rewrite IH.
Qed.

Lemma sample_passes_ERemove ps t :
  sample_passes ((ERemove <$> ps) ++ t) = sample_passes t.
Proof.
  induction ps as [|p ps IH]; [done|].
  rewrite fmap_cons, <- app_comm_cons. cbn [sample_passes]. by rewrite IH.
Qed.

Lemma capper_trace_ERemove directory maxframes fs ps t :
  capper_trace directory maxframes fs ((ERemove <$> ps) ++ t) ↔
  capper_trace directory maxframes (remove_paths ps fs) t.
Proof.
  revert fs. induction ps as [|p ps IH]; intros fs; [done|].
  rewrite fmap_cons, <- app_comm_cons, remove_paths_cons.
  cbn [capper_trace]. by rewrite IH.
Qed.

Lemma only_ERemove ks ps : KRemove ∈ ks → only ks (ERemove <$> ps).
Proof. intros Hk. apply Forall_fmap, Forall_forall. by intros p _. Qed.

Lemma pass_of_interval maxframes s b st k next :
  pass_of maxframes s = Some (b, st, k, next) →
  b > 0 ∧ passes_from maxframes s = (b, st, k) :: passes_from maxframes next.
Proof. destruct s; intros [= <- <- <- <-]; simpl; split; (lia || done). Qed.

Lemma sorted_frames_present video_path fs :
  ∀ f, f ∈ sorted_frames video_path fs → is_Some (fs !! f).
Proof. intros f Hf. by apply elem_of_sorted_frames in Hf as [_ ?]. Qed.

(** One transition of the capper, written out. *)
Lemma capper_transition_run directory maxframes s b st k next w :
  pass_of maxframes s = Some (b, st, k, next) →
  capper_transition directory maxframes s w =
    let found := sorted_frames directory (files w) in
    if decide (Z.of_nat (length found) > maxframes)
    then (Ok next,
          World (remove_paths (sampled_out found b st k) (files w))
                (trace w ++ EGlob found :: ESample b st k found ::
                   (ERemove <$> sampled_out found b st k)))
    else (Ok Done, World (files w) (trace w ++ [EGlob found])).
Proof.
  intros Hp. destruct (pass_of_interval _ _ _ _ _ _ Hp) as [Hb _].
  unfold capper_transition. rewrite Hp, bind_run. unfold glob_frames. simpl.
  case_decide; [|done].
  rewrite bind_run, sample_frames_ok; simpl.
  - unfold ret. by rewrite <- app_assoc.
  - lia.
  - apply NoDup_sorted_frames.
  - apply sorted_frames_present.
Qed.

Lemma capper_run_trace directory maxframes fuel s w :
  (length (passes_from maxframes s) ≤ fuel)%nat →
  ∃ t, capper_run fuel directory maxframes s w =
         (Ok tt, World (remove_paths (removals t) (files w)) (trace w ++ t)) ∧
       sample_passes t `prefix_of` passes_from maxframes s ∧
       capper_trace directory maxframes (files w) t ∧
       only [KGlob; KSample; KRemove] t.
Proof.
  revert s w. induction fuel as [|fuel IH]; intros s w Hfuel.
  - destruct s; simpl in Hfuel; try lia.
    exists []. simpl. unfold ret. rewrite app_nil_r, world_eta.
    repeat split; (done || constructor).
  - destruct (pass_of maxframes s) as [[[[b st] k] next]|] eqn:Hp.
    + destruct (pass_of_interval _ _ _ _ _ _ Hp) as [Hb Hfrom].
      assert (Hrun : capper_run (S fuel) directory maxframes s w =
                bind (capper_transition directory maxframes s)
                     (capper_run fuel directory maxframes) w).
      { by destruct s. }
      rewrite Hrun, bind_run, (capper_transition_run _ _ _ _ _ _ _ _ Hp). simpl.
      set (found := sorted_frames directory (files w)).
      case_decide as Hover.
      * rewrite Hfrom in Hfuel. simpl in Hfuel.
        edestruct (IH next) as (t' & Ht' & Hpre & Htr & Honly); [lia|].
        rewrite Ht'. simpl.
        exists (EGlob found :: ESample b st k found ::
                  (ERemove <$> sampled_out found b st k) ++ t').
        split; [|split; [|split]].
        -- cbn [removals]. rewrite removals_app, removals_ERemove, remove_paths_app.
           by rewrite <- app_assoc.
        -- cbn [sample_passes]. rewrite sample_passes_ERemove, Hfrom.
           by apply prefix_cons.
        -- cbn [capper_trace]. rewrite capper_trace_ERemove. done.
        -- constructor; [kind_in|]. constructor; [kind_in|].
           apply Forall_app. split; [apply only_ERemove; kind_in|done].
      * exists [EGlob found]. split; [|split; [|split]].
        -- destruct fuel; done.
        -- apply prefix_nil.
        -- simpl. split; [done|]. split; [lia|done].
        -- constructor; [kind_in|constructor].
    + destruct s; try discriminate.
      exists []. simpl. unfold ret. rewrite app_nil_r, world_eta.
      repeat split; (done || constructor).
Qed.

Lemma capper_run_step fuel directory maxframes s w :
  capper_run (S fuel) directory maxframes s w =
    match pass_of maxframes s with
    | None => (Ok tt, w)
    | Some (b, st, k, next) =>
        match glob_frames directory w with
        | (Ok frames, w1) =>
            if decide (Z.of_nat (length frames) > maxframes)
            then match sample_frames frames b st k w1 with
                 | (Ok _, w2) => capper_run fuel directory maxframes next w2
                 | (Raise e, w2) => (Raise e, w2)
                 end
            else (Ok tt, w1)
        | (Raise e, w1) => (Raise e, w1)
        end
    end.
Proof.
  destruct s; [| | |done];
    cbn [capper_run]; unfold capper_transition; simpl pass_of; cbv beta iota;
    rewrite bind_assoc, !bind_run;
    (destruct (glob_frames directory w) as [[f0|e0] w0]; [|done]);
    (case_decide; [|by destruct fuel]);
    rewrite bind_assoc, !bind_run;
    by destruct (sample_frames f0 _ _ _ w0) as [[[]|e1] w1].
Qed.

Lemma cap_frame_count_capper_run directory maxframes w :
  cap_frame_count directory maxframes w =
    capper_run 3 directory maxframes NeedsPass1 w.
Proof.
  rewrite capper_run_step. unfold cap_frame_count. rewrite bind_run.
    simpl pass_of. cbv beta iota.
    destruct (glob_frames directory w) as [[f0|e0] w0]; [|done].
    case_decide; [|done]. rewrite bind_run.
    destruct (sample_frames f0 100 0 _ w0) as [[[]|e1] w1]; [|done].
    rewrite capper_run_step, bind_run. simpl pass_of. cbv beta iota.
    destruct (glob_frames directory w1) as [[f1|e1'] w1']; [|done].
    case_decide; [|done]. rewrite bind_run.
    destruct (sample_frames f1 500 5000 _ w1') as [[[]|e2] w2]; [|done].
    rewrite capper_run_step, bind_run. simpl pass_of. cbv beta iota.
    destruct (glob_frames directory w2) as [[f2|e2'] w2']; [|done].
    case_decide; [|done].
    destruct (sample_frames f2 1000 10000 _ w2') as [[[]|e3] w3]; done.
Qed.

(** C3. The capper is the three-state machine of the specification: from
    [NeedsPass1], each transition scans the directory anew and either
    stops, when the scan is within budget, or runs the sampler with the
    parameters of the table and moves on; so at most three passes run.
    In trace terms: the passes recorded are an initial part of the table
    (100 ms, 0 ms, int(0.2 max); 500 ms, 5000 ms, int(0.4 max); 1000 ms,
    10000 ms, int(0.6 max)); each follows at once a scan that returned the
    sorted listing of the directory as it then was, on which it works, and
    which was over budget; and a scan within budget ends the trace. For
    the budget of 50 the quotas are 10, 20 and 30. The capper raises
    nothing. *)
Theorem cap_frame_count_is_three_pass_machine
    (directory : string) (maxframes : Z) (w : world) :
  cap_frame_count directory maxframes w =
    capper_run 3 directory maxframes NeedsPass1 w ∧
  (∃ t, cap_frame_count directory maxframes w =
          (Ok tt, World (remove_paths (removals t) (files w)) (trace w ++ t)) ∧
        sample_passes t `prefix_of`
          [(100, 0, quota 2 maxframes); (500, 5000, quota 4 maxframes);
           (1000, 10000, quota 6 maxframes)] ∧
        capper_trace directory maxframes (files w) t) ∧
  (quota 2 50 = 10 ∧ quota 4 50 = 20 ∧ quota 6 50 = 30).
Proof.
  pose proof (cap_frame_count_capper_run directory maxframes w) as Heq.
  split; [done|]. split; [|done].
  rewrite Heq.
  destruct (capper_run_trace directory maxframes 3 NeedsPass1 w)
    as (t & Ht & Hpre & Htr & _); [simpl; lia|].
  by exists t.
Qed.

(** ** Sampling again what was sampled *)

Lemma filter_ext_elem {A} (P Q : A → Prop)
    `{∀ x, Decision (P x)} `{∀ x, Decision (Q x)} (l : list A) :
  (∀ x, x ∈ l → P x ↔ Q x) → filter P l = filter Q l.
Proof.
  induction l as [|x l IH]; intros HPQ; [done|].
  rewrite !filter_cons.
  rewrite IH by (intros y Hy; apply HPQ; by apply list_elem_of_further).
  destruct (decide (P x)) as [HP|HP], (decide (Q x)) as [HQ|HQ]; try done.
  - exfalso. apply HQ, HPQ; [apply list_elem_of_here|done].
  - exfalso. apply HP, HPQ; [apply list_elem_of_here|done].
Qed.

Lemma StronglySorted_sublist {A} (R : relation A) (k l : list A) :
  k `sublist_of` l → StronglySorted R l → StronglySorted R k.
Proof.
  induction 1 as [|x k l Hkl IH|x k l Hkl IH]; intros Hs; [done| |].
  - apply StronglySorted_inv in Hs as [Hs Hx].
    constructor; [by apply IH|].
    apply Forall_forall. intros y Hy. rewrite Forall_forall in Hx.
    apply Hx. by eapply elem_of_sublist.
  - apply StronglySorted_inv in Hs as [Hs _]. by apply IH.
Qed.

Lemma parsed_times_sublist k l :
  k `sublist_of` l → parsed_times k `sublist_of` parsed_times l.
Proof.
  induction 1 as [|x k l Hkl IH|x k l Hkl IH]; [done| |];
    rewrite ?parsed_times_cons; destruct (re_search_ms x); try done.
  - by apply sublist_skip.
  - by apply sublist_cons.
Qed.

Lemma time_ordered_sublist k l :
  k `sublist_of` l → time_ordered l → time_ordered k.
Proof.
  intros Hkl. apply StronglySorted_sublist. by apply parsed_times_sublist.
Qed.

Section Resample.

Variables first_frame first_change last_frame : string.
Variables first_change_time interval start_ms skip_frames : Z.
Hypothesis interval_pos : interval > 0.

Local Abbreviation drop :=
  (sample_drop first_frame first_change last_frame
     first_change_time interval start_ms skip_frames).
Local Abbreviation keep :=
  (sample_keep first_frame first_change last_frame
     first_change_time interval start_ms skip_frames).
Local Abbreviation removable :=
  (should_remove first_frame first_change last_frame
     first_change_time start_ms skip_frames).

Lemma sample_keep_filter frames c l :
  NoDup frames →
  filter (λ f, f ∉ drop frames c l) frames = keep frames c l.
Proof.
  revert c l. induction frames as [|f rest IH]; intros c l Hnd; [done|].
  apply NoDup_cons in Hnd as [Hf Hnd]. simpl.
  assert (Hn : ∀ c' l', f ∉ drop rest c' l').
  { intros c' l' Hin. apply Hf.
    eapply elem_of_sublist; [done|apply sample_drop_sublist]. }
  destruct (re_search_ms f) as [t|].
  - destruct (removable f t _ _ l).
    + rewrite filter_cons, decide_False
        by (intros Hx; apply Hx; simpl; apply list_elem_of_here).
      simpl. rewrite <- IH by done. apply filter_ext_elem.
      intros x Hx. simpl. rewrite not_elem_of_cons. split; [tauto|].
      intros ?. split; [|done]. intros ->. done.
    + simpl. rewrite filter_cons, decide_True by apply Hn.
      by rewrite IH.
  - rewrite filter_cons, decide_True by apply Hn. by rewrite IH.
Qed.

(** Frames in time order: a sublist of what the loop kept, walked again
    from loop variables that are not ahead, loses nothing. *)
Lemma sample_drop_resample S : ∀ T c l c' l',
  StronglySorted Z.le (parsed_times S) →
  (∀ b t, l = Some b → t ∈ parsed_times S → b ≤ frame_bucket_of t interval) →
  c' ≤ c →
  (l' = None ∨ ∃ a b, l' = Some a ∧ l = Some b ∧ a ≤ b) →
  T `sublist_of` keep S c l →
  drop T c' l' = [].
Proof.
  induction S as [|f S IH]; intros T c l c' l' Hs Hb Hc Hl HT.
  - simpl in HT. apply sublist_nil_r in HT as ->. done.
  - simpl in HT. rewrite parsed_times_cons in Hs, Hb.
    destruct (re_search_ms f) as [t|] eqn:Ht.
    + apply StronglySorted_inv in Hs as [Hs Hall].
      rewrite Forall_forall in Hall.
      assert (Hnext : ∀ b t0, Some (frame_bucket_of t interval) = Some b →
                t0 ∈ parsed_times S → b ≤ frame_bucket_of t0 interval).
      { intros b t0 [= <-] Hin.
        apply frame_bucket_of_mono; [done|]. by apply Hall. }
      assert (Hbt : ∀ b, l = Some b → b ≤ frame_bucket_of t interval).
      { intros b Hlb. apply (Hb b t Hlb). apply list_elem_of_here. }
      assert (Hstate : ∀ T', T' `sublist_of`
                  keep S (c + 1) (Some (frame_bucket_of t interval)) →
                drop T' c' l' = []).
      { intros T' HT'.
        apply (IH T' (c + 1) (Some (frame_bucket_of t interval)) c' l');
          [done|done|lia| |done].
        destruct Hl as [->|(a & b & -> & -> & Hab)]; [by left|].
        right. exists a, (frame_bucket_of t interval).
        split; [done|]. split; [done|].
        etransitivity; [exact Hab|]. by apply Hbt. }
      destruct (removable f t (frame_bucket_of t interval) (c + 1) l) eqn:Hr.
      * by apply Hstate.
      * simpl in HT. apply sublist_cons_r in HT as [HT|(T' & -> & HT')].
        -- by apply Hstate.
        -- simpl. rewrite Ht.
           assert (Hr' : removable f t (frame_bucket_of t interval) (c' + 1) l'
                         = false).
           { apply not_true_iff_false. intros Hr'.
             apply not_true_iff_false in Hr. apply Hr.
             unfold should_remove in *.
             rewrite !andb_true_iff, !bool_decide_eq_true in Hr'.
             rewrite !andb_true_iff, !bool_decide_eq_true.
             destruct Hr' as (((((H1 & H2) & H3) & H4) & H5) & H6).
             repeat split; [done| |done|done|done|lia].
             destruct Hl as [->|(a & b & -> & -> & Hab)]; [done|].
             injection H2 as <-. f_equal.
             pose proof (Hbt b eq_refl). lia. }
           rewrite Hr'. simpl.
           apply (IH T' (c + 1) (Some (frame_bucket_of t interval))
                    (c' + 1) (Some (frame_bucket_of t interval)));
             [done|done|lia| |done].
           right. exists (frame_bucket_of t interval), (frame_bucket_of t interval).
           split; [done|]. split; [done|lia].
    + apply sublist_cons_r in HT as [HT|(T' & -> & HT')].
      * by apply (IH T c l c' l').
      * simpl. rewrite Ht. by apply (IH T' c l c' l').
Qed.

End Resample.

Lemma pinned_filter (S r : list string) :
  Forall (λ f, S !! 0%nat ≠ Some f ∧ S !! 1%nat ≠ Some f ∧ last S ≠ Some f) r →
  pinned (filter (λ f, f ∉ r) S) = pinned S.
Proof.
  intros Hr. rewrite Forall_forall in Hr.
  assert (Hlast : last (filter (λ f, f ∉ r) S) = last S).
  { destruct (last S) as [z|] eqn:Hz.
    - apply last_Some in Hz as [S' ->]. rewrite filter_app, filter_cons.
      rewrite decide_True.
      + rewrite filter_nil. apply last_snoc.
      + intros Hin. by destruct (Hr z Hin) as (_ & _ & Hl).
    - apply last_None in Hz as ->. done. }
  unfold pinned. rewrite Hlast. clear Hlast.
  destruct S as [|a S]; [done|].
  rewrite filter_cons, decide_True
    by (intros Hin; by destruct (Hr a Hin) as (? & _ & _)).
  destruct S as [|b S]; [done|].
  rewrite filter_cons, decide_True
    by (intros Hin; by destruct (Hr b Hin) as (_ & ? & _)).
  done.
Qed.

Lemma pinned_sampled_out S b st k :
  pinned (filter (λ f, f ∉ sampled_out S b st k) S) = pinned S.
Proof.
  apply pinned_filter. eapply Forall_impl; [apply sampled_out_Forall|].
  simpl. tauto.
Qed.

(** A time-ordered list sampled once: a sublist of what is left that has
    the same first, second and last frame loses nothing to the same pass. *)
Lemma sampled_out_resample S T b st k :
  b > 0 → NoDup S → time_ordered S →
  T `sublist_of` filter (λ f, f ∉ sampled_out S b st k) S →
  pinned T = pinned S →
  sampled_out T b st k = [].
Proof.
  intros Hb Hnd Hs HT Hp.
  assert (Hlen : (length T ≤ length S)%nat).
  { etransitivity; [by apply sublist_length|]. apply length_filter. }
  destruct (decide (length T ≤ 3)%nat) as [Hshort|Hlong];
    [by apply sampled_out_short|].
  unfold pinned in Hp.
  destruct T as [|t0 [|t1 T']]; [simpl in *; lia..|].
  destruct S as [|s0 [|s1 S']]; [simpl in *; lia..|].
  apply pair_equal_spec in Hp as [Hp Hl].
  apply pair_equal_spec in Hp as [H0 H1].
  change (Some t0 = Some s0) in H0. change (Some t1 = Some s1) in H1.
  injection H0 as ->. injection H1 as ->.
  destruct (last (s0 :: s1 :: T')) as [lf|] eqn:HlT'; [|by apply last_None in HlT'].
  rewrite (sampled_out_long _ _ _ lf) in HT by (simpl in *; (lia || done)).
  rewrite (sampled_out_long _ _ _ lf) by (simpl in *; (lia || done)).
  rewrite sample_keep_filter in HT by done.
  apply (sample_drop_resample s0 s1 lf (first_change_time_of s1) b st k Hb
           (s0 :: s1 :: S') (s0 :: s1 :: T') 0 None 0 None);
    [exact Hs|done|lia|by left|exact HT].
Qed.

(** A directory the capper has nothing to take from: within budget, or no
    pass still to come removes anything from its sorted listing. On it the
    capper removes nothing. *)
Lemma capper_run_stable directory maxframes fuel s fs tr :
  (Z.of_nat (length (sorted_frames directory fs)) ≤ maxframes ∨
   ∀ b st k, (b, st, k) ∈ passes_from maxframes s →
     sampled_out (sorted_frames directory fs) b st k = []) →
  ∃ t, capper_run fuel directory maxframes s (World fs tr) =
         (Ok tt, World fs (tr ++ t)) ∧ removals t = [].
Proof.
  revert s tr. induction fuel as [|fuel IH]; intros s tr Hst.
  - exists []. rewrite app_nil_r. by destruct s.
  - rewrite capper_run_step.
    destruct (pass_of maxframes s) as [[[[b st] k] next]|] eqn:Hp.
    + destruct (pass_of_interval _ _ _ _ _ _ Hp) as [Hb Hfrom].
      unfold glob_frames. simpl.
      set (found := sorted_frames directory fs) in *.
      case_decide as Hover.
      * destruct Hst as [Hst|Hst]; [lia|].
        rewrite sample_frames_ok;
          [|lia|apply NoDup_sorted_frames|apply sorted_frames_present].
        simpl. rewrite (Hst b st k) by (rewrite Hfrom; apply list_elem_of_here).
        rewrite remove_paths_nil. simpl.
        destruct (IH next ((tr ++ [EGlob found]) ++ [ESample b st k found]))
          as (t' & Ht' & Hrm).
        { right. intros b' st' k' Hin. apply Hst. rewrite Hfrom.
          by apply list_elem_of_further. }
        rewrite Ht'. exists (EGlob found :: ESample b st k found :: t').
        split; [|done]. by rewrite <- !app_assoc.
      * by exists [EGlob found].
    + exists []. by rewrite app_nil_r.
Qed.

(** From a time-ordered listing, the capper stops on such a directory. *)
Lemma capper_run_reaches_stable directory maxframes fuel :
  ∀ s passed fs tr,
  (length (passes_from maxframes s) ≤ fuel)%nat →
  time_ordered (sorted_frames directory fs) →
  (∀ b st k, (b, st, k) ∈ passed →
     b > 0 ∧ ∃ S, NoDup S ∧ time_ordered S ∧
       sorted_frames directory fs `sublist_of`
         filter (λ f, f ∉ sampled_out S b st k) S ∧
       pinned (sorted_frames directory fs) = pinned S) →
  ∃ fs' t,
    capper_run fuel directory maxframes s (World fs tr) =
      (Ok tt, World fs' (tr ++ t)) ∧
    (Z.of_nat (length (sorted_frames directory fs')) ≤ maxframes ∨
     ∀ b st k, (b, st, k) ∈ passed ++ passes_from maxframes s →
       sampled_out (sorted_frames directory fs') b st k = []).
Proof.
  induction fuel as [|fuel IH]; intros s passed fs tr Hfuel Hto Hinv.
  - destruct s; simpl in Hfuel; try lia.
    exists fs, []. rewrite app_nil_r. split; [done|]. right.
    intros b st k Hin. rewrite app_nil_r in Hin.
    destruct (Hinv b st k Hin) as (Hb & S & HndS & HtoS & Hsub & Hpin).
    by eapply sampled_out_resample.
  - rewrite capper_run_step.
    destruct (pass_of maxframes s) as [[[[b st] k] next]|] eqn:Hp.
    + destruct (pass_of_interval _ _ _ _ _ _ Hp) as [Hb Hfrom].
      unfold glob_frames. simpl.
      set (found := sorted_frames directory fs) in *.
      case_decide as Hover.
      * rewrite sample_frames_ok;
          [|lia|apply NoDup_sorted_frames|apply sorted_frames_present].
        simpl. set (r := sampled_out found b st k).
        assert (Hscan : sorted_frames directory (remove_paths r fs) =
                        filter (λ f, f ∉ r) found).
        { apply sorted_frames_remove_paths. }
        rewrite Hfrom in Hfuel. simpl in Hfuel.
        destruct (IH next (passed ++ [(b, st, k)]) (remove_paths r fs)
                    ((tr ++ [EGlob found]) ++ ESample b st k found :: (ERemove <$> r)))
          as (fs' & t' & Ht' & Hst); [lia| | |].
        { rewrite Hscan. eapply time_ordered_sublist; [apply sublist_filter|done]. }
        { intros b' st' k' [Hin|Hin%list_elem_of_singleton]%elem_of_app.
          - destruct (Hinv b' st' k' Hin) as (Hb' & S & HndS & HtoS & Hsub & Hpin).
            split; [done|]. exists S. split; [done|]. split; [done|].
            rewrite Hscan. split.
            + etransitivity; [apply sublist_filter|done].
            + unfold r. by rewrite pinned_sampled_out.
          - injection Hin as -> -> ->. split; [done|].
            exists found. split; [apply NoDup_sorted_frames|]. split; [done|].
            rewrite Hscan. split; [done|]. apply pinned_sampled_out. }
        rewrite Ht'.
        exists fs', (EGlob found :: ESample b st k found :: (ERemove <$> r) ++ t').
        split; [by rewrite <- !app_assoc|].
        rewrite Hfrom. by rewrite <- app_assoc in Hst.
      * exists fs, [EGlob found]. split; [done|]. left. fold found. lia.
    + destruct s; try discriminate.
      exists fs, []. rewrite app_nil_r. split; [done|]. right.
      intros b st k Hin. rewrite app_nil_r in Hin.
      destruct (Hinv b st k Hin) as (Hb & S & HndS & HtoS & Hsub & Hpin).
      by eapply sampled_out_resample.
Qed.

(** C8, as amended. When the time stamps do not decrease along the sorted
    listing of the directory (as zero-padded names ensure), the capper run
    a second time with the same budget removes nothing: both runs return
    normally, and the second leaves the directory as the first left it. *)
Theorem cap_frame_count_twice (directory : string) (maxframes : Z) (w : world) :
  time_ordered (sorted_frames directory (files w)) →
  ∃ w1 t,
    cap_frame_count directory maxframes w = (Ok tt, w1) ∧
    cap_frame_count directory maxframes w1 =
      (Ok tt, World (files w1) (trace w1 ++ t)) ∧
    removals t = [].
Proof.
  intros Hto.
  destruct (capper_run_reaches_stable directory maxframes 3 NeedsPass1 []
              (files w) (trace w)) as (fs' & t1 & Hrun1 & Hst);
    [simpl; lia|done|by intros b st k Hin%elem_of_nil|].
  destruct (capper_run_stable directory maxframes 3 NeedsPass1 fs'
              (trace w ++ t1) Hst) as (t & Hrun2 & Hrm).
  exists (World fs' (trace w ++ t1)), t.
  rewrite !cap_frame_count_capper_run. rewrite world_eta in Hrun1. done.
Qed.

Lemma cap_frame_count_twice_witness :
  ∃ w1 t,
    cap_frame_count "/v" 3 (World (directory_of dense_frames) []) = (Ok tt, w1) ∧
    cap_frame_count "/v" 3 w1 = (Ok tt, World (files w1) (trace w1 ++ t)) ∧
    removals t = [].
Proof.
  apply (cap_frame_count_twice "/v" 3 (World (directory_of dense_frames) [])).
  apply (bool_decide_unpack _). vm_compute. reflexivity.
Defined.

(** C8 as stated fails: [uneven_frames] is the sorted scan of a directory
    whose names are not padded alike. With a budget of 3 the first run
    removes the frame at 5100 ms in its second pass and ends over budget;
    the frame at 5020 ms, kept by the first pass of the first run because
    the frame at 5100 ms stood before it, is removed by the first pass of
    the second run. *)
Lemma cap_frame_count_twice_counterexample :
  sorted_frames "/v" (directory_of uneven_frames) = uneven_frames ∧
  files (cap_frame_count "/v" 3
           (cap_frame_count "/v" 3 (World (directory_of uneven_frames) [])).2).2 ≠
  files (cap_frame_count "/v" 3 (World (directory_of uneven_frames) [])).2.
Proof.
  split; [by vm_compute|]. intros H.
  apply (f_equal (λ m : gmap string image, m !! "/v/ms_5020.png")) in H.
  vm_compute in H. discriminate H.
Qed.

(** ** The duplicate eliminator *)

Section DuplicatesProperties.

Variable compare_tool : option Z → option image → option image → string.

Local Abbreviation pixels := (differing_pixels compare_tool).
Local Abbreviation events := (dedup_events compare_tool).
Local Abbreviation base := (baseline_at compare_tool).

Lemma frames_match_run image1 image2 w :
  frames_match compare_tool image1 image2 1 0 w =
    (Ok (match pixels (files w) image1 image2 with
         | Some n => bool_decide (n ≤ 0)
         | None => false
         end),
     World (files w) (trace w ++ [ECompare (Some 1) image1 image2])).
Proof. reflexivity. Qed.

Lemma dedup_events_ext fs1 fs2 baseline rest :
  (∀ p, p ∈ baseline :: rest → fs1 !! p = fs2 !! p) →
  events fs1 baseline rest = events fs2 baseline rest.
Proof.
  revert baseline. induction rest as [|f rest IH]; intros baseline Hext; [done|].
  simpl. unfold differing_pixels.
  rewrite (Hext baseline) by apply list_elem_of_here.
  rewrite (Hext f) by (apply list_elem_of_further, list_elem_of_here).
  f_equal.
  assert (H1 : events fs1 baseline rest = events fs2 baseline rest).
  { apply IH. intros p [->|Hp]%elem_of_cons; apply Hext.
    - apply list_elem_of_here.
    - by do 2 apply list_elem_of_further. }
  assert (H2 : events fs1 f rest = events fs2 f rest).
  { apply IH. intros p Hp. apply Hext. by apply list_elem_of_further. }
  destruct (parse_count _) as [n|]; [|done]. by rewrite H1, H2.
Qed.

Lemma dedup_removals_sublist fs baseline rest :
  removals (events fs baseline rest) `sublist_of` rest.
Proof.
  revert baseline. induction rest as [|f rest IH]; intros baseline; [done|].
  cbn [dedup_events removals].
  destruct (pixels fs baseline f) as [n|].
  - case_bool_decide; cbn [removals].
    + by apply sublist_skip.
    + by apply sublist_cons.
  - by apply sublist_cons.
Qed.

(** On distinct frames that are all there, the loop raises nothing and does
    what [dedup_events] says. *)
Lemma dedup_loop_ok baseline rest w :
  NoDup (baseline :: rest) → (∀ f, f ∈ rest → is_Some (files w !! f)) →
  ∃ final,
    dedup_loop compare_tool baseline rest w =
      (Ok final,
       World (remove_paths (removals (events (files w) baseline rest)) (files w))
             (trace w ++ events (files w) baseline rest)).
Proof.
  revert baseline w. induction rest as [|f rest IH]; intros baseline w Hnd Hin.
  - exists baseline. simpl. unfold ret. by rewrite app_nil_r, world_eta.
  - cbn [dedup_loop]. rewrite bind_run, frames_match_run.
    cbn [dedup_events].
    assert (Hbf : baseline ≠ f ∧ (baseline ∉ rest) ∧ (f ∉ rest) ∧ NoDup rest).
    { apply NoDup_cons in Hnd as [Hb Hnd]. apply NoDup_cons in Hnd as [Hf Hnd].
      apply not_elem_of_cons in Hb as [? ?]. done. }
    destruct Hbf as (Hbf & Hb & Hf & Hrest).
    assert (Hkeep : ∃ final,
      dedup_loop compare_tool f rest
        (World (files w) (trace w ++ [ECompare (Some 1) baseline f])) =
      (Ok final,
       World (remove_paths (removals (events (files w) f rest)) (files w))
             (trace w ++ ECompare (Some 1) baseline f :: events (files w) f rest))).
    { destruct (IH f (World (files w) (trace w ++ [ECompare (Some 1) baseline f])))
        as [final Hfinal].
      - by apply NoDup_cons.
      - intros g Hg. apply Hin. by apply list_elem_of_further.
      - exists final. rewrite Hfinal. simpl. by rewrite <- app_assoc. }
    destruct (pixels (files w) baseline f) as [n|]; [|exact Hkeep].
    case_bool_decide; [|exact Hkeep].
    rewrite bind_run.
    destruct (Hin f) as [img Himg]; [apply list_elem_of_here|].
    rewrite (os_remove_present f img) by exact Himg.
    cbn [files trace].
    destruct (IH baseline (World (delete f (files w))
                ((trace w ++ [ECompare (Some 1) baseline f]) ++ [ERemove f])))
      as [final Hfinal].
    + by apply NoDup_cons.
    + intros g Hg. simpl. rewrite lookup_delete_ne by (intros ->; done).
      apply Hin. by apply list_elem_of_further.
    + exists final. rewrite Hfinal. simpl.
      rewrite (dedup_events_ext (delete f (files w)) (files w)).
      * by rewrite <- !app_assoc.
      * intros p Hp. apply lookup_delete_ne. intros ->.
        apply elem_of_cons in Hp as [->|Hp]; done.
Qed.

Lemma dedup_removed_iff fs baseline rest i f :
  NoDup (baseline :: rest) → rest !! i = Some f →
  f ∈ removals (events fs baseline rest) ↔
    ∃ n, pixels fs (base fs baseline rest i) f = Some n ∧ n ≤ 0.
Proof.
  revert baseline i. induction rest as [|g rest IH]; intros baseline i Hnd Hi;
    [done|].
  assert (Hbf : (baseline ∉ rest) ∧ (g ∉ rest) ∧ NoDup rest).
  { apply NoDup_cons in Hnd as [Hb Hnd]. apply NoDup_cons in Hnd as [Hf Hnd].
    apply not_elem_of_cons in Hb as [? ?]. done. }
  destruct Hbf as (Hb & Hg & Hrest).
  assert (Hout : ∀ b, g ∉ removals (events fs b rest)).
  { intros b Hin. apply Hg.
    eapply elem_of_sublist; [done|apply dedup_removals_sublist]. }
  cbn [dedup_events removals]. destruct i as [|j].
  - injection Hi as ->. cbn [baseline_at].
    destruct (pixels fs baseline f) as [n|].
    + case_bool_decide; cbn [removals].
      * split; [eauto|]. intros _. apply list_elem_of_here.
      * split; [intros Hin; by apply Hout in Hin|].
        intros (n' & [= <-] & ?). done.
    + split; [intros Hin; by apply Hout in Hin|]. intros (n' & ? & _). done.
  - change ((g :: rest) !! S j) with (rest !! j) in Hi.
    assert (Hfg : f ≠ g).
    { intros ->. apply Hg. by eapply list_elem_of_lookup_2. }
    cbn [baseline_at].
    destruct (pixels fs baseline g) as [n|].
    + case_bool_decide; cbn [removals].
      * rewrite elem_of_cons.
        rewrite <- (IH baseline j (proj2 (NoDup_cons _ _) (conj Hb Hrest)) Hi).
        split; [intros [?|?]; done | by right].
      * apply IH; [by apply NoDup_cons|done].
    + apply IH; [by apply NoDup_cons|done].
Qed.

Lemma baseline_at_S fs baseline rest i f :
  rest !! i = Some f →
  base fs baseline rest (S i) =
    match pixels fs (base fs baseline rest i) f with
    | Some n => if bool_decide (n ≤ 0) then base fs baseline rest i else f
    | None => f
    end.
Proof.
  revert baseline i. induction rest as [|g rest IH]; intros baseline i Hi; [done|].
  destruct i as [|j].
  - injection Hi as ->. cbn [baseline_at].
    destruct (pixels fs baseline f) as [n|]; [|by destruct rest].
    case_bool_decide; by destruct rest.
  - change ((g :: rest) !! S j) with (rest !! j) in Hi.
    change (base fs baseline (g :: rest) (S (S j))) with
      (match pixels fs baseline g with
       | Some n => if bool_decide (n ≤ 0)
                   then base fs baseline rest (S j)
                   else base fs g rest (S j)
       | None => base fs g rest (S j)
       end).
    change (base fs baseline (g :: rest) (S j)) with
      (match pixels fs baseline g with
       | Some n => if bool_decide (n ≤ 0)
                   then base fs baseline rest j
                   else base fs g rest j
       | None => base fs g rest j
       end).
    destruct (pixels fs baseline g) as [n|]; [|by apply IH].
    case_bool_decide; by apply IH.
Qed.

Lemma dedup_comparisons fs baseline rest :
  comparisons (events fs baseline rest) =
    imap (λ i f, (base fs baseline rest i, f)) rest.
Proof.
  revert baseline. induction rest as [|g rest IH]; intros baseline; [done|].
  cbn [dedup_events comparisons]. rewrite imap_cons. f_equal.
  destruct (pixels fs baseline g) as [n|] eqn:Hn.
  - case_bool_decide as Hle; cbn [comparisons]; rewrite IH; apply imap_ext;
      intros i f _; simpl; rewrite Hn;
      [by rewrite bool_decide_eq_true_2 | by rewrite bool_decide_eq_false_2].
  - rewrite IH. apply imap_ext. intros i f _. simpl. by rewrite Hn.
Qed.

Lemma eliminate_duplicate_frames_run video_path first rest w :
  sorted_frames video_path (files w) = first :: rest →
  eliminate_duplicate_frames compare_tool video_path w =
    (Ok tt,
     World (remove_paths (removals (events (files w) first rest)) (files w))
           (trace w ++ EGlob (first :: rest) :: events (files w) first rest)).
Proof.
  intros Hscan. unfold eliminate_duplicate_frames.
  rewrite bind_run. unfold glob_frames. rewrite Hscan. cbv beta iota zeta.
  pose proof (NoDup_sorted_frames video_path (files w)) as Hnd.
  pose proof (sorted_frames_present video_path (files w)) as Hin.
  rewrite Hscan in Hnd, Hin.
  destruct rest as [|second rest].
  { rewrite decide_False by (simpl; lia). done. }
  rewrite decide_True by (simpl length; lia). rewrite bind_run.
  edestruct (dedup_loop_ok first (second :: rest)
               (World (files w) (trace w ++ [EGlob (first :: second :: rest)])))
    as [final Hfinal]; [done| |].
  { intros f Hf. apply Hin. by apply list_elem_of_further. }
  rewrite Hfinal. unfold ret. cbn [files trace]. by rewrite <- app_assoc.
Qed.

End DuplicatesProperties.

(** C4. When the sorted scan has at least two frames, [first] and then
    [rest], the eliminator raises nothing and compares each frame of
    [rest], in order, at a fuzz of 1%, with the rolling baseline
    [baseline_at], which starts as the first frame, stays when the frame
    is deleted and becomes the frame otherwise. It deletes the frame at
    position [i] exactly when the count of differing pixels against that
    baseline is at most 0; a frame for which the comparison fails to give
    a count is kept, and the scan goes on to the end of the list; the
    first frame is never removed, nor any file outside [rest]. *)
Theorem eliminate_duplicate_frames_rolling_baseline
    (compare_tool : option Z → option image → option image → string)
    (video_path : string) (w : world) (first : string) (rest : list string) :
  sorted_frames video_path (files w) = first :: rest → rest ≠ [] →
  ∃ w' t,
    eliminate_duplicate_frames compare_tool video_path w = (Ok tt, w') ∧
    trace w' = trace w ++ EGlob (first :: rest) :: t ∧
    comparisons t =
      imap (λ i f, (baseline_at compare_tool (files w) first rest i, f)) rest ∧
    Forall (λ e, ∀ fuzz a b, e = ECompare fuzz a b → fuzz = Some 1) t ∧
    (∀ i f, rest !! i = Some f →
       baseline_at compare_tool (files w) first rest (S i) =
         (if decide (files w' !! f = None)
          then baseline_at compare_tool (files w) first rest i else f) ∧
       (files w' !! f = None ↔
        ∃ n, differing_pixels compare_tool (files w)
               (baseline_at compare_tool (files w) first rest i) f = Some n ∧
             n ≤ 0) ∧
       (differing_pixels compare_tool (files w)
          (baseline_at compare_tool (files w) first rest i) f = None →
        files w' !! f = files w !! f)) ∧
    (∀ p, p ∉ rest → files w' !! p = files w !! p) ∧
    is_Some (files w' !! first).
Proof.
  intros Hscan Hne.
  pose proof (NoDup_sorted_frames video_path (files w)) as Hnd.
  pose proof (sorted_frames_present video_path (files w)) as Hin.
  rewrite Hscan in Hnd, Hin.
  eexists _, _. split; [by apply eliminate_duplicate_frames_run|].
  cbn [files trace]. split; [done|]. split; [apply dedup_comparisons|].
  assert (Hdel : ∀ i f, rest !! i = Some f →
    remove_paths (removals (dedup_events compare_tool (files w) first rest))
      (files w) !! f = None ↔
    ∃ n, differing_pixels compare_tool (files w)
           (baseline_at compare_tool (files w) first rest i) f = Some n ∧ n ≤ 0).
  { intros i f Hi. rewrite lookup_remove_paths.
    rewrite <- (dedup_removed_iff compare_tool (files w) first rest i f) by done.
    case_decide as Hd; [done|].
    destruct (Hin f) as [img Himg].
    { apply list_elem_of_further. by eapply list_elem_of_lookup_2. }
    rewrite Himg. split; [done|]. intros ?; done. }
  assert (Hout : ∀ p, p ∉ rest →
    remove_paths (removals (dedup_events compare_tool (files w) first rest))
      (files w) !! p = files w !! p).
  { intros p Hp. rewrite lookup_remove_paths. rewrite decide_False; [done|].
    intros Hd. apply Hp. eapply elem_of_sublist; [done|].
    apply dedup_removals_sublist. }
  split; [|split; [|split; [exact Hout|]]].
  - clear. generalize first. induction rest as [|g rest IH]; intros b; [done|].
    cbn [dedup_events]. constructor; [intros ? ? ? [= <- _ _]; done|].
    destruct (differing_pixels _ _ _ _) as [n|]; [|apply IH].
    case_bool_decide; [|apply IH].
    constructor; [intros ? ? ? [=]|apply IH].
  - intros i f Hi. specialize (Hdel i f Hi). split; [|split; [exact Hdel|]].
    + rewrite (baseline_at_S _ _ _ _ _ _ Hi). case_decide as Hd.
      * apply Hdel in Hd as (n & -> & Hn). by rewrite bool_decide_eq_true_2.
      * destruct (differing_pixels _ _ _ _) as [n|]; [|done].
        case_bool_decide as Hle; [|done]. exfalso. apply Hd, Hdel. eauto.
    + intros Hnone. rewrite lookup_remove_paths. rewrite decide_False; [done|].
      intros Hd.
      apply (dedup_removed_iff compare_tool (files w) first rest i f) in Hd
        as (n & Hn & _); [congruence|done|done].
  - rewrite Hout.
    + apply Hin, list_elem_of_here.
    + by apply NoDup_cons in Hnd as [? _].
Qed.

Lemma eliminate_duplicate_frames_rolling_baseline_witness :
  ∃ w' t,
    eliminate_duplicate_frames pixel_diff "/v" (World shots []) = (Ok tt, w') ∧
    trace w' = [] ++ EGlob ("/v/ms_000000.png" ::
                  ["/v/ms_000100.png"; "/v/ms_000200.png"; "/v/ms_000300.png"]) :: t ∧
    comparisons t =
      [("/v/ms_000000.png", "/v/ms_000100.png");
       ("/v/ms_000000.png", "/v/ms_000200.png");
       ("/v/ms_000200.png", "/v/ms_000300.png")].
Proof.
  destruct (eliminate_duplicate_frames_rolling_baseline pixel_diff "/v"
              (World shots []) "/v/ms_000000.png"
              ["/v/ms_000100.png"; "/v/ms_000200.png"; "/v/ms_000300.png"])
    as (w' & t & H1 & H2 & H3 & _).
  - vm_compute. reflexivity.
  - discriminate.
  - exists w', t. split; [exact H1|]. split; [exact H2|]. rewrite H3.
    vm_compute. reflexivity.
Defined.

(** ** The dimension normalizer *)

Section Normalizer.

Variable resize_tool : image → Z → Z → option image.
Variable video_path : string.

Lemma resize_initial_frame_short w :
  (length (sorted_frames video_path (files w)) < 2)%nat →
  resize_initial_frame resize_tool video_path w =
    (Ok tt, World (files w)
              (trace w ++ [EGlob (sorted_frames video_path (files w))])).
Proof.
  intros Hlen. unfold resize_initial_frame. rewrite bind_run.
  unfold glob_frames. cbv beta iota zeta.
  rewrite decide_False by lia. done.
Qed.

Lemma resize_initial_frame_long first second rest img1 w :
  sorted_frames video_path (files w) = first :: second :: rest →
  files w !! second = Some img1 → decodable img1 = true →
  resize_initial_frame resize_tool video_path w =
    (Ok tt,
     World (match files w !! first with
            | Some img0 =>
                match resize_tool img0 (im_width img1) (im_height img1) with
                | Some img0' => <[first := img0']> (files w)
                | None => files w
                end
            | None => files w
            end)
           (trace w ++ [EGlob (first :: second :: rest);
                        EResize first (im_width img1) (im_height img1)])).
Proof.
  intros Hscan Himg Hdec. unfold resize_initial_frame. rewrite bind_run.
  unfold glob_frames. rewrite Hscan. cbv beta iota zeta.
  rewrite decide_True by (simpl length; lia).
  rewrite bind_run. unfold image_size. cbn [files]. rewrite Himg, Hdec.
  unfold run_resize. cbn [files trace fst snd]. by rewrite <- app_assoc.
Qed.

(** A second frame that is no image: [Image.open] raises after the scan,
    before anything is resized. *)
Lemma resize_initial_frame_undecodable first second rest img1 w :
  sorted_frames video_path (files w) = first :: second :: rest →
  files w !! second = Some img1 → decodable img1 = false →
  resize_initial_frame resize_tool video_path w =
    (Raise IOError,
     World (files w) (trace w ++ [EGlob (first :: second :: rest)])).
Proof.
  intros Hscan Himg Hdec. unfold resize_initial_frame. rewrite bind_run.
  unfold glob_frames. rewrite Hscan. cbv beta iota zeta.
  rewrite decide_True by (simpl length; lia).
  rewrite bind_run. unfold image_size. cbn [files]. by rewrite Himg, Hdec.
Qed.

End Normalizer.

(** C7, as amended. Let the resize utility meet its contract: an image it
    returns has the dimensions asked for. When the sorted scan has at
    least two frames and the second is an image, the normalizer asks for
    one resize, of the first frame in place, to the pixel dimensions of the
    second; when that resize succeeds, the first frame is left with the
    dimensions of the second, which is not touched; when it fails, no file
    changes and nothing is raised. When the second frame is a file that is
    no image, so that it has no pixel dimensions, opening it raises
    [IOError] and no file changes. When the scan has fewer than two frames
    the normalizer only scans and changes no file. *)
Theorem resize_initial_frame_dimensions
    (resize_tool : image → Z → Z → option image) (video_path : string) (w : world) :
  (∀ img width height img',
     resize_tool img width height = Some img' →
     im_width img' = width ∧ im_height img' = height) →
  (∀ first second rest img0 img1,
     sorted_frames video_path (files w) = first :: second :: rest →
     files w !! first = Some img0 → files w !! second = Some img1 →
     decodable img1 = true →
     ∃ w',
       resize_initial_frame resize_tool video_path w = (Ok tt, w') ∧
       trace w' = trace w ++ [EGlob (first :: second :: rest);
                              EResize first (im_width img1) (im_height img1)] ∧
       (is_Some (resize_tool img0 (im_width img1) (im_height img1)) →
        ∃ img0',
          files w' !! first = Some img0' ∧ files w' !! second = Some img1 ∧
          im_width img0' = im_width img1 ∧ im_height img0' = im_height img1) ∧
       (resize_tool img0 (im_width img1) (im_height img1) = None →
        files w' = files w)) ∧
  (∀ first second rest img1,
     sorted_frames video_path (files w) = first :: second :: rest →
     files w !! second = Some img1 → decodable img1 = false →
     resize_initial_frame resize_tool video_path w =
       (Raise IOError,
        World (files w) (trace w ++ [EGlob (first :: second :: rest)]))) ∧
  ((length (sorted_frames video_path (files w)) < 2)%nat →
     resize_initial_frame resize_tool video_path w =
       (Ok tt, World (files w)
                 (trace w ++ [EGlob (sorted_frames video_path (files w))]))).
Proof.
  intros Hcontract.
  split; [|split; [intros first second rest img1;
                   apply resize_initial_frame_undecodable
                  |apply resize_initial_frame_short]].
  intros first second rest img0 img1 Hscan H0 H1 Hdec.
  pose proof (NoDup_sorted_frames video_path (files w)) as Hnd.
  rewrite Hscan in Hnd. apply NoDup_cons in Hnd as [Hne _].
  apply not_elem_of_cons in Hne as [Hne _].
  eexists. split.
  { by apply (resize_initial_frame_long _ _ first second rest img1). }
  cbn [files trace]. rewrite H0. split; [done|]. split.
  - intros [img0' Hres]. exists img0'. rewrite Hres.
    rewrite lookup_insert_eq, lookup_insert_ne by done.
    destruct (Hcontract _ _ _ _ Hres) as [Hw Hh]. done.
  - intros Hres. by rewrite Hres.
Qed.

Lemma resize_initial_frame_dimensions_witness :
  ∃ w' img0',
    resize_initial_frame exact_resize "/v" (World shots []) = (Ok tt, w') ∧
    files w' !! "/v/ms_000000.png" = Some img0' ∧
    files w' !! "/v/ms_000100.png" = Some (Image 4 3 [1; 1]) ∧
    im_width img0' = 4 ∧ im_height img0' = 3.
Proof.
  assert (Hcontract : ∀ img width height img',
            exact_resize img width height = Some img' →
            im_width img' = width ∧ im_height img' = height).
  { intros img width height img' [= <-]. split; reflexivity. }
  destruct (resize_initial_frame_dimensions exact_resize "/v" (World shots [])
              Hcontract) as [H _].
  destruct (H "/v/ms_000000.png" "/v/ms_000100.png"
              ["/v/ms_000200.png"; "/v/ms_000300.png"]
              (Image 8 6 [1; 1]) (Image 4 3 [1; 1]))
    as (w' & Hrun & _ & Hok & _).
  - vm_compute. reflexivity.
  - vm_compute. reflexivity.
  - vm_compute. reflexivity.
  - vm_compute. reflexivity.
  - destruct Hok as (img0' & ? & ? & ? & ?); [eexists; reflexivity|].
    exists w', img0'. repeat split; assumption.
Defined.

(** C7 as stated fails: in [shots] the first frame is 8 by 6 and the second
    4 by 3; when the resize fails, the normalizer returns normally (the
    exit status of the resize is not looked at) and the first frame is
    still 8 by 6. *)
Lemma resize_initial_frame_dimensions_counterexample :
  sorted_frames "/v" shots =
    ["/v/ms_000000.png"; "/v/ms_000100.png"; "/v/ms_000200.png";
     "/v/ms_000300.png"] ∧
  ∃ w', resize_initial_frame failing_resize "/v" (World shots []) = (Ok tt, w') ∧
        (im_width <$> files w' !! "/v/ms_000000.png") ≠
        (im_width <$> files w' !! "/v/ms_000100.png").
Proof.
  split; [by vm_compute|]. eexists. split; [by vm_compute|].
  vm_compute. discriminate.
Qed.

(** ** Order of events *)

Lemma only_excludes ks k t :
  only ks t → k ∉ ks → Forall (λ e, kind_of e ≠ k) t.
Proof.
  intros Ho Hk. eapply Forall_impl; [exact Ho|]. simpl. intros e He Hke.
  by rewrite Hke in He.
Qed.

Lemma all_before_none_l k1 k2 t :
  Forall (λ e, kind_of e ≠ k1) t → all_before k1 k2 t.
Proof.
  intros Hn i j a b Ha _ Hka _. rewrite Forall_forall in Hn.
  exfalso. eapply Hn; [|exact Hka]. by eapply list_elem_of_lookup_2.
Qed.

Lemma all_before_none_r k1 k2 t :
  Forall (λ e, kind_of e ≠ k2) t → all_before k1 k2 t.
Proof.
  intros Hn i j a b _ Hb _ Hkb. rewrite Forall_forall in Hn.
  exfalso. eapply Hn; [|exact Hkb]. by eapply list_elem_of_lookup_2.
Qed.

Lemma all_before_app k1 k2 l1 l2 :
  all_before k1 k2 l1 → all_before k1 k2 l2 →
  Forall (λ e, kind_of e ≠ k2) l1 ∨ Forall (λ e, kind_of e ≠ k1) l2 →
  all_before k1 k2 (l1 ++ l2).
Proof.
  intros H1 H2 Hx i j a b Ha Hb Hka Hkb.
  apply lookup_app_Some in Ha as [Ha|[Hi Ha]];
    apply lookup_app_Some in Hb as [Hb|[Hj Hb]].
  - by eapply H1.
  - apply lookup_lt_Some in Ha. lia.
  - exfalso. rewrite !Forall_forall in Hx. destruct Hx as [Hx|Hx].
    + eapply Hx; [|exact Hkb]. by eapply list_elem_of_lookup_2.
    + eapply Hx; [|exact Hka]. by eapply list_elem_of_lookup_2.
  - assert ((i - length l1) < (j - length l1))%nat by (by eapply H2). lia.
Qed.

(** A trace cut into segments of known kinds. *)
Lemma all_before_segments k1 k2 kss ls :
  Forall2 only kss ls → segments_before k1 k2 kss = true →
  all_before k1 k2 (concat ls).
Proof.
  induction 1 as [|ks l kss ls Hl Hrest IH]; intros Hseg.
  - intros i j a b Ha. done.
  - cbn [segments_before] in Hseg. apply andb_true_iff in Hseg as [Hhere Hseg].
    cbn [concat]. destruct (decide (k2 ∈ ks)) as [Hin|Hout].
    + rewrite bool_decide_eq_true_2 in Hhere by done.
      cbn [forallb] in Hhere. apply andb_true_iff in Hhere as [Hk1 Hall].
      apply bool_decide_eq_true in Hk1.
      apply all_before_none_l. apply Forall_app. split.
      * by eapply only_excludes.
      * clear -Hrest Hall. induction Hrest as [|ks' l' kss' ls' Hl' _ IH'];
          [constructor|].
        cbn [forallb] in Hall. apply andb_true_iff in Hall as [Hk Hall].
        apply bool_decide_eq_true in Hk. cbn [concat]. apply Forall_app.
        split; [by eapply only_excludes|by apply IH'].
    + apply all_before_app.
      * apply all_before_none_r. by eapply only_excludes.
      * by apply IH.
      * left. by eapply only_excludes.
Qed.

Lemma all_before_snoc k1 k2 t e :
  all_before k1 k2 t →
  kind_of e ≠ k1 ∨ Forall (λ e', kind_of e' ≠ k2) (t ++ [e]) →
  all_before k1 k2 (t ++ [e]).
Proof.
  intros Ht He. destruct He as [He|He]; [|by apply all_before_none_r].
  apply all_before_app; [done| |].
  - apply all_before_none_l. by constructor.
  - right. by constructor.
Qed.

(** ** The stages of [process] *)

Lemma remove_all_ok ps w :
  NoDup ps → (∀ f, f ∈ ps → is_Some (files w !! f)) →
  remove_all ps w =
    (Ok tt, World (remove_paths ps (files w)) (trace w ++ (ERemove <$> ps))).
Proof.
  revert w. induction ps as [|p ps IH]; intros w Hnd Hin.
  - simpl. unfold ret. by rewrite app_nil_r, world_eta.
  - apply NoDup_cons in Hnd as [Hp Hnd]. cbn [remove_all]. rewrite bind_run.
    destruct (Hin p) as [img Himg]; [apply list_elem_of_here|].
    rewrite (os_remove_present p img) by exact Himg.
    rewrite IH; [|done|].
    + cbn [files trace]. rewrite remove_paths_cons, fmap_cons.
      by rewrite <- app_assoc.
    + intros f Hf. cbn [files]. rewrite lookup_delete_ne by (intros ->; done).
      apply Hin. by apply list_elem_of_further.
Qed.

Lemma delete_pngs_run video_path w :
  delete_pngs video_path w =
    (Ok tt,
     World (remove_paths (sorted_frames video_path (files w)) (files w))
           (trace w ++ EGlob (sorted_frames video_path (files w)) ::
              (ERemove <$> sorted_frames video_path (files w)))).
Proof.
  unfold delete_pngs. rewrite bind_run. unfold glob_frames. cbv beta iota zeta.
  rewrite remove_all_ok.
  - cbn [files trace]. by rewrite <- app_assoc.
  - apply NoDup_sorted_frames.
  - apply sorted_frames_present.
Qed.

Lemma dedup_events_only compare_tool fs baseline rest :
  only [KGlob; KCompare; KRemove] (dedup_events compare_tool fs baseline rest).
Proof.
  revert baseline. induction rest as [|f rest IH]; intros baseline; [constructor|].
  cbn [dedup_events]. constructor; [kind_in|].
  destruct (differing_pixels _ _ _ _) as [n|]; [|apply IH].
  case_bool_decide; [|apply IH]. constructor; [kind_in|apply IH].
Qed.

Section Stages.

Variable compare_tool : option Z → option image → option image → string.
Variable resize_tool : image → Z → Z → option image.
Variable video_path : string.

(** The normalizer returns normally exactly when the second frame, if
    there is one, can be opened. *)
Lemma resize_initial_frame_run w :
  ∃ fs' t1,
    resize_initial_frame resize_tool video_path w =
      (if second_frame_opens video_path (files w) then Ok tt else Raise IOError,
       World fs' (trace w ++ t1)) ∧
    only [KGlob; KResize] t1 ∧
    (second_frame_opens video_path (files w) = false →
     fs' = files w ∧ t1 = [EGlob (sorted_frames video_path (files w))]).
Proof.
  unfold second_frame_opens.
  destruct (sorted_frames video_path (files w)) as [|first [|second rest]] eqn:Hscan.
  - eexists _, _. split; [|split; [|done]].
    + apply resize_initial_frame_short. rewrite Hscan. simpl. lia.
    + constructor; [kind_in|constructor].
  - eexists _, _. split; [|split; [|done]].
    + apply resize_initial_frame_short. rewrite Hscan. simpl. lia.
    + constructor; [kind_in|constructor].
  - destruct (sorted_frames_present video_path (files w) second) as [img1 Himg1].
    { rewrite Hscan. apply list_elem_of_further, list_elem_of_here. }
    rewrite Himg1. simpl. destruct (decodable img1) eqn:Hdec.
    + eexists _, _. split; [|split; [|done]].
      * by apply (resize_initial_frame_long _ _ first second rest img1).
      * constructor; [kind_in|]. constructor; [kind_in|constructor].
    + eexists _, _. split; [|split; [|done]].
      * by apply (resize_initial_frame_undecodable _ _ first second rest img1).
      * constructor; [kind_in|constructor].
Qed.

Lemma cap_frame_count_run maxframes w :
  ∃ fs' t2,
    cap_frame_count video_path maxframes w = (Ok tt, World fs' (trace w ++ t2)) ∧
    only [KGlob; KSample; KRemove] t2.
Proof.
  rewrite cap_frame_count_capper_run.
  destruct (capper_run_trace video_path maxframes 3 NeedsPass1 w)
    as (t & Ht & _ & _ & Honly); [simpl; lia|].
  eexists _, t. by split.
Qed.

Lemma eliminate_duplicate_frames_run_any w :
  ∃ fs' t3,
    eliminate_duplicate_frames compare_tool video_path w =
      (Ok tt, World fs' (trace w ++ t3)) ∧
    only [KGlob; KCompare; KRemove] t3.
Proof.
  destruct (sorted_frames video_path (files w)) as [|first rest] eqn:Hscan.
  - exists (files w), [EGlob []]. split.
    + unfold eliminate_duplicate_frames. rewrite bind_run. unfold glob_frames.
      rewrite Hscan. cbv beta iota zeta. rewrite decide_False by (simpl; lia).
      done.
    + constructor; [kind_in|constructor].
  - eexists _, _. split.
    + by apply eliminate_duplicate_frames_run.
    + constructor; [kind_in|apply dedup_events_only].
Qed.

(** Lines 26-49 raise nothing but the [IOError] of a second frame that
    cannot be opened, and then nothing has been changed; their trace is
    that of the normalizer, then that of the capper, then that of the
    duplicate eliminator. *)
Lemma process_frames_run w :
  ∃ fs' pre,
    process_frames compare_tool resize_tool video_path w =
      (if second_frame_opens video_path (files w) then Ok tt else Raise IOError,
       World fs' (trace w ++ pre)) ∧
    prepared pre ∧
    (second_frame_opens video_path (files w) = false →
     fs' = files w ∧ pre = [EGlob (sorted_frames video_path (files w))]).
Proof.
  unfold process_frames. rewrite bind_run.
  destruct (resize_initial_frame_run w) as (fs1 & t1 & -> & H1 & Hraise).
  destruct (second_frame_opens video_path (files w)).
  - rewrite bind_run.
    destruct (cap_frame_count_run 50 (World fs1 (trace w ++ t1)))
      as (fs2 & t2 & -> & H2).
    destruct (eliminate_duplicate_frames_run_any
                (World fs2 (trace (World fs1 (trace w ++ t1)) ++ t2)))
      as (fs3 & t3 & -> & H3).
    cbn [files trace]. exists fs3, (t1 ++ t2 ++ t3). split; [|split; [|done]].
    + by rewrite <- !app_assoc.
    + by exists t1, t2, t3.
  - exists fs1, t1. split; [done|]. split; [|done].
    exists t1, [], []. rewrite !app_nil_r. repeat split; [done|constructor..].
Qed.

End Stages.

(** ** The two threads *)

Lemma kind_thread_exit e : kind_of e = KThreadExit → e = EThreadExit.
Proof. by destruct e. Qed.

Lemma no_exit_kind c :
  EThreadExit ∉ c → Forall (λ e, kind_of e ≠ KThreadExit) c.
Proof.
  intros Hc. apply Forall_forall. intros e He Hk.
  apply kind_thread_exit in Hk as ->. done.
Qed.

Lemma worker_ok_snoc wk0 c e :
  e ≠ EThreadExit → worker_ok wk0 c → worker_ok wk0 (c ++ [e]).
Proof.
  intros He. destruct wk0; simpl; [done| | |].
  - intros Hc [?|?%list_elem_of_singleton]%elem_of_app; done.
  - intros Hc [?|?%list_elem_of_singleton]%elem_of_app; done.
  - intros Hc. apply elem_of_app. by left.
Qed.

Lemma only_snoc ks t e : only ks t → kind_of e ∈ ks → only ks (t ++ [e]).
Proof. intros Ht He. apply Forall_app. split; [done|by constructor]. Qed.

Section Machine.

Variable compare_tool : option Z → option image → option image → string.
Variable resize_tool : image → Z → Z → option image.
Variable jpeg_tool : image → Z → Z → option image.
Variable video_path : string.
Variable iq : Z.

Local Abbreviation step_of :=
  (step compare_tool resize_tool jpeg_tool video_path iq).
Local Abbreviation run_of :=
  (run compare_tool resize_tool jpeg_tool video_path iq).

Lemma main_step_inv m m' :
  machine_inv m → main_step compare_tool resize_tool video_path m = Some m' →
  machine_inv m'.
Proof.
  destruct m as [p k w]. intros (pre & c & cl & Hpre & Hc & Hcl & Hjx & Hpc) Hstep.
  unfold main_step in Hstep. cbn [pc wk wd] in *.
  destruct p.
  - (* MStart *)
    destruct Hpc as [Htr ->].
    destruct (process_frames_run compare_tool resize_tool video_path w)
      as (fs' & pre' & Hrun & Hpre' & _).
    rewrite Hrun in Hstep.
    destruct (second_frame_opens video_path (files w)); injection Hstep as <-.
    + exists pre', [], []. split; [done|]. split; [constructor|].
      split; [constructor|]. split; [by intros i j a b Ha|].
      cbn [pc wk wd emit snd files trace]. rewrite Htr.
      split; [by rewrite <- app_assoc|]. simpl. apply not_elem_of_nil.
    + exists pre', [], []. split; [done|]. split; [constructor|].
      split; [constructor|]. split; [by intros i j a b Ha|].
      cbn [pc wk wd files trace]. by rewrite Htr.
  - (* MMetrics *)
    injection Hstep as <-. destruct Hpc as [Htr Hwk].
    exists pre, (c ++ [EMetricsCall]), cl. split; [done|].
    split; [apply only_snoc; [done|kind_in]|]. split; [done|].
    split; [apply all_before_snoc; [done|by left]|].
    cbn [pc wk wd emit snd files trace]. rewrite Htr.
    split; [by rewrite <- app_assoc|]. by apply worker_ok_snoc.
  - (* MMetricsWait *)
    injection Hstep as <-. destruct Hpc as [Htr Hwk].
    exists pre, (c ++ [EMetricsReturn]), cl. split; [done|].
    split; [apply only_snoc; [done|kind_in]|]. split; [done|].
    split; [apply all_before_snoc; [done|by left]|].
    cbn [pc wk wd emit snd files trace]. rewrite Htr.
    split; [by rewrite <- app_assoc|]. split; [by apply worker_ok_snoc|].
    apply elem_of_app. right. apply list_elem_of_here.
  - (* MJoin *)
    destruct Hpc as (Htr & Hwk & Hret).
    destruct k; try discriminate. injection Hstep as <-.
    exists pre, c, []. split; [done|]. split; [done|]. split; [constructor|].
    split; [done|]. cbn [pc wk wd emit snd files trace]. rewrite Htr.
    split; [by rewrite <- app_assoc|]. done.
  - (* MCleanup *)
    destruct Hpc as (Htr & -> & Hexit & Hret).
    rewrite delete_pngs_run in Hstep. injection Hstep as <-.
    exists pre, c, (EGlob (sorted_frames video_path (files w)) ::
                    (ERemove <$> sorted_frames video_path (files w))).
    split; [done|]. split; [done|].
    split; [constructor; [kind_in|apply only_ERemove; kind_in]|].
    split; [done|]. right. cbn [pc wk wd files trace]. rewrite Htr.
    split; [|done]. rewrite <- !app_assoc. f_equal. simpl. f_equal.
    by rewrite <- !app_assoc.
  - discriminate.
  - discriminate.
Qed.

Lemma worker_step_inv m m' :
  machine_inv m → worker_step jpeg_tool video_path iq m = Some m' →
  machine_inv m'.
Proof.
  destruct m as [p k w]. intros (pre & c & cl & Hpre & Hc & Hcl & Hjx & Hpc) Hstep.
  unfold worker_step in Hstep. cbn [pc wk wd] in *.
  assert (Hrun : ∀ e k', kind_of e ∈ [KGlob; KJpeg; KThreadExit; KMetricsCall; KMetricsReturn] →
            all_before KJpeg KThreadExit (c ++ [e]) →
            (EThreadExit ∉ c → worker_ok k' (c ++ [e])) →
            worker_ok k c → EThreadExit ∉ c →
            machine_inv (Machine p k' (World (files w) (trace w ++ [e])))).
  { intros e k' Hk Hab Hok' Hok Hno.
    assert (Hin : ∀ x, x ∈ c → x ∈ c ++ [e]) by (intros x ?; apply elem_of_app; by left).
    destruct p; cbn [pc] in Hpc.
    - destruct Hpc as [_ ->]. done.
    - destruct Hpc as [Htr _]. exists pre, (c ++ [e]), cl.
      repeat (split; [done || by apply only_snoc|]).
      cbn [pc wk wd files trace]. rewrite Htr.
      split; [by rewrite <- app_assoc|by apply Hok'].
    - destruct Hpc as [Htr _]. exists pre, (c ++ [e]), cl.
      repeat (split; [done || by apply only_snoc|]).
      cbn [pc wk wd files trace]. rewrite Htr.
      split; [by rewrite <- app_assoc|by apply Hok'].
    - destruct Hpc as (Htr & _ & Hret). exists pre, (c ++ [e]), cl.
      repeat (split; [done || by apply only_snoc|]).
      cbn [pc wk wd files trace]. rewrite Htr.
      split; [by rewrite <- app_assoc|]. split; [by apply Hok'|by apply Hin].
    - destruct Hpc as (_ & _ & Hexit & _). done.
    - destruct Hpc as [[_ ->]|(_ & _ & Hexit & _)]; done.
    - destruct Hpc as [_ ->]. done. }
  assert (Hstate : k ≠ WNotStarted → k ≠ WExited → worker_ok k c).
  { intros Hk1 Hk2. destruct p; cbn [pc] in Hpc.
    - by destruct Hpc as [_ ?].
    - by destruct Hpc.
    - by destruct Hpc.
    - by destruct Hpc as (_ & ? & _).
    - by destruct Hpc as (_ & ? & _).
    - destruct Hpc as [[_ ?]|(_ & ? & _)]; done.
    - by destruct Hpc as [_ ?]. }
  destruct k as [| |todo|]; [done| | |done];
    (assert (Hok : EThreadExit ∉ c) by (by apply Hstate)).
  - (* WScan *)
    unfold glob_frames in Hstep. injection Hstep as <-.
    apply (Hrun (EGlob (sorted_frames video_path (files w)))); [kind_in| | |done|done].
    + apply all_before_snoc; [done|by left].
    + intros Hno. by apply (worker_ok_snoc WScan).
  - destruct todo as [|src rest]; injection Hstep as <-.
    + (* the loop is over *)
      apply (Hrun EThreadExit); [kind_in| | |done|done].
      * apply all_before_snoc; [done|by left].
      * intros _. simpl. apply elem_of_app. right. apply list_elem_of_here.
    + (* one conversion *)
      unfold convert_one. cbn [snd].
      match goal with |- machine_inv (Machine _ _ (World ?fs _)) =>
        assert (Hfs : machine_inv (Machine p (WConvert rest)
                         (World (files w) (trace w ++ [EJpeg src (jpg_path src)]))))
      end.
      { apply Hrun; [kind_in| | |done|done].
        - apply all_before_snoc; [done|]. right. apply Forall_app.
          split; [by apply no_exit_kind|]. constructor; [done|constructor].
        - intros Hno. by apply (worker_ok_snoc (WConvert rest)). }
      destruct Hfs as (pre' & c' & cl' & ? & ? & ? & ? & Hpc').
      exists pre', c', cl'. repeat (split; [done|]).
      cbn [pc wk wd files trace] in *. done.
Qed.

Lemma step_inv t m : machine_inv m → machine_inv (step_of t m).
Proof.
  intros Hm. unfold step. destruct t.
  - destruct (main_step _ _ _ m) as [m'|] eqn:Hs; [|done].
    by eapply main_step_inv.
  - destruct (worker_step _ _ _ m) as [m'|] eqn:Hs; [|done].
    by eapply worker_step_inv.
Qed.

Lemma run_inv schedule m : machine_inv m → machine_inv (run_of schedule m).
Proof.
  revert m. induction schedule as [|t schedule IH]; intros m Hm; [done|].
  apply IH. by apply step_inv.
Qed.

Lemma process_start_inv isdir fs : machine_inv (process_start isdir fs).
Proof.
  exists [], [], []. split; [exists [], [], []; repeat split; constructor|].
  split; [constructor|]. split; [constructor|].
  split; [by intros i j a b Ha|].
  destruct isdir; cbn [process_start pc wk wd trace]; [done|by left].
Qed.

End Machine.

(** The trace of a machine that satisfies the invariant, cut into the
    normalizer, the capper, the eliminator, the start of the thread, the
    concurrent part, the join and the cleanup. *)
Lemma machine_inv_shape m :
  machine_inv m →
  ∃ t1 t2 t3 s c j cl,
    trace (wd m) = concat [t1; t2; t3; s; c; j; cl] ∧
    Forall2 only
      [[KGlob; KResize]; [KGlob; KSample; KRemove]; [KGlob; KCompare; KRemove];
       [KThreadStart]; [KGlob; KJpeg; KThreadExit; KMetricsCall; KMetricsReturn];
       [KJoin]; [KGlob; KRemove]]
      [t1; t2; t3; s; c; j; cl] ∧
    all_before KJpeg KThreadExit c ∧
    (j = [] ∧ cl = [] ∨
     j = [EJoin] ∧ EThreadExit ∈ c ∧ EMetricsReturn ∈ c).
Proof.
  intros (pre & c & cl & (t1 & t2 & t3 & -> & H1 & H2 & H3) & Hc & Hcl & Hjx & Hpc).
  assert (Hempty : trace (wd m) = [] →
    ∃ t1 t2 t3 s c j cl,
      trace (wd m) = concat [t1; t2; t3; s; c; j; cl] ∧
      Forall2 only
        [[KGlob; KResize]; [KGlob; KSample; KRemove]; [KGlob; KCompare; KRemove];
         [KThreadStart]; [KGlob; KJpeg; KThreadExit; KMetricsCall; KMetricsReturn];
         [KJoin]; [KGlob; KRemove]]
        [t1; t2; t3; s; c; j; cl] ∧
      all_before KJpeg KThreadExit c ∧
      (j = [] ∧ cl = [] ∨
       j = [EJoin] ∧ EThreadExit ∈ c ∧ EMetricsReturn ∈ c)).
  { intros ->. exists [], [], [], [], [], [], []. split; [done|].
    split; [repeat constructor|]. split; [by intros i j a b Ha|]. by left. }
  assert (Hstart : only [KThreadStart] [EThreadStart]).
  { constructor; [kind_in|constructor]. }
  assert (Hjoin : only [KJoin] [EJoin]).
  { constructor; [kind_in|constructor]. }
  assert (Hnil : ∀ ks, only ks []) by (intros; constructor).
  destruct (pc m).
  - destruct Hpc as [Htr _]. by apply Hempty.
  - destruct Hpc as [Htr _]. exists t1, t2, t3, [EThreadStart], c, [], [].
    split; [rewrite Htr; simpl; by rewrite <- !app_assoc, !app_nil_r|].
    split; [repeat (constructor; [done|]); constructor|]. split; [done|]. by left.
  - destruct Hpc as [Htr _]. exists t1, t2, t3, [EThreadStart], c, [], [].
    split; [rewrite Htr; simpl; by rewrite <- !app_assoc, !app_nil_r|].
    split; [repeat (constructor; [done|]); constructor|]. split; [done|]. by left.
  - destruct Hpc as (Htr & _ & _). exists t1, t2, t3, [EThreadStart], c, [], [].
    split; [rewrite Htr; simpl; by rewrite <- !app_assoc, !app_nil_r|].
    split; [repeat (constructor; [done|]); constructor|]. split; [done|]. by left.
  - destruct Hpc as (Htr & _ & Hexit & Hret).
    exists t1, t2, t3, [EThreadStart], c, [EJoin], [].
    split; [rewrite Htr; simpl; by rewrite <- !app_assoc|].
    split; [repeat (constructor; [done|]); constructor|]. split; [done|]. by right.
  - destruct Hpc as [[Htr _]|(Htr & _ & Hexit & Hret)]; [by apply Hempty|].
    exists t1, t2, t3, [EThreadStart], c, [EJoin], cl.
    split; [rewrite Htr; simpl; by rewrite <- !app_assoc, !app_nil_r|].
    split; [repeat (constructor; [done|]); constructor|]. split; [done|]. by right.
  - destruct Hpc as [Htr _]. exists t1, t2, t3, [], [], [], [].
    split; [rewrite Htr; simpl; by rewrite !app_nil_r|].
    split; [repeat (constructor; [done|]); constructor|].
    split; [by intros i j a b Ha|]. by left.
Qed.

(** In a trace of that shape, a removal that follows the start of the
    thread follows the join, which follows the exit of the thread and the
    return of the metrics call. *)
Lemma shaped_removal_after_join t1 t2 t3 s c j cl :
  Forall2 only
    [[KGlob; KResize]; [KGlob; KSample; KRemove]; [KGlob; KCompare; KRemove];
     [KThreadStart]; [KGlob; KJpeg; KThreadExit; KMetricsCall; KMetricsReturn];
     [KJoin]; [KGlob; KRemove]]
    [t1; t2; t3; s; c; j; cl] →
  (j = [] ∧ cl = [] ∨ j = [EJoin] ∧ EThreadExit ∈ c ∧ EMetricsReturn ∈ c) →
  ∀ i r p,
    concat [t1; t2; t3; s; c; j; cl] !! i = Some EThreadStart →
    concat [t1; t2; t3; s; c; j; cl] !! r = Some (ERemove p) →
    (i < r)%nat →
    ∃ x y z,
      concat [t1; t2; t3; s; c; j; cl] !! x = Some EThreadExit ∧
      concat [t1; t2; t3; s; c; j; cl] !! y = Some EMetricsReturn ∧
      concat [t1; t2; t3; s; c; j; cl] !! z = Some EJoin ∧
      (x < z)%nat ∧ (y < z)%nat ∧ (z < r)%nat.
Proof.
  intros HF Hj i r p Hi Hr Hir.
  apply Forall2_cons in HF as [H1 HF]. apply Forall2_cons in HF as [H2 HF].
  apply Forall2_cons in HF as [H3 HF]. apply Forall2_cons in HF as [Hs HF].
  apply Forall2_cons in HF as [Hc HF]. apply Forall2_cons in HF as [Hjn HF].
  apply Forall2_cons in HF as [Hcl _].
  assert (HA : only [KGlob; KResize; KSample; KRemove; KCompare] (t1 ++ t2 ++ t3)).
  { unfold only in *. repeat apply Forall_app_2;
      (eapply Forall_impl; [eassumption|]); simpl; intros e He;
      repeat (apply elem_of_cons in He as [->|He]; [kind_in|]);
      by apply elem_of_nil in He. }
  assert (Hkind : ∀ ks (l : list event) n e k,
            only ks l → l !! n = Some e → kind_of e = k → k ∈ ks).
  { intros ks l n e k Hl Hn <-. unfold only in Hl. rewrite Forall_forall in Hl.
    apply Hl. by eapply list_elem_of_lookup_2. }
  assert (Hcat : concat [t1; t2; t3; s; c; j; cl] =
                 (t1 ++ t2 ++ t3) ++ s ++ c ++ j ++ cl).
  { simpl. by rewrite <- !app_assoc, app_nil_r. }
  rewrite Hcat in *. set (A := t1 ++ t2 ++ t3) in *.
  assert (Hno : ∀ (k : event_kind) (ks : list event_kind),
            k ∈ ks → bool_decide (k ∈ ks) = false → False).
  { intros k ks Hin Hb. by apply bool_decide_eq_false in Hb. }
  apply lookup_app_Some in Hr as [Hr|[HrA Hr]].
  { apply lookup_lt_Some in Hr as Hlt.
    rewrite lookup_app_l in Hi by lia.
    exfalso. by apply (Hno _ _ (Hkind _ _ _ _ KThreadStart HA Hi eq_refl)). }
  apply lookup_app_Some in Hr as [Hr|[Hrs Hr]].
  { exfalso. by apply (Hno _ _ (Hkind _ _ _ _ KRemove Hs Hr eq_refl)). }
  apply lookup_app_Some in Hr as [Hr|[Hrc Hr]].
  { exfalso. by apply (Hno _ _ (Hkind _ _ _ _ KRemove Hc Hr eq_refl)). }
  apply lookup_app_Some in Hr as [Hr|[Hrj Hr]].
  { exfalso. by apply (Hno _ _ (Hkind _ _ _ _ KRemove Hjn Hr eq_refl)). }
  destruct Hj as [[_ ->]|(-> & Hexit & Hret)]; [done|].
  apply list_elem_of_lookup in Hexit as [kx Hkx].
  apply list_elem_of_lookup in Hret as [ky Hky].
  apply lookup_lt_Some in Hkx as Hkxlt. apply lookup_lt_Some in Hky as Hkylt.
  simpl length in *.
  exists (length A + (length s + kx))%nat, (length A + (length s + ky))%nat,
         (length A + (length s + length c))%nat.
  repeat split; try lia.
  - rewrite lookup_app_r by lia. rewrite lookup_app_r by lia.
    rewrite lookup_app_l by lia. rewrite <- Hkx. f_equal. lia.
  - rewrite lookup_app_r by lia. rewrite lookup_app_r by lia.
    rewrite lookup_app_l by lia. rewrite <- Hky. f_equal. lia.
  - rewrite lookup_app_r by lia. rewrite lookup_app_r by lia.
    rewrite lookup_app_r by lia.
    replace (length A + (length s + length c) - length A - length s - length c)%nat
      with 0%nat by lia. done.
Qed.

Lemma shaped_jpeg_before_exit t1 t2 t3 s c j cl :
  Forall2 only
    [[KGlob; KResize]; [KGlob; KSample; KRemove]; [KGlob; KCompare; KRemove];
     [KThreadStart]; [KGlob; KJpeg; KThreadExit; KMetricsCall; KMetricsReturn];
     [KJoin]; [KGlob; KRemove]]
    [t1; t2; t3; s; c; j; cl] →
  all_before KJpeg KThreadExit c →
  all_before KJpeg KThreadExit (concat [t1; t2; t3; s; c; j; cl]).
Proof.
  intros HF Hc0.
  apply Forall2_cons in HF as [H1 HF]. apply Forall2_cons in HF as [H2 HF].
  apply Forall2_cons in HF as [H3 HF]. apply Forall2_cons in HF as [Hs HF].
  apply Forall2_cons in HF as [Hc HF]. apply Forall2_cons in HF as [Hjn HF].
  apply Forall2_cons in HF as [Hcl _].
  assert (Hx : ∀ ks k l, only ks l → bool_decide (k ∈ ks) = false →
                         Forall (λ e, kind_of e ≠ k) l).
  { intros ks k l Hl Hk. eapply only_excludes; [done|].
    by apply bool_decide_eq_false in Hk. }
  cbn [concat]. rewrite app_nil_r.
  apply all_before_app;
    [apply all_before_none_l; by eapply Hx| |left; by eapply Hx].
  apply all_before_app;
    [apply all_before_none_l; by eapply Hx| |left; by eapply Hx].
  apply all_before_app;
    [apply all_before_none_l; by eapply Hx| |left; by eapply Hx].
  apply all_before_app;
    [apply all_before_none_l; by eapply Hx| |left; by eapply Hx].
  apply all_before_app; [done| |].
  - apply all_before_none_l. apply Forall_app. split; by eapply Hx.
  - right. apply Forall_app. split; by eapply Hx.
Qed.

Section Runs.

Variable compare_tool : option Z → option image → option image → string.
Variable resize_tool : image → Z → Z → option image.
Variable jpeg_tool : image → Z → Z → option image.
Variable video_path : string.
Variable iq : Z.

Local Abbreviation process_of :=
  (process compare_tool resize_tool jpeg_tool video_path iq).
Local Abbreviation run_of :=
  (run compare_tool resize_tool jpeg_tool video_path iq).

Lemma run_app s1 s2 m : run_of (s1 ++ s2) m = run_of s2 (run_of s1 m).
Proof. apply foldl_app. Qed.

Lemma run_conversions p todo w :
  ∃ w', run_of (replicate (length todo) Worker) (Machine p (WConvert todo) w) =
        Machine p (WConvert []) w'.
Proof.
  revert w. induction todo as [|src rest IH]; intros w; [by exists w|].
  simpl. apply IH.
Qed.

(** When the second frame can be opened, some schedule takes [process] to
    its end. *)
Lemma process_completes fs :
  second_frame_opens video_path fs = true →
  ∃ schedule, pc (process_of true fs schedule) = MDone.
Proof.
  intros Hopens.
  destruct (process_frames_run compare_tool resize_tool video_path (World fs []))
    as (fs1 & pre & Hrun & _).
  cbn [files] in Hrun. rewrite Hopens in Hrun.
  set (w1 := World fs1 (([] ++ pre) ++ [EThreadStart])).
  set (found := sorted_frames video_path (files w1)).
  destruct (run_conversions MMetrics found
              (World (files w1) (trace w1 ++ [EGlob found]))) as [w2 Hconv].
  exists ([Main; Worker] ++ replicate (length found) Worker ++
          [Worker; Main; Main; Main; Main]).
  unfold process. rewrite run_app.
  assert (H0 : run_of [Main; Worker] (process_start true fs) =
               Machine MMetrics (WConvert found)
                 (World (files w1) (trace w1 ++ [EGlob found]))).
  { cbn [run foldl]. unfold step at 2. unfold main_step.
    cbn [process_start pc wk wd]. rewrite Hrun. reflexivity. }
  rewrite H0, run_app, Hconv.
  cbn [run foldl]. unfold step, main_step, worker_step. cbn [pc wk wd default].
  simpl. rewrite delete_pngs_run. reflexivity.
Qed.

End Runs.

(** * Further properties *)

(** ** Digit strings *)

Lemma span_digits_spec s :
  s = (span_digits s).1 +:+ (span_digits s).2 ∧
  all_digits (span_digits s).1 = true ∧ no_digit_ahead (span_digits s).2.
Proof.
  induction s as [|c s IH]; simpl; [done|].
  destruct (is_digit c) eqn:Hc.
  - destruct (span_digits s) as [ds r]; simpl in *.
    destruct IH as (-> & Hds & Hr). by rewrite Hc, Hds.
  - simpl. by rewrite Hc.
Qed.

Lemma span_digits_app ds r :
  all_digits ds = true → no_digit_ahead r → span_digits (ds +:+ r) = (ds, r).
Proof.
  intros Hds Hr. induction ds as [|c ds IH]; simpl in *.
  - destruct r as [|c r]; simpl in *; [done|]. by rewrite Hr.
  - apply andb_true_iff in Hds as [-> Hds]. by rewrite IH.
Qed.

Lemma digit_value_range c : is_digit c = true → 0 ≤ digit_value c ≤ 9.
Proof.
  unfold is_digit, digit_value. intros [H1 H2]%andb_true_iff. lia.
Qed.

Lemma int_of_digits_from_app acc ds :
  int_of_digits_from acc ds =
    acc * 10 ^ Z.of_nat (String.length ds) + int_of_digits ds.
Proof.
  unfold int_of_digits. revert acc.
  induction ds as [|c ds IH]; intros acc.
  - simpl. lia.
  - cbn [int_of_digits_from String.length]. rewrite (IH (10 * acc + _)), (IH (10 * 0 + _)).
    rewrite Nat2Z.inj_succ, Z.pow_succ_r by lia. lia.
Qed.

Lemma int_of_digits_range ds :
  all_digits ds = true →
  0 ≤ int_of_digits ds < 10 ^ Z.of_nat (String.length ds).
Proof.
  induction ds as [|c ds IH]; intros Hds.
  - by vm_compute.
  - simpl in Hds. apply andb_true_iff in Hds as [Hc Hds].
    unfold int_of_digits. cbn [int_of_digits_from String.length].
    rewrite int_of_digits_from_app, Nat2Z.inj_succ, Z.pow_succ_r by lia.
    pose proof (digit_value_range c Hc). specialize (IH Hds). nia.
Qed.

(** ** The comparison of two frames *)

Lemma string_app_cons c s t : String c s +:+ t = String c (s +:+ t).
Proof. reflexivity. Qed.

Lemma string_app_nil_r s : s +:+ "" = s.
Proof. induction s as [|c s IH]; [done|]. by rewrite string_app_cons, IH. Qed.

(** X1. What [frames_match] accepts as a count of differing pixels: the
    text is one or more decimal digits, followed by nothing or by one final
    newline, and the count is the number the digits spell. Anything else, a
    sign, a blank or a message of the program, is no count. *)
Theorem parse_count_iff (err : string) (n : Z) :
  parse_count err = Some n ↔
  ∃ ds, ds ≠ "" ∧ all_digits ds = true ∧
        (err = ds ∨ err = ds +:+ String "010" "") ∧ n = int_of_digits ds.
Proof.
  split.
  - unfold parse_count. intros H.
    destruct (span_digits_spec err) as (Herr & Hds & _).
    destruct (span_digits err) as [ds r]; simpl in *.
    destruct ds as [|d ds]; [by destruct r|].
    exists (String d ds). split; [done|]. split; [done|].
    destruct r as [|c r].
    + injection H as <-. split; [|done]. left.
      by rewrite Herr, string_app_nil_r.
    + destruct c as [[] [] [] [] [] [] [] []]; try discriminate H.
      destruct r; [|discriminate H]. injection H as <-. split; [|done]. by right.
  - intros (ds & Hne & Hds & [-> | ->] & ->); unfold parse_count.
    + rewrite <- (string_app_nil_r ds) at 1.
      rewrite span_digits_app by done. by destruct ds.
    + rewrite span_digits_app by done. by destruct ds.
Qed.

Lemma parse_count_nonneg err n : parse_count err = Some n → 0 ≤ n.
Proof.
  unfold parse_count. intros H.
  destruct (span_digits_spec err) as (_ & Hds & _).
  destruct (span_digits err) as [ds r]; simpl in *.
  destruct ds as [|d ds]; [by destruct r|].
  assert (n = int_of_digits (String d ds)) as ->.
  { destruct r as [|c r]; [by injection H|].
    destruct c as [[] [] [] [] [] [] [] []]; try discriminate H.
    destruct r; [by injection H|discriminate H]. }
  by apply int_of_digits_range.
Qed.

Section Comparison.

Variable compare_tool : option Z → option image → option image → string.

(** X2. [frames_match] for any fuzz and any bound: one comparison is run and
    the directory is left as it was; the fuzz option is passed only when the
    percentage is positive; the frames match exactly when the program wrote
    a count of pixels, and nothing else, and that count is within the
    bound. A negative bound matches nothing. *)
Theorem frames_match_any_bound
    (image1 image2 : string) (fuzz_percent max_differences : Z) (w : world) :
  ∃ same : bool,
    frames_match compare_tool image1 image2 fuzz_percent max_differences w =
      (Ok same,
       World (files w)
             (trace w ++ [ECompare (if decide (fuzz_percent > 0)
                                    then Some fuzz_percent else None)
                                   image1 image2])) ∧
    (same = true ↔
       ∃ n, parse_count
              (compare_tool (if decide (fuzz_percent > 0)
                             then Some fuzz_percent else None)
                            (files w !! image1) (files w !! image2)) = Some n ∧
            0 ≤ n ≤ max_differences) ∧
    (max_differences < 0 → same = false).
Proof.
  unfold frames_match, run_compare. rewrite bind_run. cbn [files trace].
  set (err := compare_tool _ _ _).
  eexists. split; [reflexivity|].
  destruct (parse_count err) as [n|] eqn:Hn.
  - pose proof (parse_count_nonneg _ _ Hn). split.
    + rewrite bool_decide_eq_true. split.
      * intros ?. exists n. split; [done|lia].
      * intros (n' & [= <-] & ?). lia.
    + intros ?. apply bool_decide_eq_false. lia.
  - split; [|done]. split; [done|]. by intros (n' & [=] & _).
Qed.

End Comparison.

(** ** The pattern of the scan and the search for a time stamp *)

Lemma string_app_assoc (a b c : string) : (a +:+ b) +:+ c = a +:+ b +:+ c.
Proof. induction a as [|x a IH]; [done|]. by rewrite !string_app_cons, IH. Qed.

Lemma strip_prefix_Some p s r : strip_prefix p s = Some r ↔ s = p +:+ r.
Proof.
  revert s. induction p as [|a p IH]; intros s.
  - simpl. change ("" +:+ r) with r. split; congruence.
  - rewrite string_app_cons. destruct s as [|b s]; simpl; [done|].
    case_decide as Hab.
    + subst b. rewrite IH. split; congruence.
    + split; [done|]. congruence.
Qed.

Lemma has_slash_app a b : has_slash (a +:+ b) = has_slash a || has_slash b.
Proof.
  induction a as [|c a IH]; [done|]. rewrite string_app_cons. simpl.
  by case_decide.
Qed.

Lemma ends_with_png_iff s : ends_with_png s = true ↔ ∃ x, s = x +:+ ".png".
Proof.
  split.
  - induction s as [|c s IH]; simpl; [done|].
    case_decide as Hs.
    + intros _. exists "". by rewrite Hs.
    + intros [x ->]%IH. by exists (String c x).
  - intros [x ->]. induction x as [|c x IH]; [done|].
    rewrite string_app_cons. simpl. by case_decide.
Qed.

Lemma is_frame_path_spec video_path p :
  is_frame_path video_path p = true ↔
  ∃ x, p = video_path +:+ "/ms_" +:+ x +:+ ".png" ∧ has_slash x = false.
Proof.
  unfold is_frame_path, fnmatch_ms_png. split.
  - destruct (strip_prefix _ p) as [name|] eqn:Hp; [|done].
    apply strip_prefix_Some in Hp as ->.
    intros [Hs Hm]%andb_true_iff.
    destruct (strip_prefix "ms_" name) as [rest|] eqn:Hn; [|done].
    apply strip_prefix_Some in Hn as ->.
    apply ends_with_png_iff in Hm as [x ->]. exists x.
    split; [by rewrite string_app_assoc|].
    rewrite !has_slash_app in Hs. simpl in Hs.
    rewrite orb_false_r in Hs. by apply negb_true_iff in Hs.
  - intros (x & -> & Hx).
    assert (strip_prefix (video_path +:+ "/")
              (video_path +:+ "/ms_" +:+ x +:+ ".png") =
            Some ("ms_" +:+ x +:+ ".png")) as ->.
    { apply strip_prefix_Some. by rewrite string_app_assoc. }
    assert (strip_prefix "ms_" ("ms_" +:+ x +:+ ".png") = Some (x +:+ ".png")) as ->.
    { by apply strip_prefix_Some. }
    rewrite !has_slash_app, Hx. simpl.
    apply ends_with_png_iff. by exists x.
Qed.

(** X3. The scan lists exactly the files of the directory that are named
    [ms_<anything>.png], each once, in ascending byte order of their paths. *)
Theorem scan_lists_the_frames (video_path : string) (fs : gmap string image) :
  (∀ p, p ∈ sorted_frames video_path fs ↔
      is_Some (fs !! p) ∧
      ∃ x, p = video_path +:+ "/ms_" +:+ x +:+ ".png" ∧ has_slash x = false) ∧
  NoDup (sorted_frames video_path fs) ∧
  StronglySorted String.le (sorted_frames video_path fs).
Proof.
  split; [|split].
  - intros p. rewrite elem_of_sorted_frames, is_frame_path_spec. tauto.
  - apply NoDup_sorted_frames.
  - apply StronglySorted_sorted_frames.
Qed.

Lemma re_search_ms_cons c s :
  re_search_ms (String c s) =
    match match_ms_here (String c s) with
    | Some t => Some t
    | None => re_search_ms s
    end.
Proof. reflexivity. Qed.

Lemma span_digits_app_slash x rest :
  ∃ ds c tl, span_digits (x +:+ "/") = (ds, String c tl) ∧
             span_digits (x +:+ String "/" rest) = (ds, String c (tl +:+ rest)).
Proof.
  induction x as [|a x IH].
  - by exists "", "/"%char, "".
  - rewrite !string_app_cons. simpl. destruct (is_digit a).
    + destruct IH as (ds & c & tl & -> & ->). by exists (String a ds), c, tl.
    + exists "", a, (x +:+ "/"). split; [done|]. by rewrite string_app_assoc.
Qed.

Lemma match_ms_here_app_slash x rest :
  match_ms_here (x +:+ String "/" rest) = match_ms_here (x +:+ "/").
Proof.
  destruct x as [|a x]; [reflexivity|].
  destruct a as [[] [] [] [] [] [] [] []]; try reflexivity.
  destruct x as [|a x]; [reflexivity|].
  destruct a as [[] [] [] [] [] [] [] []]; try reflexivity.
  destruct x as [|a x]; [reflexivity|].
  destruct a as [[] [] [] [] [] [] [] []]; try reflexivity.
  rewrite !string_app_cons. cbn [match_ms_here].
  destruct (span_digits_app_slash x rest) as (ds & c & tl & -> & ->).
  by destruct ds.
Qed.

Lemma re_search_ms_app_slash body rest :
  re_search_ms (body +:+ String "/" rest) =
    match re_search_ms (body +:+ "/") with
    | Some t => Some t
    | None => re_search_ms rest
    end.
Proof.
  induction body as [|c body IH]; [reflexivity|].
  pose proof (match_ms_here_app_slash (String c body) rest) as Hm.
  rewrite !string_app_cons in *. rewrite !re_search_ms_cons, Hm.
  destruct (match_ms_here (String c (body +:+ "/"))) as [t|]; [reflexivity|]. apply IH.
Qed.

Lemma re_search_ms_head ds rest :
  ds ≠ "" → all_digits ds = true →
  re_search_ms ("ms_" +:+ ds +:+ String "." rest) = Some (int_of_digits ds).
Proof.
  intros Hne Hds. change ("ms_" +:+ ?s) with (String "m" (String "s" (String "_" s))).
  rewrite re_search_ms_cons. cbn [match_ms_here].
  rewrite span_digits_app by done. by destruct ds.
Qed.

(** ** Time stamps of frame paths *)

Lemma re_search_ms_shadow video_path name t0 :
  re_search_ms (video_path +:+ "/") = Some t0 →
  re_search_ms (video_path +:+ "/" +:+ name) = Some t0.
Proof.
  intros H. change ("/" +:+ name) with (String "/" name).
  by rewrite re_search_ms_app_slash, H.
Qed.

(** X4. The time stamp the sampler reads from the path of a frame named
    [ms_<digits>.<ext>] is the number the digits spell, leading zeros
    ignored, unless the directory path itself matches the pattern. *)
Theorem frame_path_time (video_path ds ext : string) :
  ds ≠ "" → all_digits ds = true →
  re_search_ms (video_path +:+ "/ms_" +:+ ds +:+ "." +:+ ext) =
    Some (match re_search_ms (video_path +:+ "/") with
          | Some t0 => t0
          | None => int_of_digits ds
          end).
Proof.
  intros Hne Hds.
  change ("/ms_" +:+ ?s) with (String "/" ("ms_" +:+ s)).
  change ("." +:+ ext) with (String "." ext).
  rewrite re_search_ms_app_slash, re_search_ms_head by done.
  by destruct (re_search_ms _).
Qed.

Lemma frame_path_time_witness :
  re_search_ms "/v/ms_000150.png" = Some 150.
Proof.
  apply (frame_path_time "/v" "000150" "png"); [discriminate|reflexivity].
Defined.

(** X5. The search runs over the whole path: when the directory path
    already matches [ms_<digits>.], every file in it gets the number of the
    directory as its time stamp, whatever its name. *)
Theorem directory_time_shadows_frames (video_path name : string) (t0 : Z) :
  re_search_ms (video_path +:+ "/") = Some t0 →
  re_search_ms (video_path +:+ "/" +:+ name) = Some t0.
Proof.
  apply re_search_ms_shadow.
Qed.

Lemma directory_time_shadows_frames_witness :
  re_search_ms (shadowing_directory +:+ "/" +:+ "ms_000150.png") = Some 12.
Proof.
  apply (directory_time_shadows_frames shadowing_directory "ms_000150.png" 12).
  reflexivity.
Defined.

Lemma padded_name_spec video_path width p :
  padded_name video_path width p = true →
  ∃ ds, p = video_path +:+ "/ms_" +:+ ds +:+ ".png" ∧
        all_digits ds = true ∧ String.length ds = width.
Proof.
  unfold padded_name.
  destruct (strip_prefix _ p) as [r|] eqn:Hp; [|done].
  apply strip_prefix_Some in Hp as ->.
  intros [Hlen Hext]%bool_decide_eq_true.
  destruct (span_digits_spec r) as (Hr & Hds & _).
  exists (span_digits r).1. rewrite Hext in Hr.
  split; [|done]. by rewrite Hr at 1; rewrite string_app_assoc.
Qed.

Lemma string_compare_app p a b :
  String.compare (p +:+ a) (p +:+ b) = String.compare a b.
Proof.
  induction p as [|c p IH]; [done|]. rewrite !string_app_cons. simpl.
  assert (Ascii.compare c c = Eq) as ->; [|done].
  unfold Ascii.compare. by rewrite N.compare_refl.
Qed.

Lemma int_of_digits_cons c ds :
  int_of_digits (String c ds) =
    digit_value c * 10 ^ Z.of_nat (String.length ds) + int_of_digits ds.
Proof.
  unfold int_of_digits at 1. cbn [int_of_digits_from].
  rewrite int_of_digits_from_app. lia.
Qed.

Lemma digits_compare_le ds1 : ∀ ds2 sfx,
  all_digits ds1 = true → all_digits ds2 = true →
  String.length ds1 = String.length ds2 →
  String.compare (ds1 +:+ sfx) (ds2 +:+ sfx) ≠ Gt →
  int_of_digits ds1 ≤ int_of_digits ds2.
Proof.
  induction ds1 as [|c1 r1 IH]; intros [|c2 r2] sfx H1 H2 Hlen Hcmp;
    try discriminate Hlen; [done|].
  simpl in H1, H2, Hlen.
  apply andb_true_iff in H1 as [Hc1 Hr1]. apply andb_true_iff in H2 as [Hc2 Hr2].
  injection Hlen as Hlen. rewrite !string_app_cons in Hcmp. simpl in Hcmp.
  rewrite !int_of_digits_cons, Hlen.
  pose proof (int_of_digits_range r1 Hr1) as Hb1.
  pose proof (int_of_digits_range r2 Hr2) as Hb2. rewrite Hlen in Hb1.
  destruct (Ascii.compare c1 c2) eqn:Hc.
  - apply Ascii.compare_eq_iff in Hc as ->.
    specialize (IH r2 sfx Hr1 Hr2 Hlen Hcmp). lia.
  - assert (digit_value c1 + 1 ≤ digit_value c2); [|nia].
    unfold Ascii.compare in Hc. rewrite N.compare_lt_iff in Hc.
    unfold digit_value, nat_of_ascii. rewrite !N_nat_Z. lia.
  - done.
Qed.

Lemma parsed_times_sorted l :
  StronglySorted String.le l →
  (∀ p q t u, p ∈ l → q ∈ l → String.le p q →
     re_search_ms p = Some t → re_search_ms q = Some u → t ≤ u) →
  StronglySorted Z.le (parsed_times l).
Proof.
  induction 1 as [|x l Hl IH Hx]; intros Hle; [constructor|].
  rewrite parsed_times_cons.
  assert (StronglySorted Z.le (parsed_times l)) as Hs.
  { apply IH. intros p q t u Hp Hq. apply Hle; by apply list_elem_of_further. }
  destruct (re_search_ms x) as [t|] eqn:Hxt; [|done].
  constructor; [done|]. apply Forall_forall. intros u Hu.
  unfold parsed_times in Hu. apply list_elem_of_omap in Hu as (q & Hq & Hqu).
  rewrite Forall_forall in Hx.
  apply (Hle x q); [apply list_elem_of_here|by apply list_elem_of_further|by apply Hx|done..].
Qed.

Lemma padded_names_time_ordered video_path width fs :
  forallb (padded_name video_path width) (sorted_frames video_path fs) = true →
  time_ordered (sorted_frames video_path fs).
Proof.
  intros Hpad. rewrite forallb_forall in Hpad.
  apply parsed_times_sorted; [apply StronglySorted_sorted_frames|].
  intros p q t u Hp Hq Hpq Ht Hu.
  apply list_elem_of_In, Hpad, padded_name_spec in Hp as (ds1 & -> & Hd1 & Hl1).
  apply list_elem_of_In, Hpad, padded_name_spec in Hq as (ds2 & -> & Hd2 & Hl2).
  destruct (re_search_ms (video_path +:+ "/")) as [t0|] eqn:Hdir.
  { change ("/ms_" +:+ ?s) with ("/" +:+ "ms_" +:+ s) in Ht, Hu.
    rewrite (re_search_ms_shadow _ _ _ Hdir) in Ht.
    rewrite (re_search_ms_shadow _ _ _ Hdir) in Hu.
    injection Ht as <-. injection Hu as <-. lia. }
  change ("/ms_" +:+ ?s) with (String "/" ("ms_" +:+ s)) in Ht, Hu.
  change (".png") with (String "." "png") in Ht, Hu.
  rewrite re_search_ms_app_slash, Hdir in Ht, Hu.
  destruct (decide (width = 0%nat)) as [->|Hw].
  { destruct ds1; [|done]. vm_compute in Ht. discriminate Ht. }
  rewrite re_search_ms_head in Ht, Hu by (done || by intros ->).
  injection Ht as <-. injection Hu as <-.
  apply (digits_compare_le ds1 ds2 ".png"); [done|done|congruence|].
  unfold String.le, String.leb in Hpq.
  rewrite !string_compare_app in Hpq.
  intros Hgt. by rewrite Hgt in Hpq.
Qed.

(** X6. When every frame of a directory is named [ms_<digits>.png] with
    the same number of digits, the scan, which sorts the paths as byte
    strings, returns the frames in the order of their time stamps. *)
Theorem padded_scan_is_time_ordered
    (video_path : string) (width : nat) (fs : gmap string image) :
  forallb (padded_name video_path width) (sorted_frames video_path fs) = true →
  time_ordered (sorted_frames video_path fs).
Proof. apply padded_names_time_ordered. Qed.

Lemma padded_scan_is_time_ordered_witness :
  time_ordered (sorted_frames "/v" (directory_of dense_frames)).
Proof.
  apply (padded_scan_is_time_ordered "/v" 6 (directory_of dense_frames)).
  vm_compute. reflexivity.
Defined.

(** ** Edges of the sampler *)

Lemma Forall_neighbours {A} (P : A * A → Prop) (l : list A) :
  Forall P (zip l (tail l)) →
  ∀ i x y, l !! i = Some x → l !! S i = Some y → P (x, y).
Proof.
  induction l as [|a l IH]; intros HP i x y Hx Hy; [done|].
  destruct l as [|b l]; [by destruct i|].
  apply Forall_cons in HP as [Hab HP].
  destruct i as [|i]; simplify_eq/=; [done|]. by apply (IH HP i).
Qed.

Section SamplerEdges.

Variables first_frame first_change last_frame : string.
Variables first_change_time interval start_ms skip_frames : Z.

Local Abbreviation loop :=
  (sample_loop first_frame first_change last_frame
     first_change_time interval start_ms skip_frames).
Local Abbreviation drop :=
  (sample_drop first_frame first_change last_frame
     first_change_time interval start_ms skip_frames).

Lemma sample_loop_zero_interval frames c l w :
  interval = 0 →
  (parsed_times frames = [] ∧ loop frames c l w = (Ok (c, l), w)) ∨
  (parsed_times frames ≠ [] ∧ loop frames c l w = (Raise ZeroDivisionError, w)).
Proof.
  intros Hz. revert c l. induction frames as [|f frames IH]; intros c l.
  - by left.
  - cbn [sample_loop]. rewrite parsed_times_cons.
    destruct (re_search_ms f) as [t|]; [|apply IH].
    right. split; [done|]. by rewrite decide_True.
Qed.

Lemma sample_loop_no_drop frames c l w :
  interval ≠ 0 → drop frames c l = [] →
  ∃ r, loop frames c l w = (Ok r, w).
Proof.
  intros Hz. revert c l. induction frames as [|f frames IH]; intros c l Hd.
  - by eexists.
  - cbn [sample_loop sample_drop] in *.
    destruct (re_search_ms f) as [t|]; [|by apply IH].
    rewrite decide_False by done.
    destruct (should_remove _ _ _ _ _ _ _ _ _ _ _); [done|].
    rewrite bind_run. cbn [ret]. by apply IH.
Qed.

Lemma sample_drop_spread frames c l :
  (∀ t b, head (parsed_times frames) = Some t → l = Some b →
          frame_bucket_of t interval ≠ b) →
  (∀ i t u, parsed_times frames !! i = Some t →
            parsed_times frames !! S i = Some u →
            frame_bucket_of t interval ≠ frame_bucket_of u interval) →
  drop frames c l = [].
Proof.
  revert c l. induction frames as [|f frames IH]; intros c l Hhd Hadj; [done|].
  cbn [sample_drop]. rewrite parsed_times_cons in Hhd, Hadj.
  destruct (re_search_ms f) as [t|]; [|by apply IH].
  assert (should_remove first_frame first_change last_frame first_change_time
            start_ms skip_frames f t (frame_bucket_of t interval) (c + 1) l
          = false) as ->.
  { unfold should_remove.
    destruct (bool_decide (Some (frame_bucket_of t interval) = l)) eqn:Hb.
    - apply bool_decide_eq_true in Hb. by destruct (Hhd t _ eq_refl (eq_sym Hb)).
    - by rewrite andb_false_r. }
  apply IH.
  - intros u b Hu [= <-] Heq. apply (Hadj 0%nat t u); [done| |done].
    simpl. by destruct (parsed_times frames).
  - intros i u v Hu Hv. by apply (Hadj (S i)).
Qed.

End SamplerEdges.

(** X7. A bucket width of zero: on more than three frames the sampler
    raises [ZeroDivisionError] at the first frame whose name carries a time
    stamp, before it has removed anything; when no name carries one it
    returns normally. *)
Theorem sample_frames_zero_interval
    (frames : list string) (start_ms skip_frames : Z) (w : world) :
  (length frames > 3)%nat →
  sample_frames frames 0 start_ms skip_frames w =
    (if decide (parsed_times frames = []) then Ok tt else Raise ZeroDivisionError,
     World (files w) (trace w ++ [ESample 0 start_ms skip_frames frames])).
Proof.
  intros Hlen. unfold sample_frames. rewrite bind_run. cbn [emit].
  rewrite decide_True by lia.
  destruct frames as [|f0 [|f1 rest]]; [simpl in Hlen; lia..|].
  destruct (proj2 (last_is_Some (f0 :: f1 :: rest))) as [lf Hl]; [done|].
  rewrite Hl, bind_run.
  destruct (sample_loop_zero_interval f0 f1 lf (first_change_time_of f1) 0
              start_ms skip_frames (f0 :: f1 :: rest) 0 None
              (World (files w) (trace w ++ [ESample 0 start_ms skip_frames
                                              (f0 :: f1 :: rest)])) eq_refl)
    as [[Hp ->] | [Hp ->]].
  - by rewrite decide_True.
  - by rewrite decide_False.
Qed.

Lemma sample_frames_zero_interval_witness :
  sample_frames dense_frames 0 0 0 (World (directory_of dense_frames) []) =
    (Raise ZeroDivisionError,
     World (directory_of dense_frames) [ESample 0 0 0 dense_frames]) ∧
  sample_frames untimed_frames 0 0 0 (World (directory_of untimed_frames) []) =
    (Ok tt, World (directory_of untimed_frames) [ESample 0 0 0 untimed_frames]).
Proof.
  split.
  - apply (sample_frames_zero_interval dense_frames 0 0
             (World (directory_of dense_frames) [])). vm_compute. lia.
  - apply (sample_frames_zero_interval untimed_frames 0 0
             (World (directory_of untimed_frames) [])). vm_compute. lia.
Defined.

(** X8. Frames that are already spread out are left alone: when no two
    neighbours among the frames with a time stamp fall into the same
    bucket, as the code computes it (the floor of the quotient, rounded to
    a double), the sampler removes nothing, whatever the window start and
    the quota, and does not even need the files to exist. *)
Theorem sample_frames_keeps_spread_frames
    (frames : list string) (interval start_ms skip_frames : Z) (w : world) :
  interval ≠ 0 →
  Forall (λ tu, frame_bucket_of tu.1 interval ≠ frame_bucket_of tu.2 interval)
         (zip (parsed_times frames) (tail (parsed_times frames))) →
  sample_frames frames interval start_ms skip_frames w =
    (Ok tt,
     World (files w) (trace w ++ [ESample interval start_ms skip_frames frames])).
Proof.
  intros Hz Hadj. unfold sample_frames. rewrite bind_run. cbn [emit].
  case_decide; [|done].
  destruct frames as [|f0 [|f1 rest]]; [done..|].
  destruct (last (f0 :: f1 :: rest)) as [lf|] eqn:Hl; [|done].
  rewrite bind_run.
  edestruct (sample_loop_no_drop f0 f1 lf (first_change_time_of f1) interval
               start_ms skip_frames (f0 :: f1 :: rest) 0 None) as [r ->];
    [done| |done].
  apply sample_drop_spread; [done|].
  intros i t u Ht Hu. by apply (Forall_neighbours _ _ Hadj i).
Qed.

Lemma sample_frames_keeps_spread_frames_witness :
  sample_frames spread_frames 100 0 0 (World (directory_of spread_frames) []) =
    (Ok tt, World (directory_of spread_frames) [ESample 100 0 0 spread_frames]).
Proof.
  apply (sample_frames_keeps_spread_frames spread_frames 100 0 0
           (World (directory_of spread_frames) [])); [lia|].
  apply (bool_decide_unpack _). vm_compute. reflexivity.
Defined.

(** X9. What one pass leaves is thinned to one frame per bucket: on frames
    in time order, a frame with a time stamp that is still there after the
    pass is one of the three pinned frames, or lies at or before the window
    start, or within the quota, or else opens a new bucket, strictly later
    than the bucket of every frame before it. *)
Theorem sample_frames_thins_buckets
    (frames : list string) (interval start_ms skip_frames : Z) (w : world)
    (i : nat) (f : string) (t : Z) :
  (length frames > 3)%nat → interval > 0 → NoDup frames →
  Forall (λ f, is_Some (files w !! f)) frames →
  time_ordered frames →
  frames !! i = Some f → re_search_ms f = Some t →
  is_Some (files (sample_frames frames interval start_ms skip_frames w).2 !! f) →
  (frames !! 0%nat = Some f ∨ frames !! 1%nat = Some f ∨ last frames = Some f) ∨
  (∃ first_change, frames !! 1%nat = Some first_change ∧
                   t ≤ first_change_time_of first_change + start_ms) ∨
  Z.of_nat (length (parsed_times (take (S i) frames))) ≤ skip_frames ∨
  (∀ j g u, (j < i)%nat → frames !! j = Some g → re_search_ms g = Some u →
            frame_bucket_of u interval < frame_bucket_of t interval).
Proof.
  intros Hlen Hpos Hnd Hin Hord Hf Ht Hkept.
  rewrite sample_frames_ok in Hkept;
    [|lia|done|by intros g Hg; rewrite Forall_forall in Hin; apply Hin].
  cbn [snd files] in Hkept. rewrite lookup_remove_paths in Hkept.
  case_decide as Hout; [by destruct Hkept|]. clear Hkept.
  rewrite (sampled_out_elem frames interval start_ms skip_frames i f) in Hout by done.
  apply not_true_is_false in Hout. unfold sampler_deletes in Hout.
  rewrite Hf, Ht in Hout.
  destruct (frames !! 0%nat) as [f0|] eqn:H0;
    [|apply lookup_ge_None in H0; lia].
  destruct (frames !! 1%nat) as [f1|] eqn:H1;
    [|apply lookup_ge_None in H1; lia].
  destruct (last frames) as [lf|] eqn:Hl;
    [|apply last_None in Hl; subst frames; simpl in Hlen; lia].
  repeat (apply andb_false_iff in Hout as [Hout|Hout]);
    apply bool_decide_eq_false in Hout.
  - right. left. exists f1. split; [done|]. lia.
  - right. right. right. intros j g u Hj Hg Hu.
    assert (parsed_times frames =
            parsed_times (take i frames) ++ t :: parsed_times (drop (S i) frames))
      as Hsplit.
    { rewrite <- (take_drop_middle frames i f Hf) at 1.
      by rewrite parsed_times_app, parsed_times_cons, Ht. }
    unfold time_ordered in Hord. rewrite Hsplit in Hord.
    assert (u ∈ parsed_times (take i frames)) as Hu_in.
    { unfold parsed_times. apply list_elem_of_omap. exists g. split; [|done].
      apply list_elem_of_lookup. exists j. by rewrite lookup_take_lt. }
    destruct (last (parsed_times (take i frames))) as [z|] eqn:Hz;
      [|apply last_None in Hz; rewrite Hz in Hu_in; by apply elem_of_nil in Hu_in].
    assert (u ≤ z) as Huz.
    { apply last_Some in Hz as [P' HP']. rewrite HP' in Hu_in, Hord.
      apply elem_of_app in Hu_in as [Hu'|Hu'].
      - apply StronglySorted_app_1_l in Hord.
        apply (StronglySorted_app_1_elem_of _ _ _ u z Hord Hu'), list_elem_of_here.
      - apply list_elem_of_singleton in Hu'. lia. }
    assert (z ≤ t) as Hzt.
    { apply (StronglySorted_app_1_elem_of _ _ _ z t Hord);
        [by apply last_Some_elem_of|apply list_elem_of_here]. }
    assert (frame_bucket_of z interval ≠ frame_bucket_of t interval) as Hne.
    { intros Heq. apply Hout. simpl. by rewrite Heq. }
    pose proof (frame_bucket_of_mono u z interval Hpos Huz).
    pose proof (frame_bucket_of_mono z t interval Hpos Hzt). lia.
  - left. left. apply dec_stable in Hout. by subst.
  - left. right. left. apply dec_stable in Hout. by subst.
  - left. right. right. apply dec_stable in Hout. by subst.
  - right. right. left. lia.
Qed.

Lemma sample_frames_thins_buckets_witness :
  (dense_frames !! 0%nat = Some "/v/ms_000150.png" ∨
   dense_frames !! 1%nat = Some "/v/ms_000150.png" ∨
   last dense_frames = Some "/v/ms_000150.png") ∨
  (∃ first_change, dense_frames !! 1%nat = Some first_change ∧
                   150 ≤ first_change_time_of first_change + 0) ∨
  Z.of_nat (length (parsed_times (take 6 dense_frames))) ≤ 0 ∨
  (∀ j g u, (j < 5)%nat → dense_frames !! j = Some g → re_search_ms g = Some u →
            frame_bucket_of u 100 < frame_bucket_of 150 100).
Proof.
  apply (sample_frames_thins_buckets dense_frames 100 0 0
           (World (directory_of dense_frames) []) 5 "/v/ms_000150.png" 150).
  - vm_compute. lia.
  - lia.
  - apply (bool_decide_unpack _). vm_compute. reflexivity.
  - apply (bool_decide_unpack _). vm_compute. reflexivity.
  - apply (bool_decide_unpack _). vm_compute. reflexivity.
  - reflexivity.
  - reflexivity.
  - apply (bool_decide_unpack _). vm_compute. reflexivity.
Defined.

(** ** What the capper leaves *)

Lemma capper_run_shrinks directory maxframes fuel : ∀ s w,
  ∃ removed t,
    capper_run fuel directory maxframes s w =
      (Ok tt, World (remove_paths removed (files w)) (trace w ++ t)) ∧
    (∀ p, p ∈ removed → p ∈ sorted_frames directory (files w)) ∧
    pinned (sorted_frames directory (remove_paths removed (files w))) =
      pinned (sorted_frames directory (files w)).
Proof.
  induction fuel as [|fuel IH]; intros s w.
  { exists [], []. rewrite remove_paths_nil, app_nil_r, world_eta. split; [by destruct s|].
    split; [by intros p ?%elem_of_nil|done]. }
  rewrite capper_run_step.
  destruct (pass_of maxframes s) as [[[[b st] k] next]|] eqn:Hpass.
  2:{ exists [], []. rewrite remove_paths_nil, app_nil_r, world_eta.
      split; [done|]. split; [by intros p ?%elem_of_nil|done]. }
  destruct (pass_of_interval _ _ _ _ _ _ Hpass) as [Hb _].
  unfold glob_frames. set (found := sorted_frames directory (files w)).
  case_decide as Hover.
  2:{ exists [], [EGlob found]. split; [done|].
      split; [by intros p ?%elem_of_nil|done]. }
  rewrite sample_frames_ok;
    [|lia|apply NoDup_sorted_frames|apply sorted_frames_present].
  cbn [files trace].
  set (out := sampled_out found b st k).
  destruct (IH next (World (remove_paths out (files w))
                       ((trace w ++ [EGlob found]) ++
                        ESample b st k found :: (ERemove <$> out))))
    as (removed & t & -> & Hsub & Hpin).
  cbn [files trace] in *.
  exists (out ++ removed),
    ([EGlob found] ++ ESample b st k found :: (ERemove <$> out) ++ t).
  split; [|split].
  - rewrite remove_paths_app. f_equal. f_equal.
    by rewrite <- !app_assoc.
  - intros p [Hp|Hp]%elem_of_app.
    + eapply elem_of_sublist; [done|apply sampled_out_sublist].
    + apply Hsub in Hp. rewrite sorted_frames_remove_paths in Hp.
      by apply list_elem_of_filter in Hp as [_ Hp].
  - rewrite remove_paths_app, Hpin, sorted_frames_remove_paths.
    apply pinned_sampled_out.
Qed.

Lemma pinned_length (S S' : list string) :
  NoDup S → pinned S' = pinned S → (Nat.min 3 (length S) ≤ length S')%nat.
Proof.
  unfold pinned. intros Hnd [= H0 H1 Hl].
  destruct S as [|a [|b [|c r]]]; simpl in *.
  - lia.
  - apply lookup_lt_Some in H0. lia.
  - apply lookup_lt_Some in H1. lia.
  - destruct S' as [|a' [|b' [|c' r']]]; simplify_eq/=; [|lia].
    apply NoDup_cons in Hnd as [_ Hnd]. apply NoDup_cons in Hnd as [Hb _].
    destruct Hb. apply last_Some_elem_of. by rewrite <- Hl.
Qed.

(** X10. The capper only ever removes frames, and never the first, the
    second or the last one of the scan it started from, whatever the
    budget: it returns normally, what it removed are frames of the first
    scan, the scan afterwards is a part of the scan before with the same
    three frames pinned, and at least three frames are left of a directory
    that had as many. *)
Theorem cap_frame_count_keeps_pinned_frames
    (directory : string) (maxframes : Z) (w : world) :
  ∃ removed t,
    cap_frame_count directory maxframes w =
      (Ok tt, World (remove_paths removed (files w)) (trace w ++ t)) ∧
    (∀ p, p ∈ removed → p ∈ sorted_frames directory (files w)) ∧
    sorted_frames directory (remove_paths removed (files w))
      `sublist_of` sorted_frames directory (files w) ∧
    pinned (sorted_frames directory (remove_paths removed (files w))) =
      pinned (sorted_frames directory (files w)) ∧
    (Nat.min 3 (length (sorted_frames directory (files w))) ≤
       length (sorted_frames directory (remove_paths removed (files w))))%nat.
Proof.
  rewrite cap_frame_count_capper_run.
  destruct (capper_run_shrinks directory maxframes 3 NeedsPass1 w)
    as (removed & t & Hrun & Hsub & Hpin).
  exists removed, t. split; [done|]. split; [done|]. split; [|split; [done|]].
  - rewrite sorted_frames_remove_paths. apply sublist_filter.
  - apply pinned_length; [apply NoDup_sorted_frames|done].
Qed.

(** X11. On a directory whose frames are all named [ms_<digits>.png] with
    the same number of digits, the capper is idempotent: both runs return
    normally, and a second run with the same budget removes nothing. *)
Theorem cap_frame_count_twice_padded
    (directory : string) (width : nat) (maxframes : Z) (w : world) :
  forallb (padded_name directory width) (sorted_frames directory (files w)) = true →
  ∃ w1 t,
    cap_frame_count directory maxframes w = (Ok tt, w1) ∧
    cap_frame_count directory maxframes w1 =
      (Ok tt, World (files w1) (trace w1 ++ t)) ∧
    removals t = [].
Proof.
  intros Hto%padded_names_time_ordered.
  destruct (capper_run_reaches_stable directory maxframes 3 NeedsPass1 []
              (files w) (trace w)) as (fs' & t1 & Hrun1 & Hst);
    [simpl; lia|done|by intros b st k Hin%elem_of_nil|].
  destruct (capper_run_stable directory maxframes 3 NeedsPass1 fs'
              (trace w ++ t1) Hst) as (t & Hrun2 & Hrm).
  exists (World fs' (trace w ++ t1)), t.
  rewrite !cap_frame_count_capper_run. rewrite world_eta in Hrun1. done.
Qed.

Lemma cap_frame_count_twice_padded_witness :
  ∃ w1 t,
    cap_frame_count "/v" 50 (World (directory_of sixty_frames) []) = (Ok tt, w1) ∧
    cap_frame_count "/v" 50 w1 = (Ok tt, World (files w1) (trace w1 ++ t)) ∧
    removals t = [].
Proof.
  apply (cap_frame_count_twice_padded "/v" 6 50
           (World (directory_of sixty_frames) [])).
  vm_compute. reflexivity.
Defined.

(** ** What the duplicate eliminator leaves *)

Section SurvivorsProperties.

Variable compare_tool : option Z → option image → option image → string.

Local Abbreviation pixels := (differing_pixels compare_tool).
Local Abbreviation events := (dedup_events compare_tool).
Local Abbreviation keep := (dedup_keep compare_tool).

Lemma dedup_keep_filter fs baseline rest :
  NoDup (baseline :: rest) →
  filter (λ f, f ∉ removals (events fs baseline rest)) rest = keep fs baseline rest.
Proof.
  revert baseline. induction rest as [|f rest IH]; intros baseline Hnd; [done|].
  assert (Hbf : (baseline ∉ rest) ∧ (f ∉ rest) ∧ NoDup rest).
  { apply NoDup_cons in Hnd as [Hb Hnd]. apply NoDup_cons in Hnd as [Hf Hnd].
    apply not_elem_of_cons in Hb as [? ?]. done. }
  destruct Hbf as (Hb & Hf & Hrest).
  assert (Hkept : filter (λ g, g ∉ removals (events fs f rest)) (f :: rest) =
                  f :: keep fs f rest).
  { rewrite filter_cons, decide_True.
    - f_equal. apply IH. by apply NoDup_cons.
    - intros Hin. apply Hf.
      eapply elem_of_sublist; [done|apply dedup_removals_sublist]. }
  cbn [dedup_events dedup_keep removals].
  destruct (pixels fs baseline f) as [n|]; [|exact Hkept].
  case_bool_decide; [|exact Hkept].
  cbn [removals]. rewrite filter_cons, decide_False
    by (intros Hn; apply Hn, list_elem_of_here).
  rewrite <- IH by (by apply NoDup_cons).
  apply filter_ext_elem. intros g Hg. rewrite not_elem_of_cons.
  split; [tauto|]. intros Hn. split; [by intros ->|done].
Qed.

Lemma dedup_keep_sublist fs baseline rest :
  keep fs baseline rest `sublist_of` rest.
Proof.
  revert baseline. induction rest as [|f rest IH]; intros baseline; [done|].
  cbn [dedup_keep]. destruct (pixels fs baseline f) as [n|].
  - case_bool_decide; [by apply sublist_cons|by apply sublist_skip].
  - by apply sublist_skip.
Qed.

(** Run on what it left, the loop removes nothing. *)
Lemma dedup_keep_stable fs baseline rest :
  removals (events fs baseline (keep fs baseline rest)) = [].
Proof.
  revert baseline. induction rest as [|f rest IH]; intros baseline; [done|].
  cbn [dedup_keep]. destruct (pixels fs baseline f) as [n|] eqn:Hp.
  - case_bool_decide as Hn; [apply IH|].
    cbn [dedup_events removals]. rewrite Hp, bool_decide_eq_false_2 by done.
    apply IH.
  - cbn [dedup_events removals]. rewrite Hp. apply IH.
Qed.

(** No frame that is left matches the one left before it. *)
Lemma dedup_keep_chain fs rest : ∀ baseline i x y,
  (baseline :: keep fs baseline rest) !! i = Some x →
  (baseline :: keep fs baseline rest) !! S i = Some y →
  ¬ ∃ n, pixels fs x y = Some n ∧ n ≤ 0.
Proof.
  induction rest as [|f rest IH]; intros baseline i x y Hx Hy.
  { by destruct i. }
  cbn [dedup_keep] in Hx, Hy.
  destruct (pixels fs baseline f) as [n|] eqn:Hp.
  - case_bool_decide as Hn; [by apply (IH baseline i)|].
    destruct i as [|i]; [|by apply (IH f i)].
    simplify_eq/=. intros (n' & Hn' & ?). simplify_eq. lia.
  - destruct i as [|i]; [|by apply (IH f i)].
    simplify_eq/=. intros (n' & Hn' & ?). simplify_eq.
Qed.

Lemma eliminate_duplicate_frames_scan video_path first rest w :
  sorted_frames video_path (files w) = first :: rest →
  sorted_frames video_path
    (remove_paths (removals (events (files w) first rest)) (files w)) =
  first :: keep (files w) first rest.
Proof.
  intros Hscan. pose proof (NoDup_sorted_frames video_path (files w)) as Hnd.
  rewrite Hscan in Hnd.
  rewrite sorted_frames_remove_paths, Hscan, filter_cons, decide_True.
  - f_equal. by apply dedup_keep_filter.
  - intros Hin. apply NoDup_cons in Hnd as [Hf _]. apply Hf.
    eapply elem_of_sublist; [done|apply dedup_removals_sublist].
Qed.

End SurvivorsProperties.

(** X12. After the duplicate eliminator no frame of the directory matches
    the frame before it: for any two neighbours of the new scan the
    comparison does not report a count of at most 0. *)
Theorem eliminate_duplicate_frames_leaves_no_match
    (compare_tool : option Z → option image → option image → string)
    (video_path : string) (w : world) :
  ∃ w',
    eliminate_duplicate_frames compare_tool video_path w = (Ok tt, w') ∧
    ∀ i a b,
      sorted_frames video_path (files w') !! i = Some a →
      sorted_frames video_path (files w') !! S i = Some b →
      ¬ ∃ n, differing_pixels compare_tool (files w') a b = Some n ∧ n ≤ 0.
Proof.
  destruct (sorted_frames video_path (files w)) as [|first rest] eqn:Hscan.
  { exists (World (files w) (trace w ++ [EGlob []])). split.
    - unfold eliminate_duplicate_frames. rewrite bind_run. unfold glob_frames.
      rewrite Hscan. by rewrite decide_False by (simpl; lia).
    - cbn [files]. rewrite Hscan. by intros [|i]. }
  eexists. split; [by apply eliminate_duplicate_frames_run|].
  cbn [files]. rewrite (eliminate_duplicate_frames_scan _ _ _ _ _ Hscan).
  intros i a b Ha Hb.
  pose proof (NoDup_sorted_frames video_path (files w)) as Hnd.
  rewrite Hscan in Hnd.
  assert (∀ p, p ∈ first :: dedup_keep compare_tool (files w) first rest →
            remove_paths (removals (dedup_events compare_tool (files w) first rest))
              (files w) !! p = files w !! p) as Hsame.
  { intros p Hp. rewrite lookup_remove_paths. rewrite decide_False; [done|].
    intros Hrm.
    rewrite <- (dedup_keep_filter compare_tool (files w) first rest Hnd) in Hp.
    apply elem_of_cons in Hp as [->|Hp].
    - apply NoDup_cons in Hnd as [Hf _]. apply Hf.
      eapply elem_of_sublist; [done|apply dedup_removals_sublist].
    - by apply list_elem_of_filter in Hp as [Hp _]. }
  unfold differing_pixels.
  rewrite (Hsame a) by (by eapply list_elem_of_lookup_2).
  rewrite (Hsame b) by (by eapply list_elem_of_lookup_2).
  by apply (dedup_keep_chain compare_tool (files w) rest first i).
Qed.

(** X13. The duplicate eliminator is idempotent: run again on the directory
    it left, it compares and removes nothing. *)
Theorem eliminate_duplicate_frames_twice
    (compare_tool : option Z → option image → option image → string)
    (video_path : string) (w : world) :
  ∃ w1 t,
    eliminate_duplicate_frames compare_tool video_path w = (Ok tt, w1) ∧
    eliminate_duplicate_frames compare_tool video_path w1 =
      (Ok tt, World (files w1) (trace w1 ++ t)) ∧
    removals t = [].
Proof.
  destruct (sorted_frames video_path (files w)) as [|first rest] eqn:Hscan.
  { exists (World (files w) (trace w ++ [EGlob []])), [EGlob []].
    assert (∀ tr, eliminate_duplicate_frames compare_tool video_path
                    (World (files w) tr) =
                  (Ok tt, World (files w) (tr ++ [EGlob []]))) as Hrun.
    { intros tr. unfold eliminate_duplicate_frames. rewrite bind_run.
      unfold glob_frames. cbn [files trace]. rewrite Hscan.
      by rewrite decide_False by (simpl; lia). }
    split; [by rewrite <- (world_eta w), Hrun|]. split; [apply Hrun|done]. }
  pose proof (NoDup_sorted_frames video_path (files w)) as Hnd.
  rewrite Hscan in Hnd.
  set (fs1 := remove_paths
                (removals (dedup_events compare_tool (files w) first rest))
                (files w)).
  set (kept := dedup_keep compare_tool (files w) first rest).
  assert (dedup_events compare_tool fs1 first kept =
          dedup_events compare_tool (files w) first kept) as Hev.
  { apply dedup_events_ext. intros p Hp. unfold fs1.
    rewrite lookup_remove_paths. rewrite decide_False; [done|].
    intros Hrm. unfold kept in Hp.
    rewrite <- (dedup_keep_filter compare_tool (files w) first rest Hnd) in Hp.
    apply elem_of_cons in Hp as [->|Hp].
    - apply NoDup_cons in Hnd as [Hf _]. apply Hf.
      eapply elem_of_sublist; [done|apply dedup_removals_sublist].
    - by apply list_elem_of_filter in Hp as [Hp _]. }
  eexists _, (EGlob (first :: kept) :: dedup_events compare_tool fs1 first kept).
  split; [by apply eliminate_duplicate_frames_run|]. split.
  - rewrite (eliminate_duplicate_frames_run compare_tool video_path first kept).
    + cbn [files trace]. fold fs1. rewrite Hev.
      unfold kept. by rewrite dedup_keep_stable, remove_paths_nil.
    + cbn [files]. by apply eliminate_duplicate_frames_scan.
  - cbn [removals]. rewrite Hev. apply dedup_keep_stable.
Qed.

(** ** The transcoder *)

Lemma string_length_app a b :
  String.length (a +:+ b) = (String.length a + String.length b)%nat.
Proof.
  induction a as [|c a IH]; [done|]. rewrite string_app_cons. simpl. by rewrite IH.
Qed.

Lemma substring_app x y : substring 0 (String.length x) (x +:+ y) = x.
Proof.
  induction x as [|c x IH]; [by destruct y|].
  rewrite string_app_cons. simpl. by rewrite IH.
Qed.

Lemma jpg_path_png x : jpg_path (x +:+ ".png") = x +:+ ".jpg".
Proof.
  unfold jpg_path. rewrite string_length_app.
  replace (String.length x + String.length ".png" - 4)%nat with (String.length x)
    by (simpl; lia).
  by rewrite substring_app.
Qed.

Lemma string_app_inj_r a : ∀ b s t,
  String.length s = String.length t → a +:+ s = b +:+ t → a = b ∧ s = t.
Proof.
  induction a as [|c a IH]; intros [|d b] s t Hlen Heq.
  - done.
  - change ("" +:+ s) with s in Heq. subst s.
    rewrite string_app_cons in Hlen. simpl in Hlen.
    rewrite string_length_app in Hlen. lia.
  - change ("" +:+ t) with t in Heq. subst t.
    rewrite string_app_cons in Hlen. simpl in Hlen.
    rewrite string_length_app in Hlen. lia.
  - rewrite !string_app_cons in Heq. injection Heq as -> Heq.
    destruct (IH b s t Hlen Heq) as [-> ->]. done.
Qed.

Lemma frame_path_jpg video_path p :
  is_frame_path video_path p = true →
  ∃ x, p = x +:+ ".png" ∧ jpg_path p = x +:+ ".jpg".
Proof.
  intros (x & -> & _)%is_frame_path_spec.
  exists (video_path +:+ "/ms_" +:+ x).
  assert (video_path +:+ "/ms_" +:+ x +:+ ".png" =
          (video_path +:+ "/ms_" +:+ x) +:+ ".png") as ->.
  { by rewrite !string_app_assoc. }
  split; [done|]. apply jpg_path_png.
Qed.

(** The jpeg written for a frame is not itself a frame. *)
Lemma jpg_path_no_frame video_path p :
  is_frame_path video_path p = true →
  is_frame_path video_path (jpg_path p) = false.
Proof.
  intros Hp. destruct (frame_path_jpg _ _ Hp) as (x & _ & ->).
  apply not_true_is_false. intros (y & Hy & _)%is_frame_path_spec.
  rewrite <- !string_app_assoc in Hy.
  by apply string_app_inj_r in Hy as [_ ?].
Qed.

Lemma jpg_path_inj video_path p q :
  is_frame_path video_path p = true → is_frame_path video_path q = true →
  jpg_path p = jpg_path q → p = q.
Proof.
  intros Hp Hq Heq.
  destruct (frame_path_jpg _ _ Hp) as (x & -> & Hx).
  destruct (frame_path_jpg _ _ Hq) as (y & -> & Hy).
  rewrite Hx, Hy in Heq. by apply string_app_inj_r in Heq as [-> _].
Qed.

Lemma sorted_frames_same_frames video_path fs1 fs2 :
  (∀ p, is_frame_path video_path p = true → is_Some (fs1 !! p) ↔ is_Some (fs2 !! p)) →
  sorted_frames video_path fs1 = sorted_frames video_path fs2.
Proof.
  intros Hsame. apply (StronglySorted_unique String.le).
  - apply StronglySorted_sorted_frames.
  - apply StronglySorted_sorted_frames.
  - apply NoDup_Permutation; [apply NoDup_sorted_frames..|].
    intros f. rewrite !elem_of_sorted_frames.
    split; intros [Hf ?]; (split; [done|]); by apply (Hsame f Hf).
Qed.

Section TranscoderProperties.

Variable jpeg_tool : image → Z → Z → option image.
Variable video_path : string.
Variable iq : Z.

Local Abbreviation conv := (converted jpeg_tool iq).

Lemma converted_cons src srcs fs :
  conv (src :: srcs) fs =
    conv srcs (match fs !! src with
               | Some img =>
                   match jpeg_tool img VIDEO_SIZE iq with
                   | Some img' => <[jpg_path src := img']> fs
                   | None => fs
                   end
               | None => fs
               end).
Proof. reflexivity. Qed.

Lemma converted_snoc srcs src fs :
  conv (srcs ++ [src]) fs =
    match conv srcs fs !! src with
    | Some img =>
        match jpeg_tool img VIDEO_SIZE iq with
        | Some img' => <[jpg_path src := img']> (conv srcs fs)
        | None => conv srcs fs
        end
    | None => conv srcs fs
    end.
Proof. unfold converted. by rewrite foldl_app. Qed.

Lemma convert_one_run src w :
  convert_one jpeg_tool iq src w =
    (Ok tt, World (conv [src] (files w)) (trace w ++ [EJpeg src (jpg_path src)])).
Proof. reflexivity. Qed.

Lemma convert_all_run srcs w :
  convert_all jpeg_tool iq srcs w =
    (Ok tt, World (conv srcs (files w))
              (trace w ++ ((λ src, EJpeg src (jpg_path src)) <$> srcs))).
Proof.
  revert w. induction srcs as [|src srcs IH]; intros w.
  - simpl. unfold ret. by rewrite app_nil_r, world_eta.
  - cbn [convert_all]. rewrite bind_run, convert_one_run, IH.
    cbn [files trace]. rewrite fmap_cons. by rewrite <- app_assoc.
Qed.

(** A conversion writes to the jpeg paths of its sources and nowhere else. *)
Lemma converted_other srcs fs p :
  (∀ src, src ∈ srcs → jpg_path src ≠ p) → conv srcs fs !! p = fs !! p.
Proof.
  revert fs. induction srcs as [|src srcs IH]; intros fs Hp; [done|].
  rewrite converted_cons, IH
    by (intros s Hs; apply Hp; by apply list_elem_of_further).
  assert (jpg_path src ≠ p) by apply Hp, list_elem_of_here.
  destruct (fs !! src) as [img|]; [|done].
  destruct (jpeg_tool img VIDEO_SIZE iq); [|done].
  by rewrite lookup_insert_ne.
Qed.

Lemma converted_frame srcs fs p :
  Forall (λ src, is_frame_path video_path src = true) srcs →
  is_frame_path video_path p = true → conv srcs fs !! p = fs !! p.
Proof.
  intros Hsrcs Hp. apply converted_other. intros src Hsrc Heq.
  rewrite Forall_forall in Hsrcs.
  pose proof (jpg_path_no_frame video_path src (Hsrcs src Hsrc)) as Hno.
  rewrite Heq in Hno. congruence.
Qed.

Lemma converted_jpg srcs : ∀ fs f,
  Forall (λ src, is_frame_path video_path src = true) srcs → NoDup srcs →
  f ∈ srcs →
  conv srcs fs !! jpg_path f =
    match fs !! f ≫= (λ img, jpeg_tool img VIDEO_SIZE iq) with
    | Some img' => Some img'
    | None => fs !! jpg_path f
    end.
Proof.
  induction srcs as [|src srcs IH]; intros fs f Hsrcs Hnd Hf.
  { by apply elem_of_nil in Hf. }
  apply Forall_cons in Hsrcs as [Hsrc Hsrcs].
  apply NoDup_cons in Hnd as [Hnew Hnd].
  rewrite converted_cons.
  pose proof (jpg_path_no_frame video_path src Hsrc) as Hno.
  apply elem_of_cons in Hf as [->|Hf].
  - rewrite converted_other.
    + destruct (fs !! src) as [img|]; [|done]. simpl.
      destruct (jpeg_tool img VIDEO_SIZE iq); [|done].
      by rewrite lookup_insert_eq.
    + intros s Hs Heq. rewrite Forall_forall in Hsrcs.
      apply (jpg_path_inj video_path) in Heq; [|by apply Hsrcs|done].
      by subst s.
  - rewrite (IH _ f) by done.
    assert (Hff : is_frame_path video_path f = true).
    { rewrite Forall_forall in Hsrcs. by apply Hsrcs. }
    assert (jpg_path src ≠ f) by (intros Heq; rewrite Heq in Hno; congruence).
    assert (jpg_path src ≠ jpg_path f).
    { intros Heq. apply (jpg_path_inj video_path) in Heq; [|done..].
      by subst src. }
    destruct (fs !! src) as [img|]; [|done].
    destruct (jpeg_tool img VIDEO_SIZE iq); [|done].
    by rewrite !lookup_insert_ne.
Qed.

Lemma sorted_frames_converted srcs fs :
  Forall (λ src, is_frame_path video_path src = true) srcs →
  sorted_frames video_path (conv srcs fs) = sorted_frames video_path fs.
Proof.
  intros Hsrcs. apply sorted_frames_same_frames. intros p Hp.
  by rewrite (converted_frame srcs fs p).
Qed.

Lemma sorted_frames_Forall fs :
  Forall (λ src, is_frame_path video_path src = true) (sorted_frames video_path fs).
Proof.
  apply Forall_forall. by intros f [? _]%elem_of_sorted_frames.
Qed.

End TranscoderProperties.

(** X14. [convert_to_jpeg], run on its own: it returns normally after one
    scan and one conversion for each frame, in the order of the scan; every
    frame is still there, unchanged; for every frame whose conversion
    succeeds the result is at the path of the frame with [.jpg] for
    [.png]; and no other path is written. *)
Theorem convert_to_jpeg_effect
    (jpeg_tool : image → Z → Z → option image) (video_path : string) (iq : Z)
    (w : world) :
  ∃ w',
    convert_to_jpeg jpeg_tool video_path iq w = (Ok tt, w') ∧
    trace w' =
      trace w ++ EGlob (sorted_frames video_path (files w)) ::
        ((λ src, EJpeg src (jpg_path src)) <$> sorted_frames video_path (files w)) ∧
    sorted_frames video_path (files w') = sorted_frames video_path (files w) ∧
    (∀ p, is_frame_path video_path p = true → files w' !! p = files w !! p) ∧
    (∀ f, f ∈ sorted_frames video_path (files w) →
       files w' !! jpg_path f =
         match files w !! f ≫= (λ img, jpeg_tool img VIDEO_SIZE iq) with
         | Some img' => Some img'
         | None => files w !! jpg_path f
         end) ∧
    (∀ p, (∀ f, f ∈ sorted_frames video_path (files w) → jpg_path f ≠ p) →
       files w' !! p = files w !! p).
Proof.
  eexists. split.
  { unfold convert_to_jpeg. rewrite bind_run. unfold glob_frames.
    rewrite convert_all_run. cbn [files trace]. reflexivity. }
  cbn [files trace].
  pose proof (sorted_frames_Forall video_path (files w)) as Hall.
  split; [by rewrite <- app_assoc|].
  split; [by apply sorted_frames_converted|].
  split; [intros p Hp; by apply (converted_frame jpeg_tool video_path)|].
  split.
  - intros f Hf. apply (converted_jpg jpeg_tool video_path); [done| |done].
    apply NoDup_sorted_frames.
  - intros p Hp. by apply converted_other.
Qed.

(** ** The outcome of [process] *)

Lemma filter_not_elem_self {A} `{EqDecision A} (l : list A) :
  filter (λ x, x ∉ l) l = [].
Proof.
  destruct (filter (λ x, x ∉ l) l) as [|x k] eqn:Hk; [done|].
  assert (x ∈ filter (λ x, x ∉ l) l) as Hx by (rewrite Hk; apply list_elem_of_here).
  by apply list_elem_of_filter in Hx as [? ?].
Qed.

Lemma of_thread_snoc c e :
  of_thread (c ++ [e]) =
    of_thread c ++ (if bool_decide (kind_of e ∈ [KGlob; KJpeg; KThreadExit])
                    then [e] else []).
Proof.
  unfold of_thread. rewrite filter_app. f_equal.
  rewrite filter_cons, filter_nil. case_decide.
  - by rewrite bool_decide_eq_true_2.
  - by rewrite bool_decide_eq_false_2.
Qed.

Lemma of_caller_snoc c e :
  of_caller (c ++ [e]) =
    of_caller c ++ (if bool_decide (kind_of e ∈ [KMetricsCall; KMetricsReturn])
                    then [e] else []).
Proof.
  unfold of_caller. rewrite filter_app. f_equal.
  rewrite filter_cons, filter_nil. case_decide.
  - by rewrite bool_decide_eq_true_2.
  - by rewrite bool_decide_eq_false_2.
Qed.

Section OutcomeProperties.

Variable compare_tool : option Z → option image → option image → string.
Variable resize_tool : image → Z → Z → option image.
Variable jpeg_tool : image → Z → Z → option image.
Variable video_path : string.
Variable iq : Z.

Local Abbreviation step_of :=
  (step compare_tool resize_tool jpeg_tool video_path iq).
Local Abbreviation run_of :=
  (run compare_tool resize_tool jpeg_tool video_path iq).
Local Abbreviation process_of :=
  (process compare_tool resize_tool jpeg_tool video_path iq).
Local Abbreviation inv :=
  (outcome_inv compare_tool resize_tool jpeg_tool video_path iq).
Local Abbreviation prep := (prepared_files compare_tool resize_tool video_path).
Local Abbreviation ptrace := (prepared_trace compare_tool resize_tool video_path).
Local Abbreviation wstate :=
  (worker_state compare_tool resize_tool jpeg_tool video_path iq).
Local Abbreviation kept_of fs := (sorted_frames video_path (prep fs)).

Lemma run_idle schedule m :
  pc m = MDone → wk m = WNotStarted → run_of schedule m = m.
Proof.
  intros Hpc Hwk. induction schedule as [|t schedule IH]; [done|].
  unfold run in *. cbn [foldl].
  assert (step_of t m = m) as ->; [|done].
  unfold step, main_step, worker_step. rewrite Hpc, Hwk. by destruct t.
Qed.

(** Lines 26-49 on the directory that [process] found. *)
Lemma process_frames_prepared fs :
  process_frames compare_tool resize_tool video_path (World fs []) =
    (if second_frame_opens video_path fs then Ok tt else Raise IOError,
     World (prep fs) (ptrace fs)) ∧
  prepared (ptrace fs) ∧
  (second_frame_opens video_path fs = false →
   prep fs = fs ∧ ptrace fs = [EGlob (sorted_frames video_path fs)]).
Proof.
  unfold prepared_files, prepared_trace.
  destruct (process_frames_run compare_tool resize_tool video_path (World fs []))
    as (fs' & pre & Hrun & Hpre & Hraise).
  rewrite Hrun. cbn [files trace snd] in *. done.
Qed.

(** While the two threads run side by side. *)
Lemma outcome_inv_running fs p k w :
  p = MMetrics ∨ p = MMetricsWait ∨ p = MJoin →
  inv fs (Machine p k w) ↔
    process_frames compare_tool resize_tool video_path (World fs []) =
      (Ok tt, World (prep fs) (ptrace fs)) ∧
    ∃ c, trace w = ptrace fs ++ EThreadStart :: c ∧
         only [KGlob; KJpeg; KThreadExit; KMetricsCall; KMetricsReturn] c ∧
         of_caller c = caller_so_far p ∧
         wstate fs k (files w) (of_thread c).
Proof.
  intros Hp. unfold outcome_inv. cbn [pc wk wd].
  assert (cleanup_so_far (kept_of fs) p = []) as Hclean
    by (by destruct Hp as [->|[->| ->]]).
  split.
  - intros Hinv.
    assert (process_frames compare_tool resize_tool video_path (World fs []) =
              (Ok tt, World (prep fs) (ptrace fs)) ∧
            ∃ c now,
              trace w = ptrace fs ++ EThreadStart :: c ++ cleanup_so_far (kept_of fs) p ∧
              files w = now ∧
              only [KGlob; KJpeg; KThreadExit; KMetricsCall; KMetricsReturn] c ∧
              of_caller c = caller_so_far p ∧ wstate fs k now (of_thread c))
      as (Hok & c & now & Htr & Hfs & Hc & Hcaller & Hw).
    { destruct Hp as [->|[->| ->]]; destruct Hinv as (? & _ & ?); done. }
    split; [done|]. exists c. rewrite Htr, Hclean, app_nil_r, Hfs. done.
  - intros (Hok & c & Htr & Hc & Hcaller & Hw).
    assert (∃ c0 now,
              trace w = ptrace fs ++ EThreadStart :: c0 ++ cleanup_so_far (kept_of fs) p ∧
              files w = now ∧
              only [KGlob; KJpeg; KThreadExit; KMetricsCall; KMetricsReturn] c0 ∧
              of_caller c0 = caller_so_far p ∧ wstate fs k now (of_thread c0))
      as Hex.
    { exists c, (files w). by rewrite Hclean, app_nil_r. }
    destruct Hp as [->|[->| ->]]; done.
Qed.

Lemma main_step_outcome fs m m' :
  inv fs m → main_step compare_tool resize_tool video_path m = Some m' →
  inv fs m'.
Proof.
  intros Hinv Hstep. destruct m as [p k w].
  destruct (process_frames_prepared fs) as (Hrun & _ & _).
  destruct p.
  - (* line 25 *)
    unfold outcome_inv in Hinv. cbn [pc wk wd] in Hinv.
    destruct Hinv as [-> ->].
    unfold main_step in Hstep. cbn [pc wk wd] in Hstep. rewrite Hrun in Hstep.
    destruct (second_frame_opens video_path fs); injection Hstep as <-.
    + apply outcome_inv_running; [by left|]. split; [done|].
      exists []. cbn [emit snd files trace]. repeat split; constructor.
    + unfold outcome_inv. cbn [pc wk wd]. done.
  - (* the call of the metrics program *)
    apply outcome_inv_running in Hinv as (Hok & c & Htr & Hc & Hcaller & Hw);
      [|by left].
    injection Hstep as <-. apply outcome_inv_running; [by right; left|].
    split; [done|]. exists (c ++ [EMetricsCall]). cbn [emit snd files trace wk wd].
    split; [rewrite Htr; by rewrite <- app_assoc|].
    split; [apply only_snoc; [done|kind_in]|].
    rewrite of_caller_snoc, of_thread_snoc, Hcaller, app_nil_r. done.
  - (* its return *)
    apply outcome_inv_running in Hinv as (Hok & c & Htr & Hc & Hcaller & Hw);
      [|by right; left].
    injection Hstep as <-. apply outcome_inv_running; [by right; right|].
    split; [done|]. exists (c ++ [EMetricsReturn]). cbn [emit snd files trace wk wd].
    split; [rewrite Htr; by rewrite <- app_assoc|].
    split; [apply only_snoc; [done|kind_in]|].
    rewrite of_caller_snoc, of_thread_snoc, Hcaller, app_nil_r. done.
  - (* the join *)
    apply outcome_inv_running in Hinv as (Hok & c & Htr & Hc & Hcaller & Hw);
      [|by right; right].
    unfold main_step in Hstep. cbn [pc wk wd] in Hstep.
    destruct k; try discriminate. injection Hstep as <-.
    unfold outcome_inv. cbn [pc wk wd emit snd files trace cleanup_so_far].
    split; [done|]. split; [done|]. exists c, (files w).
    split; [rewrite Htr; by rewrite <- app_assoc|]. done.
  - (* the clean-up *)
    unfold outcome_inv in Hinv. cbn [pc wk wd] in Hinv.
    destruct Hinv as (Hok & -> & c & now & Htr & Hfs & Hc & Hcaller & Hw).
    unfold main_step in Hstep. cbn [pc wk wd] in Hstep.
    rewrite delete_pngs_run in Hstep. injection Hstep as <-.
    assert (sorted_frames video_path (files w) = kept_of fs) as Hscan.
    { destruct Hw as [Hnow _]. rewrite Hfs, Hnow.
      apply sorted_frames_converted, sorted_frames_Forall. }
    unfold outcome_inv. cbn [pc wk wd files trace cleanup_so_far] in *.
    split; [done|]. split; [done|]. exists c, now. rewrite Hscan, Htr.
    split; [|by rewrite Hfs]. rewrite <- !app_assoc. f_equal. simpl. f_equal.
    by rewrite <- !app_assoc.
  - discriminate.
  - discriminate.
Qed.

Lemma worker_step_outcome fs m m' :
  inv fs m → worker_step jpeg_tool video_path iq m = Some m' → inv fs m'.
Proof.
  intros Hinv Hstep. destruct m as [p k w].
  assert (p = MMetrics ∨ p = MMetricsWait ∨ p = MJoin) as Hp.
  { unfold outcome_inv in Hinv. cbn [pc wk wd] in Hinv.
    unfold worker_step in Hstep. cbn [pc wk wd] in Hstep.
    destruct p; try tauto.
    - destruct Hinv as [_ ->]. done.
    - destruct Hinv as (_ & -> & _). done.
    - destruct Hinv as (_ & -> & _). done.
    - destruct Hinv as [-> _]. done. }
  apply (outcome_inv_running fs p k w Hp) in Hinv
    as (Hok & c & Htr & Hc & Hcaller & Hw).
  unfold worker_step in Hstep. cbn [pc wk wd] in Hstep.
  unfold worker_state in Hw.
  destruct k as [| |todo|]; [done| | |done].
  - (* the scan *)
    destruct Hw as [Hfs Hmine].
    unfold glob_frames in Hstep. injection Hstep as <-.
    apply outcome_inv_running; [done|]. split; [done|].
    exists (c ++ [EGlob (sorted_frames video_path (files w))]).
    cbn [files trace]. split; [rewrite Htr; by rewrite <- app_assoc|].
    split; [apply only_snoc; [done|kind_in]|].
    rewrite of_caller_snoc, of_thread_snoc, Hmine, app_nil_r.
    split; [done|]. exists []. by rewrite Hfs.
  - destruct Hw as (done' & Hsplit & Hfs & Hmine).
    destruct todo as [|src rest]; injection Hstep as <-;
      (apply outcome_inv_running; [done|]); (split; [done|]).
    + (* the return *)
      exists (c ++ [EThreadExit]). cbn [emit snd files trace].
      split; [rewrite Htr; by rewrite <- app_assoc|].
      split; [apply only_snoc; [done|kind_in]|].
      rewrite of_caller_snoc, of_thread_snoc, Hmine, app_nil_r.
      split; [done|]. unfold worker_state, thread_trace.
      rewrite Hsplit, app_nil_r. done.
    + (* one conversion *)
      exists (c ++ [jpeg_event src]). cbn [snd files trace].
      split; [rewrite Htr; by rewrite <- app_assoc|].
      split; [apply only_snoc; [done|kind_in]|].
      rewrite of_caller_snoc, of_thread_snoc, Hmine, app_nil_r.
      split; [done|]. exists (done' ++ [src]).
      split; [by rewrite Hsplit, <- app_assoc|].
      split; [by rewrite converted_snoc, <- Hfs|].
      by rewrite fmap_app.
Qed.

Lemma run_outcome fs schedule m : inv fs m → inv fs (run_of schedule m).
Proof.
  revert m. induction schedule as [|t schedule IH]; intros m Hm; [done|].
  unfold run in *. cbn [foldl]. apply IH. unfold step.
  destruct t.
  - destruct (main_step _ _ _ m) as [m'|] eqn:Hstep; [|done].
    by apply (main_step_outcome fs m).
  - destruct (worker_step _ _ _ m) as [m'|] eqn:Hstep; [|done].
    by apply (worker_step_outcome fs m).
Qed.

Lemma process_outcome fs schedule : inv fs (process_of true fs schedule).
Proof. by apply run_outcome. Qed.

End OutcomeProperties.

Section Started.

Variable compare_tool : option Z → option image → option image → string.
Variable resize_tool : image → Z → Z → option image.
Variable jpeg_tool : image → Z → Z → option image.
Variable video_path : string.
Variable iq : Z.

Local Abbreviation process_of :=
  (process compare_tool resize_tool jpeg_tool video_path iq).
Local Abbreviation inv :=
  (outcome_inv compare_tool resize_tool jpeg_tool video_path iq).
Local Abbreviation prep := (prepared_files compare_tool resize_tool video_path).
Local Abbreviation ptrace := (prepared_trace compare_tool resize_tool video_path).
Local Abbreviation wstate :=
  (worker_state compare_tool resize_tool jpeg_tool video_path iq).
Local Abbreviation kept_of fs := (sorted_frames video_path (prep fs)).

(** The invariant once the thread has been started. *)
Lemma outcome_inv_started fs m :
  inv fs m → started (pc m) = true →
  process_frames compare_tool resize_tool video_path (World fs []) =
    (Ok tt, World (prep fs) (ptrace fs)) ∧
  match pc m with MCleanup | MDone => wk m = WExited | _ => True end ∧
  ∃ c now,
    trace (wd m) =
      ptrace fs ++ EThreadStart :: c ++ cleanup_so_far (kept_of fs) (pc m) ∧
    files (wd m) =
      match pc m with MDone => remove_paths (kept_of fs) now | _ => now end ∧
    only [KGlob; KJpeg; KThreadExit; KMetricsCall; KMetricsReturn] c ∧
    of_caller c = caller_so_far (pc m) ∧
    wstate fs (wk m) now (of_thread c).
Proof. unfold outcome_inv. by destruct (pc m). Qed.

(** Before that the trace has none of the events of the two threads. *)
Lemma outcome_inv_not_started fs m :
  inv fs m → started (pc m) = false →
  trace (wd m) `prefix_of` ptrace fs ∧
  (trace (wd m) = [] ∨
   ∃ e, pc m = MRaised e ∧
        process_frames compare_tool resize_tool video_path (World fs []) =
          (Raise e, wd m)).
Proof.
  unfold outcome_inv. destruct (pc m) eqn:Hpc; try done.
  - intros [-> _] _. split; [apply prefix_nil|by left].
  - intros [_ Hrun] _. unfold prepared_trace. rewrite Hrun. split; [done|].
    right. by eexists.
Qed.

(** In what the two threads record, the thread has stated its exit once
    it stands at its end, and the metrics call its return once the calling
    thread is past it. *)
Lemma of_thread_elem c e : e ∈ of_thread c → e ∈ c.
Proof. unfold of_thread. by intros [_ ?]%list_elem_of_filter. Qed.

Lemma of_caller_elem c e : e ∈ of_caller c → e ∈ c.
Proof. unfold of_caller. by intros [_ ?]%list_elem_of_filter. Qed.

End Started.

(** X15. The clean-up of lines 65-66 removes every frame and nothing else:
    it returns normally, no path that the pattern accepts is left, and
    every other file is as it was. *)
Theorem delete_pngs_effect (video_path : string) (w : world) :
  ∃ w',
    delete_pngs video_path w = (Ok tt, w') ∧
    sorted_frames video_path (files w') = [] ∧
    ∀ p, files w' !! p =
         if is_frame_path video_path p then None else files w !! p.
Proof.
  eexists. split; [apply delete_pngs_run|]. cbn [files]. split.
  - rewrite sorted_frames_remove_paths. apply filter_not_elem_self.
  - intros p. rewrite lookup_remove_paths.
    case_decide as Hp.
    + by apply elem_of_sorted_frames in Hp as [-> _].
    + destruct (is_frame_path video_path p) eqn:Hfp; [|done].
      destruct (files w !! p) as [img|] eqn:Himg; [|done].
      destruct Hp. apply elem_of_sorted_frames. by split; [|exists img].
Qed.

Section Outcomes.

Variable compare_tool : option Z → option image → option image → string.
Variable resize_tool : image → Z → Z → option image.
Variable jpeg_tool : image → Z → Z → option image.
Variable video_path : string.
Variable iq : Z.

Local Abbreviation process_of :=
  (process compare_tool resize_tool jpeg_tool video_path iq).
Local Abbreviation prep := (prepared_files compare_tool resize_tool video_path).
Local Abbreviation ptrace := (prepared_trace compare_tool resize_tool video_path).

Lemma process_not_directory fs schedule :
  process_of false fs schedule = Machine MDone WNotStarted (World fs []).
Proof. unfold process, process_start. by apply run_idle. Qed.

(** X16. When [video_path] is not a directory, [process] does nothing:
    whatever the schedule, no thread moves, nothing is recorded and the
    files are as they were. *)
Theorem process_missing_directory
    (fs : gmap string image) (schedule : list thread) :
  process_of false fs schedule = Machine MDone WNotStarted (World fs []).
Proof. unfold process, process_start. by apply run_idle. Qed.

(** X17. The one exception a run of [process] can end in is the [IOError]
    of [Image.open] on a second frame that is no image. When the second
    frame, if there is one, can be opened, the calling thread stands at
    one of its program points or has returned, whatever the schedule.
    When it cannot, the run ends at line 32: the directory is as it was,
    and nothing but the scan has happened. (Nothing else removes files
    from the directory in between, and an external program fails through
    its exit status only.) *)
Theorem process_raises_only_for_unreadable_frame
    (isdir : bool) (fs : gmap string image) (schedule : list thread) :
  if second_frame_opens video_path fs
  then pc (process_of isdir fs schedule) ∈
         [MStart; MMetrics; MMetricsWait; MJoin; MCleanup; MDone]
  else pc (process_of isdir fs schedule) ∈ [MStart; MDone; MRaised IOError] ∧
       files (wd (process_of isdir fs schedule)) = fs ∧
       trace (wd (process_of isdir fs schedule)) `prefix_of`
         [EGlob (sorted_frames video_path fs)].
Proof.
  destruct isdir.
  2:{ rewrite process_not_directory. cbn [pc wd files trace].
      destruct (second_frame_opens video_path fs).
      - repeat constructor.
      - split; [repeat constructor|]. split; [done|apply prefix_nil]. }
  pose proof (process_outcome compare_tool resize_tool jpeg_tool video_path iq
                fs schedule) as Hinv.
  destruct (process_frames_prepared compare_tool resize_tool video_path fs)
    as (Hrun & _ & Hraise).
  set (m := process_of true fs schedule) in *.
  destruct (started (pc m)) eqn:Hst.
  - destruct (outcome_inv_started _ _ _ _ _ _ _ Hinv Hst) as (Hok & _).
    rewrite Hok in Hrun.
    destruct (second_frame_opens video_path fs); [|discriminate Hrun].
    destruct (pc m); try discriminate Hst; repeat constructor.
  - unfold outcome_inv in Hinv.
    destruct (pc m) eqn:Hpc; try discriminate Hst.
    + destruct Hinv as [Hw _]. rewrite Hw. cbn [files trace].
      destruct (second_frame_opens video_path fs); [repeat constructor|].
      split; [repeat constructor|]. split; [done|apply prefix_nil].
    + destruct Hinv as [_ Hraised]. rewrite Hraised in Hrun.
      destruct (second_frame_opens video_path fs); [discriminate Hrun|].
      injection Hrun as -> Hw. destruct (Hraise eq_refl) as [Hfs Htr].
      rewrite Hw, Hfs, Htr. cbn [files trace].
      split; [repeat constructor|]. done.
Qed.

(** X18. What a completed run of [process] leaves, whatever the schedule:
    the directory as the stages before the thread left it, with the jpegs
    of the frames that were kept and without those frames. No path that the
    pattern accepts is left, and every kept frame whose conversion
    succeeded has its jpeg in the directory. *)
Theorem process_final_directory
    (fs : gmap string image) (schedule : list thread) :
  pc (process_of true fs schedule) = MDone →
  files (wd (process_of true fs schedule)) =
    remove_paths (sorted_frames video_path (prep fs))
      (converted jpeg_tool iq (sorted_frames video_path (prep fs)) (prep fs)) ∧
  sorted_frames video_path (files (wd (process_of true fs schedule))) = [] ∧
  (∀ f img img', f ∈ sorted_frames video_path (prep fs) →
     prep fs !! f = Some img → jpeg_tool img VIDEO_SIZE iq = Some img' →
     files (wd (process_of true fs schedule)) !! jpg_path f = Some img').
Proof.
  intros Hdone.
  pose proof (process_outcome compare_tool resize_tool jpeg_tool video_path iq
                fs schedule) as Hinv.
  apply outcome_inv_started in Hinv; [|by rewrite Hdone].
  rewrite Hdone in Hinv.
  destruct Hinv as (_ & Hexit & c & now & _ & Hfiles & _ & _ & Hw).
  rewrite Hexit in Hw. destruct Hw as [-> _].
  pose proof (sorted_frames_Forall video_path (prep fs)) as Hall.
  split; [done|]. rewrite Hfiles. split.
  - rewrite sorted_frames_remove_paths, sorted_frames_converted by done.
    apply filter_not_elem_self.
  - intros f img img' Hf Himg Hconv.
    rewrite lookup_remove_paths, decide_False.
    + rewrite (converted_jpg jpeg_tool video_path);
        [|done|apply NoDup_sorted_frames|done].
      rewrite Himg. simpl. by rewrite Hconv.
    + intros Hin. apply elem_of_sorted_frames in Hin as [Hin _].
      rewrite Forall_forall in Hall.
      by rewrite (jpg_path_no_frame video_path f (Hall f Hf)) in Hin.
Qed.

(** X19. From the start of the thread until the join has returned, that
    is, during the whole call of the metrics program, the frames that the
    earlier stages kept are all in the directory, unchanged, whatever the
    thread has converted so far. *)
Theorem process_keeps_frames_until_cleanup
    (fs : gmap string image) (schedule : list thread) :
  pc (process_of true fs schedule) = MMetrics ∨
  pc (process_of true fs schedule) = MMetricsWait ∨
  pc (process_of true fs schedule) = MJoin ∨
  pc (process_of true fs schedule) = MCleanup →
  sorted_frames video_path (files (wd (process_of true fs schedule))) =
    sorted_frames video_path (prep fs) ∧
  (∀ p, is_frame_path video_path p = true →
     files (wd (process_of true fs schedule)) !! p = prep fs !! p).
Proof.
  intros Hpc.
  pose proof (process_outcome compare_tool resize_tool jpeg_tool video_path iq
                fs schedule) as Hinv.
  apply outcome_inv_started in Hinv;
    [|by destruct Hpc as [->|[->|[->| ->]]]].
  destruct Hinv as (_ & _ & c & now & _ & Hfiles & _ & _ & Hw).
  assert (files (wd (process_of true fs schedule)) = now) as ->.
  { by destruct Hpc as [Hpc|[Hpc|[Hpc|Hpc]]]; rewrite Hpc in Hfiles. }
  pose proof (sorted_frames_Forall video_path (prep fs)) as Hall.
  assert (∃ srcs, Forall (λ src, is_frame_path video_path src = true) srcs ∧
                  now = converted jpeg_tool iq srcs (prep fs)) as (srcs & Hsrcs & ->).
  { unfold worker_state in Hw.
    destruct (wk (process_of true fs schedule)) as [| |todo|]; [done| | |].
    - destruct Hw as [-> _]. by exists [].
    - destruct Hw as (done' & Hsplit & -> & _). exists done'.
      split; [|done]. rewrite Hsplit in Hall. by apply Forall_app in Hall as [? _].
    - destruct Hw as [-> _]. by eexists. }
  split.
  - by apply sorted_frames_converted.
  - intros p Hp. by apply (converted_frame jpeg_tool video_path).
Qed.

End Outcomes.

Lemma process_final_directory_witness :
  files (wd (process pixel_diff exact_resize exact_resize "/v" 75 true
               (directory_of sixty_frames) sixty_schedule)) =
    remove_paths
      (sorted_frames "/v"
         (prepared_files pixel_diff exact_resize "/v" (directory_of sixty_frames)))
      (converted exact_resize 75
         (sorted_frames "/v"
            (prepared_files pixel_diff exact_resize "/v" (directory_of sixty_frames)))
         (prepared_files pixel_diff exact_resize "/v" (directory_of sixty_frames))) ∧
  sorted_frames "/v"
    (files (wd (process pixel_diff exact_resize exact_resize "/v" 75 true
                  (directory_of sixty_frames) sixty_schedule))) = [] ∧
  (∀ f img img',
     f ∈ sorted_frames "/v"
           (prepared_files pixel_diff exact_resize "/v" (directory_of sixty_frames)) →
     prepared_files pixel_diff exact_resize "/v" (directory_of sixty_frames) !! f =
       Some img →
     exact_resize img VIDEO_SIZE 75 = Some img' →
     files (wd (process pixel_diff exact_resize exact_resize "/v" 75 true
                  (directory_of sixty_frames) sixty_schedule)) !! jpg_path f =
       Some img').
Proof.
  apply (process_final_directory pixel_diff exact_resize exact_resize "/v" 75
           (directory_of sixty_frames) sixty_schedule).
  vm_compute. reflexivity.
Defined.

Lemma process_keeps_frames_until_cleanup_witness :
  sorted_frames "/v"
    (files (wd (process pixel_diff exact_resize exact_resize "/v" 75 true
                  (directory_of sixty_frames)
                  [Main; Worker; Worker; Worker; Main]))) =
    sorted_frames "/v"
      (prepared_files pixel_diff exact_resize "/v" (directory_of sixty_frames)) ∧
  (∀ p, is_frame_path "/v" p = true →
     files (wd (process pixel_diff exact_resize exact_resize "/v" 75 true
                  (directory_of sixty_frames)
                  [Main; Worker; Worker; Worker; Main])) !! p =
     prepared_files pixel_diff exact_resize "/v" (directory_of sixty_frames) !! p).
Proof.
  apply (process_keeps_frames_until_cleanup pixel_diff exact_resize exact_resize
           "/v" 75 (directory_of sixty_frames)
           [Main; Worker; Worker; Worker; Main]).
  right. left. vm_compute. reflexivity.
Defined.

(** On [torn_shots] the run ends at line 32 with the [IOError] of
    [Image.open], after the scan of the normalizer and before anything is
    changed or started, whatever the jpeg thread is asked to do. *)
Lemma process_raises_on_torn_frame :
  second_frame_opens "/v" torn_shots = false ∧
  pc (process pixel_diff exact_resize exact_resize "/v" 75 true
        torn_shots [Worker; Main; Worker; Main]) = MRaised IOError ∧
  wk (process pixel_diff exact_resize exact_resize "/v" 75 true
        torn_shots [Worker; Main; Worker; Main]) = WNotStarted ∧
  trace (wd (process pixel_diff exact_resize exact_resize "/v" 75 true
               torn_shots [Worker; Main; Worker; Main])) =
    [EGlob ["/v/ms_000000.png"; "/v/ms_000100.png"; "/v/ms_000200.png";
            "/v/ms_000300.png"]] ∧
  files (wd (process pixel_diff exact_resize exact_resize "/v" 75 true
               torn_shots [Worker; Main; Worker; Main])) !! "/v/ms_000000.png" =
    Some (Image 8 6 [1; 1]).
Proof. repeat split; by vm_compute. Qed.

(** ** The stages before the thread *)

Section Decimation.

Variable compare_tool : option Z → option image → option image → string.
Variable resize_tool : image → Z → Z → option image.
Variable video_path : string.

(** The normalizer rewrites one frame in place: the same paths exist
    afterwards, and no file other than a frame is touched. It raises when
    the second frame cannot be opened, and then no file has changed. *)
Lemma resize_initial_frame_paths w :
  ∃ fs' t,
    resize_initial_frame resize_tool video_path w =
      (if second_frame_opens video_path (files w) then Ok tt else Raise IOError,
       World fs' (trace w ++ t)) ∧
    sorted_frames video_path fs' = sorted_frames video_path (files w) ∧
    (∀ p, is_frame_path video_path p = false → fs' !! p = files w !! p) ∧
    (second_frame_opens video_path (files w) = false → fs' = files w).
Proof.
  unfold second_frame_opens.
  destruct (sorted_frames video_path (files w)) as [|first [|second rest]] eqn:Hscan.
  - eexists _, _. split; [|done].
    rewrite resize_initial_frame_short by (rewrite Hscan; simpl; lia). done.
  - eexists _, _. split; [|done].
    rewrite resize_initial_frame_short by (rewrite Hscan; simpl; lia). done.
  - assert (first ∈ sorted_frames video_path (files w)) as Hfirst
      by (rewrite Hscan; apply list_elem_of_here).
    assert (second ∈ sorted_frames video_path (files w)) as Hsecond
      by (rewrite Hscan; apply list_elem_of_further, list_elem_of_here).
    apply elem_of_sorted_frames in Hfirst as [Hff [img0 Himg0]].
    apply elem_of_sorted_frames in Hsecond as [_ [img1 Himg1]].
    rewrite Himg1. simpl. destruct (decodable img1) eqn:Hdec.
    2:{ eexists _, _.
        split; [by apply (resize_initial_frame_undecodable _ _ _ _ _ _ _ Hscan Himg1)|].
        by rewrite Hscan. }
    eexists _, _.
    split; [by apply (resize_initial_frame_long _ _ _ _ _ _ _ Hscan Himg1)|].
    rewrite Himg0.
    destruct (resize_tool img0 (im_width img1) (im_height img1)) as [img0'|];
      [|by rewrite Hscan].
    rewrite <- Hscan. split; [|split; [|done]].
    + apply sorted_frames_same_frames. intros p _.
      destruct (decide (p = first)) as [->|Hne].
      * rewrite lookup_insert_eq, Himg0. split; by eexists.
      * by rewrite lookup_insert_ne.
    + intros p Hp. apply lookup_insert_ne. intros ->. congruence.
Qed.

Lemma cap_frame_count_paths maxframes w :
  ∃ fs' t,
    cap_frame_count video_path maxframes w = (Ok tt, World fs' (trace w ++ t)) ∧
    sorted_frames video_path fs' `sublist_of` sorted_frames video_path (files w) ∧
    sorted_frames video_path fs' !! 0%nat =
      sorted_frames video_path (files w) !! 0%nat ∧
    (∀ p, is_frame_path video_path p = false → fs' !! p = files w !! p).
Proof.
  rewrite cap_frame_count_capper_run.
  destruct (capper_run_shrinks video_path maxframes 3 NeedsPass1 w)
    as (removed & t & Hrun & Hsub & Hpin).
  eexists _, t. split; [done|]. split; [|split].
  - rewrite sorted_frames_remove_paths. apply sublist_filter.
  - unfold pinned in Hpin. by injection Hpin.
  - intros p Hp. rewrite lookup_remove_paths, decide_False; [done|].
    intros Hin. apply Hsub, elem_of_sorted_frames in Hin as [Hin _]. congruence.
Qed.

Lemma eliminate_duplicate_frames_paths w :
  ∃ fs' t,
    eliminate_duplicate_frames compare_tool video_path w =
      (Ok tt, World fs' (trace w ++ t)) ∧
    sorted_frames video_path fs' `sublist_of` sorted_frames video_path (files w) ∧
    sorted_frames video_path fs' !! 0%nat =
      sorted_frames video_path (files w) !! 0%nat ∧
    (∀ p, is_frame_path video_path p = false → fs' !! p = files w !! p).
Proof.
  destruct (sorted_frames video_path (files w)) as [|first rest] eqn:Hscan.
  { exists (files w), [EGlob []]. split.
    - unfold eliminate_duplicate_frames. rewrite bind_run. unfold glob_frames.
      rewrite Hscan. by rewrite decide_False by (simpl; lia).
    - by rewrite Hscan. }
  eexists _, _. split; [by apply eliminate_duplicate_frames_run|].
  rewrite (eliminate_duplicate_frames_scan _ _ _ _ _ Hscan).
  split; [|split; [done|]].
  - apply sublist_skip, dedup_keep_sublist.
  - intros p Hp. rewrite lookup_remove_paths, decide_False; [done|].
    intros Hin.
    assert (p ∈ sorted_frames video_path (files w)) as Hin'.
    { rewrite Hscan. apply list_elem_of_further.
      eapply elem_of_sublist; [done|apply dedup_removals_sublist]. }
    apply elem_of_sorted_frames in Hin' as [Hin' _]. congruence.
Qed.

(** X20. The stages before the thread only take frames away, and never
    the first one. They return normally when the second frame, if there is
    one, can be opened, and otherwise raise the [IOError] of [Image.open]
    with the directory as it was. Either way the scan after them is a part
    of the scan before them and starts with the same frame, so a directory
    with a frame keeps one; and no file other than a frame is touched. *)
Theorem process_frames_keeps_first_frame (w : world) :
  ∃ w',
    process_frames compare_tool resize_tool video_path w =
      (if second_frame_opens video_path (files w) then Ok tt else Raise IOError,
       w') ∧
    sorted_frames video_path (files w') `sublist_of`
      sorted_frames video_path (files w) ∧
    sorted_frames video_path (files w') !! 0%nat =
      sorted_frames video_path (files w) !! 0%nat ∧
    (∀ p, is_frame_path video_path p = false → files w' !! p = files w !! p) ∧
    (second_frame_opens video_path (files w) = false → files w' = files w).
Proof.
  unfold process_frames.
  destruct (resize_initial_frame_paths w)
    as (fs1 & t1 & Hrun1 & Hscan1 & Hno1 & Hraise).
  rewrite bind_run, Hrun1.
  destruct (second_frame_opens video_path (files w)).
  2:{ eexists. split; [done|]. cbn [files]. rewrite Hscan1.
      split; [done|]. split; [done|]. split; [done|]. intros _. by apply Hraise. }
  destruct (cap_frame_count_paths 50 (World fs1 (trace w ++ t1)))
    as (fs2 & t2 & Hrun2 & Hsub2 & Hhd2 & Hno2).
  destruct (eliminate_duplicate_frames_paths (World fs2 ((trace w ++ t1) ++ t2)))
    as (fs3 & t3 & Hrun3 & Hsub3 & Hhd3 & Hno3).
  cbn [files trace] in *.
  eexists. split.
  { rewrite bind_run, Hrun2. exact Hrun3. }
  cbn [files]. split; [|split; [|split; [|done]]].
  - rewrite <- Hscan1. by etrans.
  - by rewrite Hhd3, Hhd2, Hscan1.
  - intros p Hp. by rewrite Hno3, Hno2, Hno1.
Qed.

End Decimation.

(** ** The jpeg thread *)

Section Thread.

Variable compare_tool : option Z → option image → option image → string.
Variable resize_tool : image → Z → Z → option image.
Variable jpeg_tool : image → Z → Z → option image.
Variable video_path : string.
Variable iq : Z.

Local Abbreviation run_of :=
  (run compare_tool resize_tool jpeg_tool video_path iq).

Lemma run_convert_all p todo w :
  run_of (replicate (length todo) Worker) (Machine p (WConvert todo) w) =
    Machine p (WConvert []) (convert_all jpeg_tool iq todo w).2.
Proof.
  revert w. induction todo as [|src todo IH]; intros w; [done|].
  cbn [length replicate]. unfold run in *. cbn [foldl].
  assert (step compare_tool resize_tool jpeg_tool video_path iq Worker
            (Machine p (WConvert (src :: todo)) w) =
          Machine p (WConvert todo) (convert_one jpeg_tool iq src w).2) as ->.
  { reflexivity. }
  rewrite IH. cbn [convert_all]. rewrite bind_run. reflexivity.
Qed.

(** X21. The jpeg thread of the two-thread model is [convert_to_jpeg]: left
    to run without interruption from its start, with one step for the scan,
    one for each frame and one to return, it leaves the world that
    [convert_to_jpeg] leaves, and has exited. *)
Theorem worker_runs_convert_to_jpeg (p : main_pc) (w : world) :
  run_of (replicate (length (sorted_frames video_path (files w)) + 2) Worker)
         (Machine p WScan w) =
    Machine p WExited
      (emit EThreadExit (convert_to_jpeg jpeg_tool video_path iq w).2).2.
Proof.
  replace (length (sorted_frames video_path (files w)) + 2)%nat
    with (1 + (length (sorted_frames video_path (files w)) + 1))%nat by lia.
  rewrite !replicate_add. pose proof run_convert_all as Hconv.
  unfold run in *. rewrite !foldl_app.
  assert (foldl (λ m t, step compare_tool resize_tool jpeg_tool video_path iq t m)
            (Machine p WScan w) (replicate 1 Worker) =
          Machine p (WConvert (sorted_frames video_path (files w)))
            (glob_frames video_path w).2) as ->.
  { reflexivity. }
  rewrite Hconv.
  unfold convert_to_jpeg. rewrite bind_run. reflexivity.
Qed.

End Thread.

(** ** The order of the stages *)

Lemma only_weaken ks ks' t : only ks t → ks ⊆ ks' → only ks' t.
Proof.
  unfold only. intros Ht Hsub. eapply Forall_impl; [exact Ht|].
  intros e He. by apply Hsub.
Qed.

Lemma only_app ks t1 t2 : only ks t1 → only ks t2 → only ks (t1 ++ t2).
Proof. intros. by apply Forall_app. Qed.

Lemma only_not_elem ks t e : only ks t → kind_of e ∉ ks → e ∉ t.
Proof.
  unfold only. rewrite Forall_forall. intros Ht Hk Hin. by apply Hk, Ht.
Qed.

Lemma prepared_kinds pre :
  prepared pre → only [KGlob; KResize; KSample; KRemove; KCompare] pre.
Proof.
  intros (t1 & t2 & t3 & -> & H1 & H2 & H3).
  repeat apply only_app; (eapply only_weaken; [eassumption|]);
    intros k Hk; apply (bool_decide_unpack _);
    repeat (apply elem_of_cons in Hk as [->|Hk]; [by vm_compute|]);
    by apply elem_of_nil in Hk.
Qed.

(** Where an event of a trace [pre ++ EThreadStart :: c ++ cl] lies. *)
Lemma lookup_started pre c cl j e :
  (pre ++ EThreadStart :: c ++ cl) !! j = Some e →
  ((j < length pre)%nat ∧ pre !! j = Some e) ∨
  (j = length pre ∧ e = EThreadStart) ∨
  (∃ i, j = (length pre + 1 + i)%nat ∧ c !! i = Some e) ∨
  (∃ i, j = (length pre + 1 + length c + i)%nat ∧ cl !! i = Some e).
Proof.
  intros H. apply lookup_app_Some in H as [H|[Hge H]].
  { left. split; [by eapply lookup_lt_Some|done]. }
  right. destruct (j - length pre)%nat as [|n] eqn:Hn.
  { left. simpl in H. split; [lia|congruence]. }
  right. simpl in H. apply lookup_app_Some in H as [H|[Hge' H]].
  - left. exists n. split; [lia|done].
  - right. exists (n - length c)%nat. split; [lia|done].
Qed.

Lemma lookup_started_elem pre c cl e :
  e ∈ c → ∃ i, (pre ++ EThreadStart :: c ++ cl) !! (length pre + 1 + i)%nat = Some e ∧
               (i < length c)%nat.
Proof.
  intros [i Hi]%list_elem_of_lookup. exists i.
  split; [|by eapply lookup_lt_Some].
  rewrite lookup_app_r by lia.
  replace (length pre + 1 + i - length pre)%nat with (S i) by lia.
  simpl. by rewrite lookup_app_l by (by eapply lookup_lt_Some).
Qed.

Section StageTraces.

Variable compare_tool : option Z → option image → option image → string.
Variable resize_tool : image → Z → Z → option image.
Variable video_path : string.

(** Each stage begins with a scan of the directory as it finds it. *)
Lemma resize_initial_frame_scan w :
  ∃ fs' t1,
    resize_initial_frame resize_tool video_path w =
      (if second_frame_opens video_path (files w) then Ok tt else Raise IOError,
       World fs' (trace w ++ EGlob (sorted_frames video_path (files w)) :: t1)) ∧
    only [KGlob; KResize] t1.
Proof.
  unfold second_frame_opens.
  destruct (sorted_frames video_path (files w)) as [|first [|second rest]] eqn:Hscan.
  - exists (files w), []. split; [|constructor].
    rewrite resize_initial_frame_short by (rewrite Hscan; simpl; lia).
    by rewrite Hscan.
  - exists (files w), []. split; [|constructor].
    rewrite resize_initial_frame_short by (rewrite Hscan; simpl; lia).
    by rewrite Hscan.
  - destruct (sorted_frames_present video_path (files w) second) as [img1 Himg1].
    { rewrite Hscan. apply list_elem_of_further, list_elem_of_here. }
    rewrite Himg1. simpl. destruct (decodable img1) eqn:Hdec.
    + eexists _, [_]. split.
      * by apply (resize_initial_frame_long _ _ first second rest img1).
      * constructor; [kind_in|constructor].
    + eexists _, []. split; [|constructor].
      by apply (resize_initial_frame_undecodable _ _ first second rest img1).
Qed.

Lemma cap_frame_count_scan maxframes w :
  ∃ fs' t2,
    cap_frame_count video_path maxframes w =
      (Ok tt,
       World fs' (trace w ++ EGlob (sorted_frames video_path (files w)) :: t2)) ∧
    only [KGlob; KSample; KRemove] t2.
Proof.
  rewrite cap_frame_count_capper_run, capper_run_step. cbn [pass_of].
  unfold glob_frames. set (found := sorted_frames video_path (files w)).
  case_decide as Hover.
  2:{ exists (files w), []. split; [done|constructor]. }
  rewrite sample_frames_ok;
    [|lia|apply NoDup_sorted_frames|apply sorted_frames_present].
  cbn [files trace].
  set (out := sampled_out found 100 0 (quota 2 maxframes)).
  destruct (capper_run_trace video_path maxframes 2 NeedsPass2
              (World (remove_paths out (files w))
                 ((trace w ++ [EGlob found]) ++
                  ESample 100 0 (quota 2 maxframes) found :: (ERemove <$> out))))
    as (t & -> & _ & _ & Honly); [simpl; lia|].
  cbn [files trace].
  eexists _, (ESample 100 0 (quota 2 maxframes) found :: (ERemove <$> out) ++ t).
  split.
  - f_equal. f_equal. rewrite <- !app_assoc. reflexivity.
  - constructor; [kind_in|]. apply only_app; [apply only_ERemove; kind_in|done].
Qed.

Lemma eliminate_duplicate_frames_scan_first w :
  ∃ fs' t3,
    eliminate_duplicate_frames compare_tool video_path w =
      (Ok tt,
       World fs' (trace w ++ EGlob (sorted_frames video_path (files w)) :: t3)) ∧
    only [KGlob; KCompare; KRemove] t3.
Proof.
  destruct (sorted_frames video_path (files w)) as [|first rest] eqn:Hscan.
  - exists (files w), []. split; [|constructor].
    unfold eliminate_duplicate_frames. rewrite bind_run. unfold glob_frames.
    rewrite Hscan. cbv beta iota zeta. by rewrite decide_False by (simpl; lia).
  - eexists _, _. split.
    + by apply eliminate_duplicate_frames_run.
    + apply dedup_events_only.
Qed.

(** Lines 26-49, when the second frame can be opened: the normalizer,
    then the capper on what the normalizer left, then the duplicate
    eliminator on what the capper left. *)
Lemma process_frames_stages fs :
  second_frame_opens video_path fs = true →
  ∃ w1 w2 w3 t1 t2 t3,
    resize_initial_frame resize_tool video_path (World fs []) = (Ok tt, w1) ∧
    cap_frame_count video_path 50 w1 = (Ok tt, w2) ∧
    eliminate_duplicate_frames compare_tool video_path w2 = (Ok tt, w3) ∧
    process_frames compare_tool resize_tool video_path (World fs []) = (Ok tt, w3) ∧
    trace w1 = t1 ∧ trace w2 = t1 ++ t2 ∧ trace w3 = t1 ++ t2 ++ t3 ∧
    head t1 = Some (EGlob (sorted_frames video_path fs)) ∧
    head t2 = Some (EGlob (sorted_frames video_path (files w1))) ∧
    head t3 = Some (EGlob (sorted_frames video_path (files w2))) ∧
    only [KGlob; KResize] t1 ∧ only [KGlob; KSample; KRemove] t2 ∧
    only [KGlob; KCompare; KRemove] t3.
Proof.
  intros Hopens.
  destruct (resize_initial_frame_scan (World fs [])) as (fs1 & t1 & Hrun1 & H1).
  cbn [files trace app] in Hrun1. rewrite Hopens in Hrun1.
  destruct (cap_frame_count_scan 50 (World fs1 (EGlob (sorted_frames video_path fs) :: t1)))
    as (fs2 & t2 & Hrun2 & H2).
  cbn [files trace] in Hrun2.
  destruct (eliminate_duplicate_frames_scan_first
              (World fs2 ((EGlob (sorted_frames video_path fs) :: t1) ++
                          EGlob (sorted_frames video_path fs1) :: t2)))
    as (fs3 & t3 & Hrun3 & H3).
  cbn [files trace] in Hrun3.
  eexists _, _, _, (EGlob (sorted_frames video_path fs) :: t1),
    (EGlob (sorted_frames video_path fs1) :: t2),
    (EGlob (sorted_frames video_path fs2) :: t3).
  split; [exact Hrun1|]. split; [exact Hrun2|]. split; [exact Hrun3|].
  split.
  { unfold process_frames. by rewrite bind_run, Hrun1, bind_run, Hrun2, Hrun3. }
  cbn [files trace head]. split; [done|]. split; [done|].
  split; [by rewrite <- app_assoc|].
  repeat (split; [done|]).
  split; [constructor; [kind_in|done]|].
  split; [constructor; [kind_in|done]|].
  constructor; [kind_in|done].
Qed.

End StageTraces.

Lemma cleanup_so_far_only kept p :
  only [KJoin; KGlob; KRemove] (cleanup_so_far kept p).
Proof.
  destruct p; cbn [cleanup_so_far]; unfold only;
    repeat (constructor; [kind_in|]);
    first [by constructor|apply only_ERemove; kind_in].
Qed.

Lemma lookup_started_cleanup pre c cl i :
  (pre ++ EThreadStart :: c ++ cl) !! (length pre + 1 + length c + i)%nat = cl !! i.
Proof.
  rewrite lookup_app_r by lia.
  replace (length pre + 1 + length c + i - length pre)%nat
    with (S (length c + i)) by lia.
  simpl. rewrite lookup_app_r by lia. f_equal. lia.
Qed.

(** No event of the decimation is of a kind of the two threads. *)
Lemma prepared_not_concurrent pre e :
  prepared pre → e ∈ pre →
  kind_of e ∉ [KThreadStart; KJpeg; KThreadExit; KMetricsCall; KMetricsReturn; KJoin].
Proof.
  intros Hpre He Hk. apply prepared_kinds in Hpre.
  unfold only in Hpre. rewrite Forall_forall in Hpre. specialize (Hpre e He).
  revert Hk Hpre. generalize (kind_of e). intros k Hk Hp.
  destruct k;
    first [by apply (bool_decide_pack _) in Hk; vm_compute in Hk
          |by apply (bool_decide_pack _) in Hp; vm_compute in Hp].
Qed.

Section Order.

Variable compare_tool : option Z → option image → option image → string.
Variable resize_tool : image → Z → Z → option image.
Variable jpeg_tool : image → Z → Z → option image.
Variable video_path : string.
Variable iq : Z.

Local Abbreviation process_of :=
  (process compare_tool resize_tool jpeg_tool video_path iq).
Local Abbreviation prep := (prepared_files compare_tool resize_tool video_path).
Local Abbreviation ptrace := (prepared_trace compare_tool resize_tool video_path).

(** What a run on a directory has recorded: nothing of the two threads as
    long as the thread has not been started, and from then on the whole
    trace of the stages before the thread, the start of the thread, what
    the two threads did side by side, and the cleanup. *)
Lemma process_trace_cases fs schedule :
  let m := process_of true fs schedule in
  (trace (wd m) `prefix_of` ptrace fs ∧ started (pc m) = false) ∨
  (second_frame_opens video_path fs = true ∧
   process_frames compare_tool resize_tool video_path (World fs []) =
     (Ok tt, World (prep fs) (ptrace fs)) ∧
   match pc m with MCleanup | MDone => wk m = WExited | _ => True end ∧
   ∃ c now,
     trace (wd m) =
       ptrace fs ++ EThreadStart :: c ++
         cleanup_so_far (sorted_frames video_path (prep fs)) (pc m) ∧
     only [KGlob; KJpeg; KThreadExit; KMetricsCall; KMetricsReturn] c ∧
     of_caller c = caller_so_far (pc m) ∧
     worker_state compare_tool resize_tool jpeg_tool video_path iq
       fs (wk m) now (of_thread c)).
Proof.
  intros m.
  pose proof (process_outcome compare_tool resize_tool jpeg_tool video_path iq
                fs schedule) as Hinv.
  fold m in Hinv. destruct (started (pc m)) eqn:Hst.
  - right.
    destruct (outcome_inv_started _ _ _ _ _ _ _ Hinv Hst)
      as (Hok & Hexit & c & now & Ht & _ & Hc & Hcaller & Hw).
    destruct (process_frames_prepared compare_tool resize_tool video_path fs)
      as (Hrun & _).
    rewrite Hok in Hrun.
    destruct (second_frame_opens video_path fs); [|discriminate Hrun].
    split; [done|]. split; [done|]. split; [done|]. by exists c, now.
  - left. split; [|done].
    by destruct (outcome_inv_not_started _ _ _ _ _ _ _ Hinv Hst).
Qed.

(** Once the thread has exited and the metrics call has returned, the
    exit and the return are on record, after the start of the thread and
    before whatever follows. *)
Lemma finished_threads_recorded fs c now cl :
  of_caller c = [EMetricsCall; EMetricsReturn] →
  worker_state compare_tool resize_tool jpeg_tool video_path iq
    fs WExited now (of_thread c) →
  ∃ x y,
    (ptrace fs ++ EThreadStart :: c ++ cl) !! x = Some EThreadExit ∧
    (ptrace fs ++ EThreadStart :: c ++ cl) !! y = Some EMetricsReturn ∧
    (length (ptrace fs) < x)%nat ∧ (length (ptrace fs) < y)%nat ∧
    (x < length (ptrace fs) + 1 + length c)%nat ∧
    (y < length (ptrace fs) + 1 + length c)%nat.
Proof.
  intros Hcaller [_ Hthread].
  assert (Hx : EThreadExit ∈ c).
  { apply of_thread_elem. rewrite Hthread. unfold thread_trace.
    apply list_elem_of_further, elem_of_app. right. apply list_elem_of_here. }
  assert (Hy : EMetricsReturn ∈ c).
  { apply of_caller_elem. rewrite Hcaller.
    apply list_elem_of_further, list_elem_of_here. }
  destruct (lookup_started_elem (ptrace fs) c cl _ Hx) as (ix & Hix & Hlx).
  destruct (lookup_started_elem (ptrace fs) c cl _ Hy) as (iy & Hiy & Hly).
  exists (length (ptrace fs) + 1 + ix)%nat, (length (ptrace fs) + 1 + iy)%nat.
  repeat split; (done || lia).
Qed.

(** C1, as amended. The stages of [process] run in this order, whatever
    the schedule. Once the start of the transcoder thread is on record,
    the normalizer has run on the directory as it was, the capper on what
    the normalizer left and the duplicate eliminator on what the capper
    left, all three to their end: each of them begins with its scan of the
    directory, their three traces, one after the other, are what the run
    recorded before the start of the thread, and nothing of them comes
    after it. A completed run has recorded, after the start of the thread,
    the conversion of every frame that the three stages kept and the exit
    of the thread, interleaved with the call of the metrics program and
    its return, then the join and the removal of each of these frames.
    Event by event: the resize comes before every pass of the capper,
    every pass before every comparison of the eliminator, every comparison
    before the start of the thread, the conversions and the metrics call
    after that start and before the join, as do the return of the call and
    the exit of the thread; and a removal after the start of the thread
    follows the join. When the second frame can be opened, some schedule
    takes the run to its end. *)
Theorem process_stage_order
    (isdir : bool) (fs : gmap string image) (schedule : list thread) :
  let t := trace (wd (process_of isdir fs schedule)) in
  (EThreadStart ∈ t →
   ∃ w1 w2 w3 t1 t2 t3 c,
     resize_initial_frame resize_tool video_path (World fs []) = (Ok tt, w1) ∧
     cap_frame_count video_path 50 w1 = (Ok tt, w2) ∧
     eliminate_duplicate_frames compare_tool video_path w2 = (Ok tt, w3) ∧
     trace w1 = t1 ∧ trace w2 = t1 ++ t2 ∧ trace w3 = t1 ++ t2 ++ t3 ∧
     head t1 = Some (EGlob (sorted_frames video_path fs)) ∧
     head t2 = Some (EGlob (sorted_frames video_path (files w1))) ∧
     head t3 = Some (EGlob (sorted_frames video_path (files w2))) ∧
     only [KGlob; KResize] t1 ∧
     only [KGlob; KSample; KRemove] t2 ∧
     only [KGlob; KCompare; KRemove] t3 ∧
     t = t1 ++ t2 ++ t3 ++ EThreadStart :: c ∧
     only [KGlob; KJpeg; KThreadExit; KMetricsCall; KMetricsReturn; KJoin; KRemove] c) ∧
  (pc (process_of isdir fs schedule) = MDone → isdir = true →
   ∃ w3 c,
     process_frames compare_tool resize_tool video_path (World fs []) = (Ok tt, w3) ∧
     t = trace w3 ++ EThreadStart :: c ++
           EJoin :: EGlob (sorted_frames video_path (files w3)) ::
             (ERemove <$> sorted_frames video_path (files w3)) ∧
     only [KGlob; KJpeg; KThreadExit; KMetricsCall; KMetricsReturn] c ∧
     of_thread c = thread_trace (sorted_frames video_path (files w3)) ∧
     of_caller c = [EMetricsCall; EMetricsReturn]) ∧
  all_before KResize KSample t ∧
  all_before KSample KCompare t ∧
  all_before KCompare KThreadStart t ∧
  all_before KThreadStart KJpeg t ∧
  all_before KThreadStart KMetricsCall t ∧
  all_before KJpeg KJoin t ∧
  all_before KThreadExit KJoin t ∧
  all_before KMetricsReturn KJoin t ∧
  (∀ i r p, t !! i = Some EThreadStart → t !! r = Some (ERemove p) → (i < r)%nat →
     ∃ z, t !! z = Some EJoin ∧ (z < r)%nat) ∧
  (second_frame_opens video_path fs = true →
   ∃ complete, pc (process_of true fs complete) = MDone).
Proof.
  intros t. split.
  { intros Hstart. destruct isdir.
    2:{ subst t. rewrite process_not_directory in Hstart.
        by apply elem_of_nil in Hstart. }
    destruct (process_trace_cases fs schedule)
      as [[Hprefix _]|(Hopens & Hok & _ & c & now & Ht & Hc & _)].
    { destruct (process_frames_prepared compare_tool resize_tool video_path fs)
        as (_ & Hprep & _).
      destruct Hprefix as [rest Hrest].
      destruct (prepared_not_concurrent _ EThreadStart Hprep).
      - rewrite Hrest. apply elem_of_app. by left.
      - kind_in. }
    destruct (process_frames_stages compare_tool resize_tool video_path fs Hopens)
      as (w1 & w2 & w3 & t1 & t2 & t3 & H1 & H2 & H3 & H123 & Ht1 & Ht2 & Ht3 &
          Hh1 & Hh2 & Hh3 & Ho1 & Ho2 & Ho3).
    rewrite Hok in H123. injection H123 as <-. cbn [trace] in Ht3.
    exists w1, w2, (World (prep fs) (ptrace fs)), t1, t2, t3,
      (c ++ cleanup_so_far (sorted_frames video_path (prep fs))
              (pc (process_of true fs schedule))).
    repeat (split; [done|]). split.
    - subst t. rewrite Ht, Ht3. by rewrite <- !app_assoc.
    - apply only_app.
      + eapply only_weaken; [exact Hc|]. intros k Hk.
        apply (bool_decide_unpack _).
        repeat (apply elem_of_cons in Hk as [->|Hk]; [by vm_compute|]).
        by apply elem_of_nil in Hk.
      + eapply only_weaken; [apply cleanup_so_far_only|]. intros k Hk.
        apply (bool_decide_unpack _).
        repeat (apply elem_of_cons in Hk as [->|Hk]; [by vm_compute|]).
        by apply elem_of_nil in Hk. }
  split.
  { intros Hdone ->.
    destruct (process_trace_cases fs schedule)
      as [[_ Hst]|(_ & Hok & Hexit & c & now & Ht & Hc & Hcaller & Hw)].
    { by rewrite Hdone in Hst. }
    rewrite Hdone in Hexit, Ht, Hcaller. rewrite Hexit in Hw.
    destruct Hw as [_ Hthread].
    exists (World (prep fs) (ptrace fs)), c. by cbn [files trace]. }
  destruct (machine_inv_shape (process_of isdir fs schedule))
    as (t1 & t2 & t3 & s & c & j & cl & Ht & HF & Hc & Hj).
  { apply run_inv, process_start_inv. }
  subst t. rewrite Ht.
  repeat (split; [by apply (all_before_segments _ _ _ _ HF)|]).
  split; [|apply process_completes].
  intros i r p Hi Hr Hir.
  destruct (shaped_removal_after_join _ _ _ _ _ _ _ HF Hj i r p Hi Hr Hir)
    as (x & y & z & _ & _ & Hz & _ & _ & Hzr).
  by exists z.
Qed.

(** C9. In every run of [process], whatever the schedule, the transcoder
    and the analyzer start after the decimation, and the cleanup after
    both have finished. Whenever the run has recorded a conversion, the
    exit of the thread, the call of the metrics program or its return,
    the three stages before the thread have run to their end, their whole
    trace is the beginning of the run's, the start of the thread is the
    very next event, and the event in question comes after it. Every
    removal on record is either one of those stages' or comes after the
    join, which comes after both the exit of the thread and the return of
    the metrics call, themselves after the decimation; and it removes a
    frame that the stages kept. A completed run has the exit, the return,
    then the join, and after the join the removal of every frame that the
    stages kept. Kind by kind: all conversions come before the exit of the
    thread; the resize, the passes of the capper and the comparisons of
    the eliminator come before the start of the thread, before the metrics
    call and before every conversion; and the start of the thread comes
    before every conversion, before the metrics call and before the join. *)
Theorem process_cleanup_after_join
    (isdir : bool) (fs : gmap string image) (schedule : list thread) :
  let t := trace (wd (process_of isdir fs schedule)) in
  (∀ j e, t !! j = Some e →
     kind_of e ∈ [KJpeg; KThreadExit; KMetricsCall; KMetricsReturn] →
     ∃ w3,
       process_frames compare_tool resize_tool video_path (World fs []) = (Ok tt, w3) ∧
       trace w3 `prefix_of` t ∧
       t !! length (trace w3) = Some EThreadStart ∧
       (length (trace w3) < j)%nat) ∧
  (∀ r p, t !! r = Some (ERemove p) →
     ∃ w3,
       process_frames compare_tool resize_tool video_path (World fs []) = (Ok tt, w3) ∧
       trace w3 `prefix_of` t ∧
       ((r < length (trace w3))%nat ∨
        ∃ x y z,
          t !! x = Some EThreadExit ∧ t !! y = Some EMetricsReturn ∧
          t !! z = Some EJoin ∧
          (length (trace w3) < x)%nat ∧ (length (trace w3) < y)%nat ∧
          (x < z)%nat ∧ (y < z)%nat ∧ (z < r)%nat ∧
          p ∈ sorted_frames video_path (files w3))) ∧
  (pc (process_of isdir fs schedule) = MDone → isdir = true →
   ∃ w3 x y z,
     process_frames compare_tool resize_tool video_path (World fs []) = (Ok tt, w3) ∧
     t !! x = Some EThreadExit ∧ t !! y = Some EMetricsReturn ∧
     t !! z = Some EJoin ∧
     (length (trace w3) < x)%nat ∧ (length (trace w3) < y)%nat ∧
     (x < z)%nat ∧ (y < z)%nat ∧
     ∀ f, f ∈ sorted_frames video_path (files w3) →
          ∃ r, (z < r)%nat ∧ t !! r = Some (ERemove f)) ∧
  all_before KJpeg KThreadExit t ∧
  all_before KResize KThreadStart t ∧
  all_before KSample KThreadStart t ∧
  all_before KCompare KThreadStart t ∧
  all_before KResize KMetricsCall t ∧
  all_before KSample KMetricsCall t ∧
  all_before KCompare KMetricsCall t ∧
  all_before KResize KJpeg t ∧
  all_before KSample KJpeg t ∧
  all_before KCompare KJpeg t ∧
  all_before KThreadStart KJpeg t ∧
  all_before KThreadStart KMetricsCall t ∧
  all_before KThreadStart KJoin t.
Proof.
  intros t.
  split.
  { intros j e Hj Hk. destruct isdir.
    2:{ subst t. by rewrite process_not_directory in Hj. }
    destruct (process_frames_prepared compare_tool resize_tool video_path fs)
      as (_ & Hprep & _).
    destruct (process_trace_cases fs schedule)
      as [[Hprefix _]|(_ & Hok & _ & c & now & Ht & Hc & _)].
    { destruct Hprefix as [rest Hrest].
      destruct (prepared_not_concurrent _ e Hprep).
      - rewrite Hrest. apply elem_of_app. left. by eapply list_elem_of_lookup_2.
      - revert Hk. generalize (kind_of e). intros k Hk.
        apply (bool_decide_unpack _).
        repeat (apply elem_of_cons in Hk as [->|Hk]; [by vm_compute|]).
        by apply elem_of_nil in Hk. }
    exists (World (prep fs) (ptrace fs)). cbn [trace]. split; [done|].
    subst t. rewrite Ht. split; [by eexists|].
    split; [by rewrite list_lookup_middle|].
    rewrite Ht in Hj.
    apply lookup_started in Hj as [[_ Hj]|[[_ ->]|[(i & -> & _)|(i & -> & _)]]].
    - destruct (prepared_not_concurrent _ e Hprep).
      + by eapply list_elem_of_lookup_2.
      + revert Hk. generalize (kind_of e). intros k Hk.
        apply (bool_decide_unpack _).
        repeat (apply elem_of_cons in Hk as [->|Hk]; [by vm_compute|]).
        by apply elem_of_nil in Hk.
    - exfalso. cbn [kind_of] in Hk.
      by apply (bool_decide_pack _) in Hk; vm_compute in Hk.
    - lia.
    - lia. }
  split.
  { intros r p Hr. destruct isdir.
    2:{ subst t. by rewrite process_not_directory in Hr. }
    pose proof (process_outcome compare_tool resize_tool jpeg_tool video_path iq
                  fs schedule) as Hinv.
    destruct (process_frames_prepared compare_tool resize_tool video_path fs)
      as (Hrun & Hprep & Hraise).
    destruct (process_trace_cases fs schedule)
      as [[Hprefix Hst]|(_ & Hok & Hexit & c & now & Ht & Hc & Hcaller & Hw)].
    { destruct (second_frame_opens video_path fs) eqn:Hopens.
      - exists (World (prep fs) (ptrace fs)). split; [done|]. cbn [trace].
        destruct (outcome_inv_not_started _ _ _ _ _ _ _ Hinv Hst)
          as [_ [Hnil|(e & _ & Hraised)]].
        + subst t. by rewrite Hnil in Hr.
        + by rewrite Hraised in Hrun.
      - exfalso. destruct (Hraise eq_refl) as [_ Hone]. rewrite Hone in Hprefix.
        destruct Hprefix as [rest Hrest].
        assert (Hin : ERemove p ∈ [EGlob (sorted_frames video_path fs)]).
        { rewrite Hrest. apply elem_of_app. left. by eapply list_elem_of_lookup_2. }
        apply list_elem_of_singleton in Hin. discriminate Hin. }
    exists (World (prep fs) (ptrace fs)). split; [done|]. cbn [files trace].
    subst t. rewrite Ht. split; [by eexists|].
    rewrite Ht in Hr.
    apply lookup_started in Hr as [[Hlt _]|[[_ [=]]|[(i & -> & Hi)|(i & -> & Hi)]]].
    - by left.
    - exfalso. apply list_elem_of_lookup_2 in Hi.
      unfold only in Hc. rewrite Forall_forall in Hc. specialize (Hc _ Hi).
      cbn [kind_of] in Hc.
      by apply (bool_decide_pack _) in Hc; vm_compute in Hc.
    - right.
      destruct (pc (process_of true fs schedule)) eqn:Hpc;
        cbn [cleanup_so_far] in Hi |- *;
        try (by destruct i).
      destruct i as [|[|i]]; [discriminate Hi|discriminate Hi|].
      cbn [lookup list_lookup] in Hi.
      cbn [caller_so_far] in Hcaller. rewrite Hexit in Hw.
      destruct (finished_threads_recorded fs c now
                  (cleanup_so_far (sorted_frames video_path (prep fs)) MDone)
                  Hcaller Hw)
        as (x & y & Hx & Hy & Hpx & Hpy & Hxz & Hyz).
      exists x, y, (length (ptrace fs) + 1 + length c + 0)%nat.
      split; [done|]. split; [done|].
      split; [by rewrite lookup_started_cleanup|].
      repeat (split; [lia|]).
      apply list_elem_of_lookup_2 in Hi.
      apply list_elem_of_fmap in Hi as (f & [= ->] & Hf). done. }
  split.
  { intros Hpc ->.
    destruct (process_trace_cases fs schedule)
      as [[_ Hst]|(_ & Hok & Hexit & c & now & Ht & Hc & Hcaller & Hw)].
    { by rewrite Hpc in Hst. }
    rewrite Hpc in Hexit, Ht, Hcaller. rewrite Hexit in Hw.
    cbn [caller_so_far] in Hcaller.
    destruct (finished_threads_recorded fs c now
                (cleanup_so_far (sorted_frames video_path (prep fs)) MDone)
                Hcaller Hw)
      as (x & y & Hx & Hy & Hpx & Hpy & Hxz & Hyz).
    exists (World (prep fs) (ptrace fs)), x, y,
      (length (ptrace fs) + 1 + length c + 0)%nat.
    cbn [files trace]. subst t. rewrite Ht.
    split; [done|]. split; [done|]. split; [done|].
    split; [by rewrite lookup_started_cleanup|].
    repeat (split; [lia|]).
    intros f [i Hi]%list_elem_of_lookup.
    exists (length (ptrace fs) + 1 + length c + S (S i))%nat.
    split; [lia|]. rewrite lookup_started_cleanup. cbn [cleanup_so_far].
    simpl. by rewrite list_lookup_fmap, Hi. }
  destruct (machine_inv_shape (process_of isdir fs schedule))
    as (t1 & t2 & t3 & s & c & j & cl & Ht & HF & Hc & Hj).
  { apply run_inv, process_start_inv. }
  subst t. rewrite Ht.
  split; [by apply shaped_jpeg_before_exit|].
  repeat (split; [by apply (all_before_segments _ _ _ _ HF)|]).
  by apply (all_before_segments _ _ _ _ HF).
Qed.

End Order.

(** C1 as stated fails: on a directory of sixty frames, under
    [sixty_schedule], the first pass of the capper is the fourth event of
    the run, and the first comparison of the duplicate eliminator comes
    only after that pass and its 49 removals: duplicate elimination does
    not complete before the first capping pass begins. *)
Lemma process_stage_order_counterexample :
  pc (process pixel_diff exact_resize exact_resize "/v" 75 true
        (directory_of sixty_frames) sixty_schedule) = MDone ∧
  ¬ all_before KCompare KSample
      (trace (wd (process pixel_diff exact_resize exact_resize "/v" 75 true
                    (directory_of sixty_frames) sixty_schedule))).
Proof.
  split; [by vm_compute|]. intros H.
  assert (55 < 3)%nat; [|lia].
  eapply (H 55%nat 3%nat); vm_compute; reflexivity.
Qed.
